(** * NVAE (1-D audio variant): a shallow embedding of
      [neural_ar_operations.py] and [model.py]

    The Python code is embedded as Rocq functions.  Exceptions are values of
    an error monad, module objects are records of their attributes, and
    tensors are rectangular nested lists over an abstract scalar type whose
    arithmetic is left uninterpreted (so every statement proved for all
    scalars holds in particular for IEEE arithmetic). *)

From Stdlib Require Import Bool String.
From Stdlib Require Import List ZArith Lia Reals Lra.
Import ListNotations.
Open Scope string_scope.
Open Scope list_scope.

(** ** Exceptions and the error monad *)

Inductive exn : Type :=
| NameError (name : string)
| AttributeError (attr : string)
| UnboundLocalError (name : string)
| IndexError
| ValueError
| ZeroDivisionError
| RuntimeError
| TypeError
| AssertionError.

Inductive result (A : Type) : Type :=
| Ok (a : A)
| Raise (e : exn).
Arguments Ok {A} a.
Arguments Raise {A} e.

Definition bind {A B : Type} (c : result A) (k : A -> result B) : result B :=
  match c with
  | Ok a => k a
  | Raise e => Raise e
  end.

Notation "x <- c ;; k" := (bind c (fun x => k))
  (at level 61, c at next level, right associativity).
Notation "' p <- c ;; k" := (bind c (fun x => let 'p := x in k))
  (at level 61, p pattern, c at next level, right associativity).

Fixpoint mapM {A B : Type} (f : A -> result B) (l : list A) : result (list B) :=
  match l with
  | [] => Ok []
  | a :: l' => b <- f a ;; bs <- mapM f l' ;; Ok (b :: bs)
  end.

Fixpoint mapM2 {A B C : Type} (f : A -> B -> result C) (l1 : list A) (l2 : list B)
  : result (list C) :=
  match l1, l2 with
  | a :: l1', b :: l2' => c <- f a b ;; cs <- mapM2 f l1' l2' ;; Ok (c :: cs)
  | _, _ => Ok []
  end.

(** [f] applied to every element with its position. *)
Definition mapi {A B : Type} (f : nat -> A -> B) (l : list A) : list B :=
  map (fun '(i, a) => f i a) (combine (seq 0 (length l)) l).

Definition raises {A : Type} (c : result A) : Prop := exists e, c = Raise e.

(** ** Python helpers *)

Module Py.

(** [range(n)] for an [int] n: empty when n <= 0. *)
Definition range (n : Z) : list Z := map Z.of_nat (seq 0 (Z.to_nat n)).

(** Name resolution: local scope, then module globals, then builtins. *)
Definition load_name (locals globals builtins : list string) (n : string)
  : result unit :=
  if existsb (String.eqb n) locals
     || existsb (String.eqb n) globals
     || existsb (String.eqb n) builtins
  then Ok tt
  else Raise (NameError n).

Definition builtins : list string :=
  [ "print"; "super"; "int"; "round"; "range"; "len"; "isinstance"; "float";
    "bool"; "str"; "list"; "tuple"; "dict"; "set"; "zip"; "map"; "sum"; "min";
    "max"; "abs"; "any"; "all"; "enumerate"; "sorted"; "reversed"; "object";
    "type"; "id"; "iter"; "next"; "open"; "repr"; "hash"; "getattr"; "setattr";
    "hasattr"; "callable"; "divmod"; "pow"; "filter"; "slice"; "staticmethod";
    "classmethod"; "property"; "None"; "True"; "False"; "ValueError";
    "IndexError"; "TypeError"; "NameError"; "AttributeError"; "Exception";
    "AssertionError"; "RuntimeError"; "KeyError"; "ZeroDivisionError";
    "NotImplementedError"; "StopIteration"; "__import__"; "__name__" ].

(** A method call on an attribute that may hold [None]. *)
Definition call_method {A : Type} (meth : string) (obj : option A) : result A :=
  match obj with
  | Some a => Ok a
  | None => Raise (AttributeError meth)
  end.

(** [l[i]] for an integer [i]; a negative index counts from the end. *)
Definition index {A : Type} (l : list A) (i : Z) : result A :=
  let i' := if (i <? 0)%Z then (Z.of_nat (length l) + i)%Z else i in
  if (i' <? 0)%Z then Raise IndexError
  else match nth_error l (Z.to_nat i') with
       | Some a => Ok a
       | None => Raise IndexError
       end.

(** [l[:stop]] on one axis. *)
Definition slice_stop {A : Type} (stop : Z) (l : list A) : list A :=
  let n := Z.of_nat (length l) in
  let stop' := if (stop <? 0)%Z then Z.max 0 (n + stop) else stop in
  firstn (Z.to_nat stop') l.

(** [l[start:]] on one axis. *)
Definition slice_start {A : Type} (start : Z) (l : list A) : list A :=
  let n := Z.of_nat (length l) in
  let start' := if (start <? 0)%Z then Z.max 0 (n + start) else start in
  skipn (Z.to_nat start') l.

(** Binding the arguments of a call to the parameters of a [def] (those
    after [self]): [params] gives every parameter's name and whether it has
    a default; the call passes [npos] positional arguments and the keywords
    [kw].  Too many positional arguments, a keyword that names no
    parameter, a parameter given both ways, or a parameter left without a
    value raise [TypeError] before the body runs. *)
Definition bind_call (params : list (string * bool)) (npos : nat) (kw : list string)
  : result unit :=
  let named (k : string) (ps : list (string * bool)) :=
    existsb (fun p => String.eqb k (fst p)) ps in
  if Nat.ltb (length params) npos then Raise TypeError
  else if negb (forallb (fun k => named k params) kw) then Raise TypeError
  else if existsb (fun k => named k (firstn npos params)) kw then Raise TypeError
  else if negb (forallb (fun p => snd p || existsb (String.eqb (fst p)) kw)
                        (skipn npos params))
  then Raise TypeError
  else Ok tt.

End Py.

(** ** Scalars

    The element type of tensors with the operations the code uses.  No law
    is assumed here; theorems that need one state it. *)

Class Scalar (F : Type) : Type := {
  fzero : F;
  fone : F;
  flit : Z -> Z -> F;          (* the decimal literal  m * 10^e  *)
  fadd : F -> F -> F;
  fsub : F -> F -> F;
  fmul : F -> F -> F;
  fdiv : F -> F -> F;
  fneg : F -> F;
  fexp : F -> F;
  flog : F -> F;
  fsqrt : F -> F;
  fltb : F -> F -> bool        (* x < y *)
}.

(** Real numbers as scalars (exact arithmetic). *)
#[export] Instance RScalar : Scalar R := {|
  fzero := 0%R;
  fone := 1%R;
  flit := fun m e => (IZR m * powerRZ 10 e)%R;
  fadd := Rplus;
  fsub := Rminus;
  fmul := Rmult;
  fdiv := Rdiv;
  fneg := Ropp;
  fexp := exp;
  flog := ln;
  fsqrt := sqrt;
  fltb := fun x y => if Rlt_dec x y then true else false
|}.

(** ** Tensors and the torch operations the code calls *)

Module Torch.
Section Ops.
Context {F : Type} `{Scalar F}.

(** A tensor of shape (B, C, L) is a list of B samples, each a list of C
    channels, each a list of L values. *)
Definition tensor1 := list F.
Definition tensor2 := list (list F).
Definition tensor3 := list (list (list F)).

Definition map3 (f : F -> F) (t : tensor3) : tensor3 := map (map (map f)) t.

Definition fsum (l : list F) : F := fold_right fadd fzero l.

(** Shape (B, C, L) of a rectangular tensor. *)
Definition rect2 (C L : nat) (xb : tensor2) : Prop :=
  length xb = C /\ Forall (fun ch => length ch = L) xb.
Definition rect3 (B C L : nat) (x : tensor3) : Prop :=
  length x = B /\ Forall (rect2 C L) x.

(** Element [t[b, c, j]] (zero outside the tensor). *)
Definition entry (t : tensor3) (b c j : nat) : F :=
  nth j (nth c (nth b t []) []) fzero.

Definition size (x : tensor3) : list nat :=
  [length x; length (hd [] x); length (hd [] (hd [] x))].

(** Elementwise binary operations broadcast every axis of size one. *)
Definition bzip {A B C : Type} (f : A -> B -> result C) (xs : list A) (ys : list B)
  : result (list C) :=
  if Nat.eqb (length xs) (length ys) then mapM2 f xs ys
  else match xs, ys with
       | [x], _ => mapM (f x) ys
       | _, [y] => mapM (fun x => f x y) xs
       | _, _ => Raise RuntimeError
       end.

Definition binop (f : F -> F -> F) (a b : tensor3) : result tensor3 :=
  bzip (bzip (bzip (fun u v => Ok (f u v)))) a b.

Definition tsub : tensor3 -> tensor3 -> result tensor3 := binop fsub.
Definition tadd : tensor3 -> tensor3 -> result tensor3 := binop fadd.

Definition same_shape (a b : tensor3) : bool :=
  Nat.eqb (length a) (length b)
  && forallb (fun '(xa, xb) =>
       Nat.eqb (length xa) (length xb)
       && forallb (fun '(ca, cb) => Nat.eqb (length ca) (length cb)) (combine xa xb))
     (combine a b).

(** [a += b]: the broadcast result must have the shape of [a]. *)
Definition tadd_inplace (a b : tensor3) : result tensor3 :=
  r <- tadd a b ;;
  if same_shape a r then Ok r else Raise RuntimeError.

Definition zeros_like (t : tensor3) : tensor3 := map3 (fun _ => fzero) t.

(** [F.elu] with alpha = 1. *)
Definition elu1 (v : F) : F := if fltb fzero v then v else fsub (fexp v) fone.
Definition elu (t : tensor3) : tensor3 := map3 elu1 t.

(** *** [F.conv1d(input, weight, bias, stride, padding, dilation, groups)]

    input (B, C_in, L), weight (C_out, C_in/groups, K), bias (C_out);
    zero padding on both sides;
    out[b, co, i] = bias[co]
        + sum over ci, k of weight[co, ci, k] * padded[b, g*C_in/groups + ci, i*stride + k*dilation].

    torch checks the channel count of the input and the padded length
    against the kernel, and accepts an empty input only when it has no
    sample or no channel: a sample with channels of length zero raises.
    A nested list keeps the channel count of a batch only while the batch
    holds a sample, so the empty batch is passed through here; torch would
    still check its channel count. *)

Definition pad_both (p : nat) (ch : tensor1) : tensor1 :=
  repeat fzero p ++ ch ++ repeat fzero p.


Fixpoint taps (wrow : tensor1) (ch : tensor1) (pos dil : nat) : F :=
  match wrow with
  | [] => fzero
  | wk :: wr => fadd (fmul wk (nth pos ch fzero)) (taps wr ch (pos + dil) dil)
  end.

Fixpoint chans_sum (filt : tensor2) (chs : tensor2) (pos dil : nat) : F :=
  match filt, chs with
  | wrow :: filt', ch :: chs' => fadd (taps wrow ch pos dil) (chans_sum filt' chs' pos dil)
  | _, _ => fzero
  end.

Definition out_value (w : tensor3) (b : tensor1) (xp : tensor2)
    (opg cpg dil stride : nat) (co i : nat) : F :=
  let g := (co / opg)%nat in
  let chs := firstn cpg (skipn (g * cpg) xp) in
  fadd (chans_sum (nth co w []) chs (i * stride) dil) (nth co b fzero).

Definition conv1d_sample (w : tensor3) (b : tensor1) (s p d g : nat) (xb : tensor2)
  : result tensor2 :=
  let C_out := length w in
  let cpg := length (hd [] w) in
  let K := length (hd [] (hd [] w)) in
  let L := length (hd [] xb) in
  if negb (Nat.eqb (length xb) (cpg * g)) then Raise RuntimeError
  else if negb (Nat.eqb (length xb) 0) && Nat.eqb L 0 then Raise RuntimeError
  else
    let Lp := (L + 2 * p)%nat in
    let span := (d * (K - 1) + 1)%nat in
    if Nat.ltb Lp span then Raise RuntimeError
    else
      let xp := map (pad_both p) xb in
      let L_out := ((Lp - span) / s + 1)%nat in
      Ok (map (fun co => map (out_value w b xp (C_out / g) cpg d s co) (seq 0 L_out))
              (seq 0 C_out)).

Definition conv1d (x : tensor3) (w : tensor3) (b : tensor1)
    (stride padding dilation groups : Z) : result tensor3 :=
  if ((stride <=? 0) || (padding <? 0) || (dilation <=? 0) || (groups <=? 0))%Z
  then Raise RuntimeError
  else
    let g := Z.to_nat groups in
    if negb (Nat.eqb (length w mod g) 0) then Raise RuntimeError
    else if negb (Nat.eqb (length b) (length w)) then Raise RuntimeError
    else mapM (conv1d_sample w b (Z.to_nat stride) (Z.to_nat padding)
                             (Z.to_nat dilation) g) x.

(** Reductions and elementwise functions along one axis, given as a list:
    [torch.clamp(min=lo)], [F.softplus], [torch.logsumexp], [torch.log_softmax]
    (their mathematical definitions; torch evaluates them in a numerically
    stable order). *)
Definition clamp_min (lo v : F) : F := if fltb v lo then lo else v.
Definition softplus (v : F) : F := flog (fadd fone (fexp v)).
Definition logsumexp (l : tensor1) : F := flog (fsum (map fexp l)).
Definition log_softmax (l : tensor1) : tensor1 :=
  map (fun v => fsub v (logsumexp l)) l.
Definition bzip1 (f : F -> F -> F) (xs ys : tensor1) : result tensor1 :=
  bzip (fun u v => Ok (f u v)) xs ys.

(** [t.type_as(x)]: every tensor of the model has the one scalar type. *)
Definition type_as {A : Type} (t : A) (x : tensor3) : A := t.

(** [t.permute(0, 2, 1)]: the last two axes exchanged, sample by sample.
    (A nested list keeps the size of an inner axis only while the outer
    ones are not empty.) *)
Definition transpose (xb : tensor2) : tensor2 :=
  map (fun c => map (fun row => nth c row fzero) xb) (seq 0 (length (hd [] xb))).
Definition permute_0_2_1 (x : tensor3) : tensor3 := map transpose x.

(** [t.float()]: every entry converted to single precision; [float32] is
    the conversion of one entry (the identity on a float32 tensor, a
    rounding on a float64 or an integer one). *)
Definition float (float32 : F -> F) (x : tensor3) : tensor3 := map3 float32 x.

End Ops.
Arguments tensor1 : clear implicits.
Arguments tensor2 : clear implicits.
Arguments tensor3 : clear implicits.
End Torch.

(** ** numpy arrays, as far as [channel_mask] and [create_conv_mask] use them *)

Module Numpy.
Section Arr.
Context {F : Type} `{Scalar F}.

(** An n-dimensional array: its shape and its elements in row-major order. *)
Record ndarray : Type := mk_ndarray { shape : list nat; data : list F }.

Definition ndim (a : ndarray) : nat := length (shape a).
Definition prod (l : list nat) : nat := fold_right Nat.mul 1%nat l.

(** [np.ones(shape)]; a negative dimension is refused. *)
Definition ones (sh : list Z) : result ndarray :=
  if existsb (fun d => (d <? 0)%Z) sh then Raise ValueError
  else let sh' := map Z.to_nat sh in
       Ok (mk_ndarray sh' (repeat fone (prod sh'))).

(** One component of a subscript: an integer, [start:stop], or [::-1]. *)
Inductive index : Type :=
| At (i : Z)
| Slice (start stop : option Z)
| Reversed.

Definition clamp_bound (n : nat) (b : Z) : nat :=
  let b' := if (b <? 0)%Z then (Z.of_nat n + b)%Z else b in
  Nat.min n (Z.to_nat (Z.max 0 b')).

(** The positions an index selects on an axis of length [n], in order. *)
Definition sel_axis (n : nat) (ix : index) : result (list nat) :=
  match ix with
  | At i =>
      let i' := if (i <? 0)%Z then (Z.of_nat n + i)%Z else i in
      if ((0 <=? i') && (i' <? Z.of_nat n))%Z then Ok [Z.to_nat i']
      else Raise IndexError
  | Slice start stop =>
      let lo := match start with Some s => clamp_bound n s | None => 0%nat end in
      let hi := match stop with Some s => clamp_bound n s | None => n end in
      Ok (seq lo (hi - lo))
  | Reversed => Ok (rev (seq 0 n))
  end.

Definition is_at (ix : index) : bool :=
  match ix with At _ => true | _ => false end.

(** A subscript with more components than the array has axes is an
    [IndexError]; missing trailing components stand for [:]. *)
Definition selection (a : ndarray) (idx : list index) : result (list (list nat)) :=
  if Nat.ltb (ndim a) (length idx) then Raise IndexError
  else mapM2 sel_axis (shape a)
             (idx ++ repeat (Slice None None) (ndim a - length idx)).

Fixpoint unravel (sh : list nat) (pos : nat) : list nat :=
  match sh with
  | [] => []
  | _ :: rest => (pos / prod rest)%nat :: unravel rest (pos mod prod rest)
  end.

Fixpoint ravel (sh : list nat) (coords : list nat) : nat :=
  match sh, coords with
  | _ :: rest, c :: cs => (c * prod rest + ravel rest cs)%nat
  | _, _ => 0%nat
  end.

Fixpoint selected (coords : list nat) (sels : list (list nat)) : bool :=
  match coords, sels with
  | c :: cs, s :: ss => existsb (Nat.eqb c) s && selected cs ss
  | _, _ => true
  end.

(** [a[idx] = v] for a scalar [v]. *)
Definition setitem_scalar (a : ndarray) (idx : list index) (v : F) : result ndarray :=
  sels <- selection a idx ;;
  Ok (mk_ndarray (shape a)
        (mapi (fun pos old => if selected (unravel (shape a) pos) sels then v else old)
              (data a))).

Fixpoint position (c : nat) (l : list nat) : nat :=
  match l with
  | [] => 0%nat
  | x :: l' => if Nat.eqb c x then 0%nat else S (position c l')
  end.

(** Shape of the selected region (integer-indexed axes are dropped) and the
    coordinates of an element inside it. *)
Fixpoint region_shape (idx : list index) (sels : list (list nat)) : list nat :=
  match sels with
  | [] => []
  | s :: ss =>
      match idx with
      | ix :: idx' => if is_at ix then region_shape idx' ss
                      else length s :: region_shape idx' ss
      | [] => length s :: region_shape [] ss
      end
  end.

Fixpoint region_coords (idx : list index) (sels : list (list nat)) (coords : list nat)
  : list nat :=
  match sels, coords with
  | s :: ss, c :: cs =>
      match idx with
      | ix :: idx' => if is_at ix then region_coords idx' ss cs
                      else position c s :: region_coords idx' ss cs
      | [] => position c s :: region_coords [] ss cs
      end
  | _, _ => []
  end.

(** numpy broadcasting of a value of shape [vs] into a region of shape [rs]:
    shapes are aligned at the right; an axis of the value must be 1 or equal. *)
Definition broadcastable (vs rs : list nat) : bool :=
  Nat.leb (length vs) (length rs)
  && forallb (fun '(v, r) => Nat.eqb v 1 || Nat.eqb v r)
             (combine (rev vs) (rev rs)).

Definition bcast_coords (vs : list nat) (rc : list nat) : list nat :=
  map (fun '(v, c) => if Nat.eqb v 1 then 0%nat else c)
      (combine vs (skipn (length rc - length vs) rc)).

(** [a[idx] = v] for an array [v]. *)
Definition setitem_array (a : ndarray) (idx : list index) (v : ndarray) : result ndarray :=
  sels <- selection a idx ;;
  if negb (broadcastable (shape v) (region_shape idx sels)) then Raise ValueError
  else
    Ok (mk_ndarray (shape a)
          (mapi (fun pos old =>
                   let coords := unravel (shape a) pos in
                   if selected coords sels
                   then nth (ravel (shape v)
                               (bcast_coords (shape v) (region_coords idx sels coords)))
                            (data v) fzero
                   else old)
                (data a))).

Fixpoint cart (sels : list (list nat)) : list (list nat) :=
  match sels with
  | [] => [[]]
  | s :: ss => flat_map (fun i => map (cons i) (cart ss)) s
  end.

(** [np.copy(a[idx])]. *)
Definition getitem (a : ndarray) (idx : list index) : result ndarray :=
  sels <- selection a idx ;;
  Ok (mk_ndarray (region_shape idx sels)
        (map (fun coords => nth (ravel (shape a) coords) (data a) fzero) (cart sels))).

(** [c * a] for a scalar [c]. *)
Definition scale (c : F) (a : ndarray) : ndarray :=
  mk_ndarray (shape a) (map (fmul c) (data a)).

(** Element (o, j) of a two-dimensional array. *)
Definition item2 (a : ndarray) (o j : nat) : F :=
  nth (ravel (shape a) [o; j]) (data a) fzero.

End Arr.
Arguments ndarray : clear implicits.
End Numpy.

(** Python's [//] and [%] on integers: a zero divisor raises. *)
Definition floordiv (a b : Z) : result Z :=
  if (b =? 0)%Z then Raise ZeroDivisionError else Ok (a / b)%Z.
Definition pymod (a b : Z) : result Z :=
  if (b =? 0)%Z then Raise ZeroDivisionError else Ok (a mod b)%Z.
Definition py_assert (c : bool) : result unit :=
  if c then Ok tt else Raise AssertionError.

(** A [for] loop whose body may raise. *)
Fixpoint for_each {A S : Type} (l : list A) (body : S -> A -> result S) (s : S) : result S :=
  match l with
  | [] => Ok s
  | a :: l' => s' <- body s a ;; for_each l' body s'
  end.

(** * neural_ar_operations.py *)

Module neural_ar_operations.
Import Torch Numpy.

(** Names bound at module level when a constructor runs. *)
Definition module_globals : list string :=
  [ "torch"; "nn"; "F"; "Variable"; "np"; "OrderedDict"; "ConvBNSwish";
    "normalize_weight_jit"; "dist"; "checkpoint"; "AROPS"; "Identity";
    "channel_mask"; "create_conv_mask"; "norm"; "_convert_arconv_weights_to_fp16";
    "ARConv1d"; "ELUConv"; "ARInvertedResidual"; "MixLogCDFParam";
    "mix_log_cdf_flow" ].

Section Masks.
Context {F : Type} `{Scalar F}.

Definition channel_mask (c_in g_in c_out : Z) (zero_diag : bool) : result (ndarray F) :=
  r1 <- pymod c_in c_out ;;
  divides <- (if (r1 =? 0)%Z then Ok true
              else r2 <- pymod c_out c_in ;; Ok (r2 =? 0)%Z) ;;
  _ <- py_assert divides ;;
  _ <- py_assert ((g_in =? 1) || (g_in =? c_in))%Z ;;
  if (g_in =? 1)%Z then
    mask <- ones [c_out; c_in] ;;
    if (c_out >=? c_in)%Z then
      ratio <- floordiv c_out c_in ;;
      for_each (Py.range c_in)
        (fun mask i =>
           mask <- setitem_scalar mask
                     [Slice (Some (i * ratio)%Z) (Some ((i + 1) * ratio)%Z);
                      Slice (Some (i + 1)%Z) None] fzero ;;
           if zero_diag
           then setitem_scalar mask
                  [Slice (Some (i * ratio)%Z) (Some ((i + 1) * ratio)%Z);
                   Slice (Some i) (Some (i + 1)%Z)] fzero
           else Ok mask)
        mask
    else
      ratio <- floordiv c_in c_out ;;
      for_each (Py.range c_out)
        (fun mask i =>
           mask <- setitem_scalar mask
                     [Slice (Some i) (Some (i + 1)%Z);
                      Slice (Some ((i + 1) * ratio)%Z) None] fzero ;;
           if zero_diag
           then setitem_scalar mask
                  [Slice (Some i) (Some (i + 1)%Z);
                   Slice (Some (i * ratio)%Z) (Some ((i + 1) * ratio)%Z)] fzero
           else Ok mask)
        mask
  else if (g_in =? c_in)%Z then
    q <- floordiv c_in g_in ;;
    mask <- ones [c_out; q] ;;
    Ok (if zero_diag then scale fzero mask else mask)
  else Raise (UnboundLocalError "mask").

Definition create_conv_mask (kernel_size c_in g_in c_out : Z) (zero_diag mirror : bool)
  : result (ndarray F) :=
  let m := ((kernel_size - 1) / 2)%Z in
  q <- floordiv c_in g_in ;;
  mask <- ones [c_out; q; kernel_size] ;;
  (* mask[:, :, m:, :] = 0 *)
  mask <- setitem_scalar mask
            [Slice None None; Slice None None; Slice (Some m) None; Slice None None]
            fzero ;;
  (* mask[:, :, m, :m] = 1 *)
  mask <- setitem_scalar mask
            [Slice None None; Slice None None; At m; Slice None (Some m)] fone ;;
  (* mask[:, :, m, m] = channel_mask(c_in, g_in, c_out, zero_diag) *)
  cm <- channel_mask c_in g_in c_out zero_diag ;;
  mask <- setitem_array mask [Slice None None; Slice None None; At m; At m] cm ;;
  if mirror
  then getitem mask [Slice None None; Slice None None; Reversed]
  else Ok mask.

(** [norm(t, dim=[1, 2])]: the L2 norm of every slice along the first axis. *)
Definition norm (t : tensor3 F) : tensor1 F :=
  map (fun filt => fsqrt (fsum (map (fun v => fmul v v) (concat filt)))) t.

(** Modelled from the spec: [neural_operations.normalize_weight_jit] is not
    among the sources.  Section 4.1 gives
    normalized = direction / ||direction|| * exp(log_magnitude),
    per output channel, with [log_weight_norm] of shape (C_out, 1, 1). *)
Definition normalize_weight_jit (log_weight_norm weight : tensor3 F) : tensor3 F :=
  mapi (fun co filt =>
          let n := fexp (nth 0 (nth 0 (nth co log_weight_norm []) []) fzero) in
          let wn := fsqrt (fsum (map (fun v => fmul v v) (concat filt))) in
          map (map (fun v => fmul (fdiv v wn) n)) filt)
       weight.

(** Modelled from the spec: [thirdparty.checkpoint.checkpoint] is not among
    the sources.  Section 5: the block runs under recompute-on-backward; in
    the forward pass the function is applied to its inputs (the parameter
    list and the flag matter to the gradient pass only). *)
Definition checkpoint {A B : Type} (func : A -> result B) (inputs : A) : result B :=
  func inputs.

End Masks.

(** ** class ARConv1d(nn.Conv1d) *)

Module ARConv1d.
Section Class.
Context {F : Type} `{Scalar F}.

(** The attributes [forward] and [__init__] read or write. *)
Record t : Type := mk {
  in_channels : Z;
  out_channels : Z;
  kernel_size : Z;
  stride : Z;
  padding : Z;
  dilation : Z;
  groups : Z;
  weight : tensor3 F;              (* (C_out, C_in / groups, K) *)
  bias : option (tensor1 F);         (* None when built with bias=False *)
  causal : bool;
  mode : string;
  log_weight_norm : tensor3 F      (* (C_out, 1, 1) *)
}.

(** torch's random initialisers of a convolution's parameters, by shape. *)
Variable rand_weight : nat -> nat -> nat -> tensor3 F.
Variable rand_bias : nat -> tensor1 F.

(** [nn.Conv1d.__init__]: validates the channel counts and creates the
    parameters; [bias=False] registers [None]. *)
Definition nn_Conv1d_init (C_in C_out kernel_size groups : Z) (bias : bool)
  : result (tensor3 F * option (tensor1 F)) :=
  if (groups <=? 0)%Z then Raise ValueError
  else if negb (C_in mod groups =? 0)%Z then Raise ValueError
  else if negb (C_out mod groups =? 0)%Z then Raise ValueError
  else if ((C_in <? 0) || (C_out <? 0) || (kernel_size <? 0))%Z then Raise RuntimeError
  else Ok (rand_weight (Z.to_nat C_out) (Z.to_nat (C_in / groups)) (Z.to_nat kernel_size),
           if bias then Some (rand_bias (Z.to_nat C_out)) else None).

Definition init_locals : list string :=
  [ "self"; "C_in"; "C_out"; "kernel_size"; "stride"; "padding"; "dilation";
    "groups"; "bias"; "causal"; "mode"; "__class__" ].

Definition load (n : string) : result unit :=
  Py.load_name init_locals module_globals Py.builtins n.

(** Lines 94-99: the padding the constructor configures. *)
Definition configured_padding (causal : bool) (mode : string) (dilation kernel_size : Z) : Z :=
  if causal && (mode =? "SAME")%string then (dilation * (kernel_size - 1))%Z
  else if (mode =? "SAME")%string then (dilation * (kernel_size - 1) / 2)%Z
  else 0%Z.

(** [print(self.weight.type(), self.bias.type())] and its twin at the end. *)
Definition print_types {A : Type} (first : A) (bias : option (tensor1 F)) : result unit :=
  _ <- Py.call_method "type" (Some first) ;;
  _ <- Py.call_method "type" bias ;;
  Ok tt.

Definition init (C_in C_out kernel_size stride padding dilation groups : Z)
    (bias causal : bool) (mode : string) : result t :=
  '(w, b) <- nn_Conv1d_init C_in C_out kernel_size groups bias ;;
  (* print(Cin, Cout) *)
  _ <- load "Cin" ;;
  _ <- load "Cout" ;;
  _ <- print_types w b ;;
  let padding' := configured_padding causal mode dilation kernel_size in
  (* init = torch.log(norm(self.weight, dim=[1, 2]).view(-1, 1, 1) + 1e-2) *)
  let init := map (fun n => [[flog (fadd n (flit 1 (-2)))]]) (norm w) in
  _ <- print_types init b ;;
  Ok (mk C_in C_out kernel_size stride padding' dilation groups w b causal mode init).

Definition normalize_weight (self : t) : tensor3 F :=
  normalize_weight_jit (log_weight_norm self) (weight self).

(** [forward] returns [out]; the assignment to [self.weight_normalized]
    stores the same [weight_normalized] for the spectral regulariser and is
    not read here. *)
Definition forward (self : t) (x : tensor3 F) : result (tensor3 F) :=
  let weight_normalized := normalize_weight self in
  let w := type_as weight_normalized x in
  b <- Py.call_method "type_as" (bias self) ;;
  out <- conv1d x w (type_as b x) (stride self) (padding self) (dilation self)
                (groups self) ;;
  if causal self && negb (padding self =? 0)%Z
  then Ok (map (map (Py.slice_stop (- padding self))) out)
  else Ok out.

End Class.
Arguments t : clear implicits.
End ARConv1d.

(** ** class ELUConv *)

Module ELUConv.
Section Class.
Context {F : Type} `{Scalar F}.

Record t : Type := mk {
  checkpoint_res : Z;            (* a bool or an int; compared with [== 1] *)
  conv_0 : ARConv1d.t F
}.

Variable rand_weight : nat -> nat -> nat -> tensor3 F.
Variable rand_bias : nat -> tensor1 F.

Definition init (C_in C_out kernel_size padding dilation : Z) (causal : bool)
    (mode : string) (weight_init_coeff : F) (checkpoint_res : Z) : result t :=
  conv_0 <- ARConv1d.init rand_weight rand_bias C_in C_out kernel_size 1 padding
              dilation 1 true causal mode ;;
  (* self.conv_0.log_weight_norm.data += np.log(weight_init_coeff) *)
  let lwn := map3 (fun v => fadd v (flog weight_init_coeff))
                  (ARConv1d.log_weight_norm conv_0) in
  Ok (mk checkpoint_res
         (ARConv1d.mk (ARConv1d.in_channels conv_0) (ARConv1d.out_channels conv_0)
            (ARConv1d.kernel_size conv_0) (ARConv1d.stride conv_0)
            (ARConv1d.padding conv_0) (ARConv1d.dilation conv_0)
            (ARConv1d.groups conv_0) (ARConv1d.weight conv_0) (ARConv1d.bias conv_0)
            (ARConv1d.causal conv_0) (ARConv1d.mode conv_0) lwn)).

(** The parameters of [__init__] after [self], with the ones that have a
    default marked. *)
Definition init_params : list (string * bool) :=
  [ ("C_in", false); ("C_out", false); ("kernel_size", false); ("padding", true);
    ("dilation", true); ("causal", true); ("mode", true);
    ("weight_init_coeff", true); ("checkpoint_res", true) ].

Definition forward (self : t) (x : tensor3 F) : result (tensor3 F) :=
  let out := elu x in
  if (checkpoint_res self =? 1)%Z
  then checkpoint (ARConv1d.forward (conv_0 self)) out
  else ARConv1d.forward (conv_0 self) out.

End Class.
Arguments t : clear implicits.
End ELUConv.

(** [AROPS['conv_3x3']]:
    [lambda C, masked, zero_diag:
       ELUConv(C, C, 3, 1, 1, masked=masked, zero_diag=zero_diag)]. *)
Section Arops.
Context {F : Type} `{Scalar F}.
Variable rand_weight : nat -> nat -> nat -> tensor3 F.
Variable rand_bias : nat -> tensor1 F.

Definition AROPS_conv_3x3 (C : Z) (masked zero_diag : bool) : result (ELUConv.t F) :=
  _ <- Py.bind_call ELUConv.init_params 5 ["masked"; "zero_diag"] ;;
  ELUConv.init rand_weight rand_bias C C 3 1 1 false "SAME" (flit 1 0) 0.

End Arops.

(** ** class ARInvertedResidual *)

Module ARInvertedResidual.
Section Class.
Context {F : Type} `{Scalar F}.

(** The modules the constructor puts in [layers]. *)
Inductive layer : Type :=
| Conv (c : ARConv1d.t F)
| ELU (inplace : bool).

(** [layers] is [self.layers] (an [nn.ModuleList]) when [checkpoint_res == 1]
    and [self.convz] (an [nn.Sequential]) otherwise; both hold the same list. *)
Record t : Type := mk {
  layers : list layer;
  checkpoint_res : Z;
  hidden_dim : Z
}.

Variable rand_weight : nat -> nat -> nat -> tensor3 F.
Variable rand_bias : nat -> tensor1 F.

(** [ex] is passed as an integer, so [int(round(inz * ex))] is the product. *)
Definition init (inz inf ex dil k : Z) (mode : string) (checkpoint_res : Z) : result t :=
  let hidden_dim := (inz * ex)%Z in
  let padding := (dil * (k - 1) / 2)%Z in
  c1 <- ARConv1d.init rand_weight rand_bias inz hidden_dim 3 1 1 1 1 false true mode ;;
  c2 <- ARConv1d.init rand_weight rand_bias hidden_dim hidden_dim k 1 padding dil
          hidden_dim false true mode ;;
  Ok (mk [Conv c1; ELU true; Conv c2; ELU true] checkpoint_res hidden_dim).

Definition init_params : list (string * bool) :=
  [ ("inz", false); ("inf", false); ("ex", true); ("dil", true); ("k", true);
    ("mode", true); ("checkpoint_res", true) ].

(** A layer applied to a tensor: its output, and the contents of the input
    tensor after the call ([nn.ELU(inplace=True)] overwrites its input and
    returns it). *)
Definition apply_layer (l : layer) (inp : tensor3 F) : result (tensor3 F * tensor3 F) :=
  match l with
  | Conv c => out <- ARConv1d.forward c inp ;; Ok (out, inp)
  | ELU inplace => let out := elu inp in Ok (out, if inplace then out else inp)
  end.

(** [for layer in self.layers: x = checkpoint(layer, (z, ), layer.parameters(), True)]:
    every layer is given [z]; the state is [x] (unbound before the first
    iteration) and the current contents of [z]. *)
Fixpoint checkpoint_loop (ls : list layer) (x : option (tensor3 F)) (z : tensor3 F)
  : result (option (tensor3 F) * tensor3 F) :=
  match ls with
  | [] => Ok (x, z)
  | l :: ls' =>
      '(out, z') <- checkpoint (apply_layer l) z ;;
      checkpoint_loop ls' (Some out) z'
  end.

(** [nn.Sequential]: each module is given the previous output.  [aliased]
    says whether the current tensor is still the caller's [z]. *)
Fixpoint sequential (ls : list layer) (cur : tensor3 F) (aliased : bool) (z : tensor3 F)
  : result (tensor3 F * tensor3 F) :=
  match ls with
  | [] => Ok (cur, z)
  | l :: ls' =>
      '(out, cur') <- apply_layer l cur ;;
      sequential ls' out
        (aliased && match l with ELU true => true | _ => false end)
        (if aliased then cur' else z)
  end.

(** Returns the output and the contents of the argument [z] after the call. *)
Definition forward (self : t) (z ftr : tensor3 F) : result (tensor3 F * tensor3 F) :=
  if (checkpoint_res self =? 1)%Z then
    '(x, z') <- checkpoint_loop (layers self) None z ;;
    match x with
    | Some x => Ok (x, z')
    | None => Raise (UnboundLocalError "x")
    end
  else sequential (layers self) z true z.

End Class.
Arguments t : clear implicits.
Arguments layer : clear implicits.
End ARInvertedResidual.

(** ** class MixLogCDFParam and [mix_log_cdf_flow] *)

Module MixLogCDFParam.
Section Class.
Context {F : Type} `{Scalar F}.

Record t : Type := mk {
  conv : ELUConv.t F;
  num_z : Z;
  num_mix : Z
}.

(** The five tensors of shape (b, n, k, h, w) that [forward] returns, given
    position by position: for one (b, n, h, w) the entries along axis 2.
    [forward] returns them as a (b, n, h*w) nest of positions. *)
Record params : Type := mk_params {
  logit_pi : tensor1 F;
  mu : tensor1 F;
  log_s : tensor1 F;
  log_a : tensor1 F;
  b : tensor1 F
}.

(** [a, b, c, d = seq] *)
Definition unpack4 {A : Type} (l : list A) : result (A * A * A * A) :=
  match l with
  | [a; b; c; d] => Ok (a, b, c, d)
  | _ => Raise ValueError
  end.

Definition forward (self : t) (ftr : tensor3 F)
  : result (list (list (list params))) :=
  out <- ELUConv.forward (conv self) ftr ;;
  (* b, c, h, w = out.size() *)
  '(b, c, h, w) <- unpack4 (size out) ;;
  (* out = out.view(b, self.num_z, c // self.num_z, h, w) *)
  per <- floordiv (Z.of_nat c) (num_z self) ;;
  let flat := concat (concat out) in
  if ((num_z self <? 0) || (per <? 0)
      || negb (Z.of_nat (length flat)
               =? Z.of_nat b * num_z self * per * Z.of_nat h * Z.of_nat w))%Z
  then Raise RuntimeError
  else
    (* torch.split(out, [m, m, m, 1, 1, 1], dim=2); the last part is dropped *)
    let m := num_mix self in
    if ((m <? 0) || negb (per =? 3 * m + 3))%Z then Raise RuntimeError
    else
      let nz := Z.to_nat (num_z self) in
      let per' := Z.to_nat per in
      let m' := Z.to_nat m in
      let item (bi n j hh ww : nat) :=
        nth ((((bi * nz + n) * per' + j) * h + hh) * w + ww)%nat flat fzero in
      Ok (map (fun bi => map (fun n => flat_map (fun hh => map (fun ww =>
            let part off len := map (fun j => item bi n (off + j)%nat hh ww) (seq 0 len) in
            mk_params (part 0 m') (part m' m') (part (2 * m') m')
                      (part (3 * m') 1) (part (3 * m' + 1) 1))%nat
          (seq 0 w)) (seq 0 h)) (seq 0 nz)) (seq 0 b)).

Variable rand_weight : nat -> nat -> nat -> tensor3 F.
Variable rand_bias : nat -> tensor1 F.

Definition init_params : list (string * bool) :=
  [ ("num_z", false); ("num_mix", false); ("num_ftr", false); ("mirror", false) ].

(** [ELUConv(num_ftr, num_out, kernel_size=1, padding=0, masked=True,
             zero_diag=False, weight_init_coeff=0.1, mirror=mirror)]. *)
Definition init (num_z num_mix num_ftr : Z) (mirror : bool) : result t :=
  let num_out := (num_z * (3 * num_mix + 3))%Z in
  _ <- Py.bind_call ELUConv.init_params 2
         ["kernel_size"; "padding"; "masked"; "zero_diag"; "weight_init_coeff";
          "mirror"] ;;
  conv <- ELUConv.init rand_weight rand_bias num_ftr num_out 1 0 1 false "SAME"
            (flit 1 (-1)) 0 ;;
  Ok (mk conv num_z num_mix).

End Class.
Arguments t : clear implicits.
Arguments params : clear implicits.
End MixLogCDFParam.

Section Flow.
Context {F : Type} `{Scalar F}.

(** [squeeze_(dim=2)] at one position, for [log_a] and [b] of the shape
    the function documents, (b, n, 1, h, w): the one entry along axis 2.
    torch leaves an axis of another size in place and then broadcasts whole
    tensors against each other, which depends on all five sizes and has no
    position-wise form; such arguments are outside this embedding, and the
    definition rejects them instead of following torch. *)
Definition squeeze (l : tensor1 F) : result F :=
  match l with
  | [v] => Ok v
  | _ => Raise RuntimeError
  end.

(** [mix_log_cdf_flow] at one position (b, n, h, w).  Every line of the
    function is elementwise or a reduction over axis 2, so the arguments
    are [z1] at that position and the entries of the other tensors along
    axis 2 (k mixture components; one entry for [log_a] and [b]). *)
Definition mix_log_cdf_flow (z1 : F) (logit_pi mu log_s log_a b : tensor1 F)
  : result (F * F) :=
  let log_s := map (clamp_min (flit (-7) 0)) log_s in
  let z := [z1] in
  let log_pi := log_softmax logit_pi in
  d <- bzip1 fsub z mu ;;
  u <- bzip1 fmul (map fneg d) (map fexp (map fneg log_s)) ;;
  let softplus_u := map softplus u in
  log_mix_cdf <- bzip1 fsub log_pi softplus_u ;;
  log_one_minus_mix_cdf <- bzip1 fadd log_mix_cdf u ;;
  let log_mix_cdf := logsumexp log_mix_cdf in
  let log_one_minus_mix_cdf := logsumexp log_one_minus_mix_cdf in
  log_a <- squeeze log_a ;;
  b <- squeeze b ;;
  let new_z := fadd (fmul (fexp log_a) (fsub log_mix_cdf log_one_minus_mix_cdf)) b in
  (* compute log determinant Jac *)
  t1 <- bzip1 fadd log_pi u ;;
  t2 <- bzip1 fsub t1 log_s ;;
  t3 <- bzip1 fsub t2 (map (fmul (flit 2 0)) softplus_u) ;;
  let log_mix_pdf := logsumexp t3 in
  let log_det :=
    fadd (fsub (fsub log_a log_mix_cdf) log_one_minus_mix_cdf) log_mix_pdf in
  Ok (new_z, log_det).

End Flow.

End neural_ar_operations.

(** * model.py *)

Module model.
Import Torch neural_ar_operations.

(** ** class CellAR *)

Module CellAR.
Section Class.
Context {F : Type} `{Scalar F}.

(** [__init__] sets [use_mix_log_cdf = False] and then creates [mu] only;
    an attribute that was not created is [None] here and reading it raises. *)
Record t : Type := mk {
  conv : ARInvertedResidual.t F;
  use_mix_log_cdf : bool;
  param : option (MixLogCDFParam.t F);
  mu : option (ELUConv.t F)
}.

Definition zip_exact {A B C : Type} (f : A -> B -> result C) (xs : list A) (ys : list B)
  : result (list C) :=
  if Nat.eqb (length xs) (length ys) then mapM2 f xs ys else Raise RuntimeError.

(** [mix_log_cdf_flow] at every position of [z]. *)
Definition mix_log_cdf_flow_all (z : tensor3 F)
    (ps : list (list (list (MixLogCDFParam.params F))))
  : result (tensor3 F * tensor3 F) :=
  r <- zip_exact (zip_exact (zip_exact (fun z1 p =>
         mix_log_cdf_flow z1 (MixLogCDFParam.logit_pi p) (MixLogCDFParam.mu p)
           (MixLogCDFParam.log_s p) (MixLogCDFParam.log_a p) (MixLogCDFParam.b p))))
       z ps ;;
  Ok (map (map (map fst)) r, map (map (map snd)) r).

Definition forward (self : t) (z ftr : tensor3 F) : result (tensor3 F * tensor3 F) :=
  '(s, z) <- ARInvertedResidual.forward (conv self) z ftr ;;
  if use_mix_log_cdf self then
    param <- Py.call_method "param" (param self) ;;
    ps <- MixLogCDFParam.forward param s ;;
    mix_log_cdf_flow_all z ps
  else
    mu <- Py.call_method "mu" (mu self) ;;
    mu <- ELUConv.forward mu s ;;
    new_z <- tsub z mu ;;
    let log_det := zeros_like new_z in
    Ok (new_z, log_det).

Variable rand_weight : nat -> nat -> nat -> tensor3 F.
Variable rand_bias : nat -> tensor1 F.

Definition init_params : list (string * bool) :=
  [ ("num_z", false); ("num_ftr", false); ("num_c", false); ("arch", false);
    ("checkpoint_res", true) ].

(** [int(round(inz * ex))] is the product for the integer [ex = 6].  The
    branch under [use_mix_log_cdf] calls [MixLogCDFParam] without its
    [mirror]; the value written for it here is never used, the call does
    not bind. *)
Definition init (num_z num_ftr num_c : Z) (checkpoint_res : Z) : result t :=
  r <- pymod num_c num_z ;;
  _ <- py_assert (r =? 0)%Z ;;
  let ex := 6%Z in
  _ <- Py.bind_call ARInvertedResidual.init_params 2 ["ex"; "checkpoint_res"] ;;
  conv <- ARInvertedResidual.init rand_weight rand_bias num_z num_ftr ex 1 5 "SAME"
            checkpoint_res ;;
  let use_mix_log_cdf := false in
  if use_mix_log_cdf then
    _ <- Py.bind_call MixLogCDFParam.init_params 1 ["num_mix"; "num_ftr"] ;;
    param <- MixLogCDFParam.init rand_weight rand_bias num_z 3
               (ARInvertedResidual.hidden_dim conv) false ;;
    Ok (mk conv use_mix_log_cdf (Some param) None)
  else
    _ <- Py.bind_call ELUConv.init_params 2
           ["kernel_size"; "padding"; "causal"; "weight_init_coeff"; "checkpoint_res"] ;;
    mu <- ELUConv.init rand_weight rand_bias (ARInvertedResidual.hidden_dim conv) num_z
            1 0 1 true "SAME" (flit 1 (-1)) checkpoint_res ;;
    Ok (mk conv use_mix_log_cdf None (Some mu)).

End Class.
Arguments t : clear implicits.
End CellAR.

(** ** class PairedCellAR *)

Module PairedCellAR.
Section Class.
Context {F : Type} `{Scalar F}.

Record t : Type := mk {
  cell1 : CellAR.t F;
  cell2 : CellAR.t F
}.

Definition forward (self : t) (z ftr : tensor3 F) : result (tensor3 F * tensor3 F) :=
  '(new_z, log_det1) <- CellAR.forward (cell1 self) z ftr ;;
  '(new_z, log_det2) <- CellAR.forward (cell2 self) new_z ftr ;;
  (* log_det1 += log_det2 *)
  log_det1 <- tadd_inplace log_det1 log_det2 ;;
  Ok (new_z, log_det1).

Variable rand_weight : nat -> nat -> nat -> tensor3 F.
Variable rand_bias : nat -> tensor1 F.

Definition init (num_z num_ftr num_c : Z) (checkpoint_res : Z) : result t :=
  _ <- Py.bind_call CellAR.init_params 5 [] ;;
  cell1 <- CellAR.init rand_weight rand_bias num_z num_ftr num_c checkpoint_res ;;
  _ <- Py.bind_call CellAR.init_params 5 [] ;;
  cell2 <- CellAR.init rand_weight rand_bias num_z num_ftr num_c checkpoint_res ;;
  Ok (mk cell1 cell2).

End Class.
Arguments t : clear implicits.
End PairedCellAR.

(** ** class AutoEncoder

    The towers hold cells of [neural_operations] and the samplers are
    convolutions of that module, which is not among the sources; so are
    [distributions.Normal] and [utils].  A cell is represented by its
    [cell_type] and what calling it computes; the tensor type [T] of this
    part is abstract, with the operations [forward] applies to it. *)

Module AutoEncoder.

(** What [forward] uses of [distributions.Normal] and of torch on the
    tensors of this part. *)
Class Env (T : Type) : Type := {
  Normal : Type;
  mk_Normal : T -> T -> Normal;             (* Normal(mu, log_sigma) *)
  Normal_sample : Normal -> T -> T;         (* sample(), given the noise drawn *)
  Normal_log_p : Normal -> T -> T;
  Normal_kl : Normal -> Normal -> T;
  t_sub : T -> T -> T;
  t_add : T -> T -> T;
  t_zeros_like : T -> T;
  chunk2 : T -> T * T;                      (* torch.chunk(t, 2, dim=1) *)
  expand_batch : T -> T -> T;  (* prior_ftr0.unsqueeze(0).expand(z.size(0), -1, -1) *)
  sum_dim2_mean_dim0 : T -> T; (* torch.mean(torch.sum(t, dim=2), dim=0) *)
  sum_dims12 : T -> T          (* torch.sum(t, dim=[1, 2]) *)
}.

Section Class.
Context {F : Type} `{Scalar F} {T : Type} `{Env T}.

(** A module of a tower, called with one tensor ([Cell]) or with two
    (the combiner cells). *)
Record cell : Type := mk_cell {
  cell_type : string;
  call1 : T -> result T;
  call2 : T -> T -> result T
}.

Record t : Type := mk {
  enc_tower : list cell;
  dec_tower : list cell;
  enc0 : T -> result T;
  enc_sampler : list (T -> result T);
  dec_sampler : list (T -> result T);
  nf_cells : list (T -> T -> result (T * T));      (* PairedCellAR.forward *)
  with_nf : bool;
  num_flows : Z;
  res_dist : bool;
  prior_ftr0 : T
}.


(** Lines 370-381: the main encoder tower and the reversal of the caches. *)
Definition run_enc_tower (self : t) (s : T) : result (T * list cell * list T) :=
  '(s, combiner_cells_enc, combiner_cells_s) <-
    for_each (enc_tower self)
      (fun '(s, combiner_cells_enc, combiner_cells_s) cell =>
         if (cell_type cell =? "combiner_enc")%string
         then Ok (s, combiner_cells_enc ++ [cell], combiner_cells_s ++ [s])
         else s' <- call1 cell s ;; Ok (s', combiner_cells_enc, combiner_cells_s))
      (s, [], []) ;;
  Ok (s, rev combiner_cells_enc, rev combiner_cells_s).

(** Lines 393-395 and 428-430: the flows of one group. *)
Definition apply_flows (self : t) (nf_offset : Z) (ftr z log_q_conv : T)
  : result (T * T) :=
  for_each (Py.range (num_flows self))
    (fun '(z, log_q_conv) n =>
       nf <- Py.index (nf_cells self) (nf_offset + n) ;;
       '(z, log_det) <- nf z ftr ;;
       Ok (z, t_sub log_q_conv log_det))
    (z, log_q_conv).

(** The variables of [forward] that the decoder loop reads and writes. *)
Record dec_state : Type := mk_dec {
  s : T;
  z : T;
  idx_dec : Z;
  nf_offset : Z;
  all_q : list Normal;
  all_log_q : list T;
  all_p : list Normal;
  all_log_p : list T
}.

(** Lines 384-412: the first group. [eps k] is the noise of the k-th draw. *)
Definition first_group (self : t) (eps : Z -> T) (s : T) : result dec_state :=
  let idx_dec := 0%Z in
  ftr <- enc0 self s ;;
  sampler <- Py.index (enc_sampler self) idx_dec ;;
  param0 <- sampler ftr ;;
  let '(mu_q, log_sig_q) := chunk2 param0 in
  let dist := mk_Normal mu_q log_sig_q in
  let z := Normal_sample dist (eps idx_dec) in
  let log_q_conv := Normal_log_p dist z in
  let nf_offset := 0%Z in
  '(z, log_q_conv) <- apply_flows self nf_offset ftr z log_q_conv ;;
  let nf_offset := (nf_offset + num_flows self)%Z in
  let all_q := [dist] in
  let all_log_q := [log_q_conv] in
  let dist := mk_Normal (t_zeros_like z) (t_zeros_like z) in
  let log_p_conv := Normal_log_p dist z in
  let all_p := [dist] in
  let all_log_p := [log_p_conv] in
  let idx_dec := 0%Z in
  let s := expand_batch (prior_ftr0 self) z in
  Ok (mk_dec s z idx_dec nf_offset all_q all_log_q all_p all_log_p).

(** Lines 422-439: the approximate posterior of a group after the first,
    its sample, its flows and the two log-densities, from the combined
    features [ftr] and the parameters of the prior. *)
Definition latent_group (self : t) (eps : Z -> T) (st : dec_state)
    (mu_p log_sig_p ftr : T) : result dec_state :=
  sampler <- Py.index (enc_sampler self) (idx_dec st) ;;
  param <- sampler ftr ;;
  let '(mu_q, log_sig_q) := chunk2 param in
  let dist := if res_dist self
              then mk_Normal (t_add mu_p mu_q) (t_add log_sig_p log_sig_q)
              else mk_Normal mu_q log_sig_q in
  let z := Normal_sample dist (eps (idx_dec st)) in
  let log_q_conv := Normal_log_p dist z in
  (* apply NF *)
  '(z, log_q_conv) <- apply_flows self (nf_offset st) ftr z log_q_conv ;;
  let nf_offset := (nf_offset st + num_flows self)%Z in
  let all_log_q := all_log_q st ++ [log_q_conv] in
  let all_q := all_q st ++ [dist] in
  (* evaluate log_p(z) *)
  let dist := mk_Normal mu_p log_sig_p in
  let log_p_conv := Normal_log_p dist z in
  Ok (mk_dec (s st) z (idx_dec st) nf_offset all_q all_log_q
             (all_p st ++ [dist]) (all_log_p st ++ [log_p_conv])).

(** Lines 413-445: one iteration of the loop over [self.dec_tower]. *)
Definition dec_step (self : t) (eps : Z -> T)
    (combiner_cells_enc : list cell) (combiner_cells_s : list T)
    (st : dec_state) (c : cell) : result dec_state :=
  if (cell_type c =? "combiner_dec")%string then
    st <- (if (idx_dec st >? 0)%Z then
             (* form prior *)
             sampler <- Py.index (dec_sampler self) (idx_dec st - 1) ;;
             param <- sampler (s st) ;;
             let '(mu_p, log_sig_p) := chunk2 param in
             (* form encoder *)
             comb <- Py.index combiner_cells_enc (idx_dec st - 1) ;;
             cached <- Py.index combiner_cells_s (idx_dec st - 1) ;;
             ftr <- call2 comb cached (s st) ;;
             latent_group self eps st mu_p log_sig_p ftr
           else Ok st) ;;
    (* 'combiner_dec' *)
    s' <- call2 c (s st) (z st) ;;
    Ok (mk_dec s' (z st) (idx_dec st + 1) (nf_offset st) (all_q st) (all_log_q st)
               (all_p st) (all_log_p st))
  else
    s' <- call1 c (s st) ;;
    Ok (mk_dec s' (z st) (idx_dec st) (nf_offset st) (all_q st) (all_log_q st)
               (all_p st) (all_log_p st)).

Definition run_dec_tower (self : t) (eps : Z -> T)
    (combiner_cells_enc : list cell) (combiner_cells_s : list T)
    (cells : list cell) (st : dec_state) : result dec_state :=
  for_each cells (dec_step self eps combiner_cells_enc combiner_cells_s) st.

(** Lines 463-466. *)
Definition kl_per_var (self : t) (q p : Normal) (log_q_conv log_p_conv : T) : T :=
  if with_nf self then t_sub log_q_conv log_p_conv else Normal_kl q p.

Fixpoint zip4 {A B C D : Type} (la : list A) (lb : list B) (lc : list C) (ld : list D)
  : list (A * B * C * D) :=
  match la, lb, lc, ld with
  | a :: la', b :: lb', c :: lc', d :: ld' => (a, b, c, d) :: zip4 la' lb' lc' ld'
  | _, _, _, _ => []
  end.

(** Lines 459-471: [kl_diag] and [kl_all]. *)
Definition compute_kl (self : t) (st : dec_state) : list T * list T :=
  let terms := map (fun '(q, p, log_q_conv, log_p_conv) =>
                      kl_per_var self q p log_q_conv log_p_conv)
                   (zip4 (all_q st) (all_p st) (all_log_q st) (all_log_p st)) in
  (map sum_dim2_mean_dim0 terms, map sum_dims12 terms).

(** Lines 370-471 of [forward], from the stream [s] that leaves the
    pre-processing cells to the KL terms. *)
Definition forward_latents (self : t) (eps : Z -> T) (s : T)
  : result (dec_state * list T * list T) :=
  '(s, combiner_cells_enc, combiner_cells_s) <- run_enc_tower self s ;;
  st <- first_group self eps s ;;
  st <- run_dec_tower self eps combiner_cells_enc combiner_cells_s (dec_tower self) st ;;
  let '(kl_diag, kl_all) := compute_kl self st in
  Ok (st, kl_diag, kl_all).

(** Lines 508-513: the weight-decay-norm coefficient. *)
Definition wdn_coeff (weight_decay_norm_anneal : bool)
    (weight_decay_norm_init weight_decay_norm kl_coeff : F) : result F :=
  if weight_decay_norm_anneal then
    _ <- py_assert (fltb fzero weight_decay_norm_init && fltb fzero weight_decay_norm) ;;
    let wdn_coeff :=
      fadd (fmul (fsub fone kl_coeff) (flog weight_decay_norm_init))
           (fmul kl_coeff (flog weight_decay_norm)) in
    Ok (fexp wdn_coeff)
  else Ok weight_decay_norm.

End Class.
Arguments t : clear implicits.
Arguments cell : clear implicits.
Arguments dec_state T {_}.

Section Processing.
Context {F : Type} `{Scalar F}.

(** [preprocess]: NTC -> NCT, converted to single precision.  The input
    is a tensor of three axes here, so the assertion [len(x.shape) == 3]
    holds. *)
Definition preprocess (float32 : F -> F) (x : tensor3 F) : result (tensor3 F) :=
  _ <- py_assert (Nat.eqb (length (size x)) 3) ;;
  Ok (float float32 (permute_0_2_1 x)).

(** [postprocess]: NCT -> NTC. *)
Definition postprocess (x : tensor3 F) : tensor3 F := permute_0_2_1 x.

End Processing.

(** The towers [__init__] builds:

    [init_encoder_tower] and [init_decoder_tower] (lines 229-255 and
    291-315), with every cell represented by its [cell_type]: the cells are
    classes of [neural_operations], and the channel multiplier [mult]
    only feeds their constructors. *)

Definition encoder_scale_cells (num_latent_scales num_cell_per_cond_enc s n : Z)
    (enc_tower : list string) : result (list string) :=
  for_each (Py.range n)
    (fun enc_tower g =>
       let enc_tower :=
         enc_tower ++ repeat "normal_enc" (Z.to_nat num_cell_per_cond_enc) in
       (* add encoder combiner *)
       if negb ((s =? num_latent_scales - 1) && (g =? n - 1))%Z
       then Ok (enc_tower ++ ["combiner_enc"])
       else Ok enc_tower)
    enc_tower.

Definition init_encoder_tower (num_latent_scales : Z) (groups_per_scale : list Z)
    (num_cell_per_cond_enc : Z) : result (list string) :=
  for_each (Py.range num_latent_scales)
    (fun enc_tower s =>
       n <- Py.index groups_per_scale s ;;
       enc_tower <- encoder_scale_cells num_latent_scales num_cell_per_cond_enc s n
                      enc_tower ;;
       (* down cells after finishing a scale *)
       if (s <? num_latent_scales - 1)%Z
       then Ok (enc_tower ++ ["down_enc"])
       else Ok enc_tower)
    [].

Definition decoder_scale_cells (num_cell_per_cond_dec s n : Z)
    (dec_tower : list string) : result (list string) :=
  for_each (Py.range n)
    (fun dec_tower g =>
       let dec_tower :=
         if negb ((s =? 0) && (g =? 0))%Z
         then dec_tower ++ repeat "normal_dec" (Z.to_nat num_cell_per_cond_dec)
         else dec_tower in
       Ok (dec_tower ++ ["combiner_dec"]))
    dec_tower.

Definition init_decoder_tower (num_latent_scales : Z) (groups_per_scale : list Z)
    (num_cell_per_cond_dec : Z) : result (list string) :=
  for_each (Py.range num_latent_scales)
    (fun dec_tower s =>
       n <- Py.index groups_per_scale (num_latent_scales - s - 1) ;;
       dec_tower <- decoder_scale_cells num_cell_per_cond_dec s n dec_tower ;;
       (* down cells after finishing a scale *)
       if (s <? num_latent_scales - 1)%Z
       then Ok (dec_tower ++ ["up_dec"])
       else Ok dec_tower)
    [].

End AutoEncoder.

End model.

(** * Properties *)

Import Torch Numpy neural_ar_operations model.

Lemma bind_Ok {A B : Type} (c : result A) (k : A -> result B) (b : B) :
  bind c k = Ok b -> exists a, c = Ok a /\ k a = Ok b.
Proof. destruct c as [a|e]; simpl; intros E; [eauto | discriminate]. Qed.

Lemma bind_raises {A B : Type} (c : result A) (k : A -> result B) :
  raises c -> raises (bind c k).
Proof. intros [e ->]. exists e. reflexivity. Qed.

(** ** Constructors *)

Section Constructors.
Context {F : Type} `{Scalar F}.
Variable rand_weight : nat -> nat -> nat -> tensor3 F.
Variable rand_bias : nat -> tensor1 F.

Lemma load_Cin : ARConv1d.load "Cin" = Raise (NameError "Cin").
Proof. reflexivity. Qed.

Lemma ARConv1d_init_raises C_in C_out kernel_size stride padding dilation groups
    bias causal mode :
  raises (ARConv1d.init rand_weight rand_bias C_in C_out kernel_size stride padding
            dilation groups bias causal mode).
Proof.
  unfold ARConv1d.init.
  destruct (ARConv1d.nn_Conv1d_init rand_weight rand_bias C_in C_out kernel_size
              groups bias) as [[w b]|e]; simpl.
  - exists (NameError "Cin"). reflexivity.
  - exists e. reflexivity.
Qed.

(** C3: [ARConv1d.__init__] raises for every argument list: once the base
    class constructor has returned, [print(Cin, Cout)] raises [NameError];
    with [bias=False] the base class registers [None] and the next
    statement, [self.bias.type()], raises [AttributeError] on it; hence the
    constructors of [ELUConv] and [ARInvertedResidual], which build an
    [ARConv1d] first, raise as well. *)
Theorem ARConv1d_cannot_be_constructed :
  (forall C_in C_out kernel_size stride padding dilation groups bias causal mode,
      raises (ARConv1d.init rand_weight rand_bias C_in C_out kernel_size stride
                padding dilation groups bias causal mode))
  /\ (forall C_in C_out kernel_size stride padding dilation groups bias causal mode wb,
         ARConv1d.nn_Conv1d_init rand_weight rand_bias C_in C_out kernel_size groups bias
         = Ok wb ->
         ARConv1d.init rand_weight rand_bias C_in C_out kernel_size stride padding
           dilation groups bias causal mode = Raise (NameError "Cin"))
  /\ (forall C_in C_out kernel_size groups w b,
         ARConv1d.nn_Conv1d_init rand_weight rand_bias C_in C_out kernel_size groups false
         = Ok (w, b) ->
         b = None /\ ARConv1d.print_types w b = Raise (AttributeError "type"))
  /\ (forall C_in C_out kernel_size padding dilation causal mode weight_init_coeff
             checkpoint_res,
         raises (ELUConv.init rand_weight rand_bias C_in C_out kernel_size padding
                   dilation causal mode weight_init_coeff checkpoint_res))
  /\ (forall inz inf ex dil k mode checkpoint_res,
         raises (ARInvertedResidual.init rand_weight rand_bias inz inf ex dil k mode
                   checkpoint_res)).
Proof.
  repeat split.
  - intros. apply ARConv1d_init_raises.
  - intros until wb. intros E. unfold ARConv1d.init. rewrite E.
    destruct wb as [w b]. reflexivity.
  - revert H0. unfold ARConv1d.nn_Conv1d_init.
    repeat match goal with |- context [if ?c then _ else _] => destruct c end;
      intros E; try discriminate; now inversion E.
  - assert (b = None) as ->; [|reflexivity].
    revert H0. unfold ARConv1d.nn_Conv1d_init.
    repeat match goal with |- context [if ?c then _ else _] => destruct c end;
      intros E; try discriminate; now inversion E.
  - intros. unfold ELUConv.init. apply bind_raises, ARConv1d_init_raises.
  - intros. unfold ARInvertedResidual.init. apply bind_raises, ARConv1d_init_raises.
Qed.

End Constructors.

(** ** Convolution masks *)

Section MaskProperties.
Context {F : Type} `{Scalar F}.

Lemma ones_Ok (sh : list Z) (a : ndarray F) :
  ones sh = Ok a -> shape a = map Z.to_nat sh.
Proof.
  unfold ones. destruct (existsb _ sh); [discriminate|].
  intros E. inversion E. reflexivity.
Qed.

Lemma selection_too_many (a : ndarray F) (idx : list index) :
  (ndim a < length idx)%nat -> selection a idx = Raise IndexError.
Proof.
  intros Hlt. unfold selection.
  destruct (Nat.ltb_spec (ndim a) (length idx)); [reflexivity | lia].
Qed.

(** C5, the code at every input: [create_conv_mask] never returns a mask.
    The mask is created with three axes and the first assignment,
    [mask[:, :, m:, :] = 0], subscripts four; whenever the array could be
    created the call raises [IndexError]. *)
Theorem create_conv_mask_raises (kernel_size c_in g_in c_out : Z)
    (zero_diag mirror : bool) :
  raises (create_conv_mask (F:=F) kernel_size c_in g_in c_out zero_diag mirror)
  /\ (forall mask : ndarray F,
         ones [c_out; (c_in / g_in)%Z; kernel_size] = Ok mask ->
         g_in <> 0%Z ->
         create_conv_mask (F:=F) kernel_size c_in g_in c_out zero_diag mirror
         = Raise IndexError).
Proof.
  assert (Hgen : forall mask : ndarray F,
             ones [c_out; (c_in / g_in)%Z; kernel_size] = Ok mask ->
             g_in <> 0%Z ->
             create_conv_mask (F:=F) kernel_size c_in g_in c_out zero_diag mirror
             = Raise IndexError).
  { intros mask Hones Hg. unfold create_conv_mask, floordiv.
    destruct (Z.eqb_spec g_in 0); [contradiction|].
    cbn [bind]. rewrite Hones. cbn [bind].
    unfold setitem_scalar at 1. rewrite selection_too_many; [reflexivity|].
    unfold ndim. rewrite (ones_Ok _ _ Hones). simpl. lia. }
  split; [|exact Hgen].
  destruct (Z.eqb_spec g_in 0) as [->|Hg].
  - exists ZeroDivisionError. reflexivity.
  - destruct (ones (F:=F) [c_out; (c_in / g_in)%Z; kernel_size]) as [mask|e] eqn:Hones.
    + exists IndexError. now apply (Hgen mask).
    + exists e. unfold create_conv_mask, floordiv.
      destruct (Z.eqb_spec g_in 0); [contradiction|].
      cbn [bind]. rewrite Hones. reflexivity.
Qed.

Example create_conv_mask_3x1 :
  create_conv_mask (F:=F) 3 1 1 1 false false = Raise IndexError.
Proof. reflexivity. Qed.

End MaskProperties.

(** ** The affine flow cell *)

Section CellProperties.
Context {F : Type} `{Scalar F}.

(** C2: the pair [CellAR.forward] returns does not depend on the
    conditioning tensor [ftr]: for the same cell and the same [z], any two
    [ftr] give the same result (the same pair, or the same exception),
    with either value of [use_mix_log_cdf]; and this is so because
    [ARInvertedResidual.forward], the only callee that is handed [ftr],
    gives the same result for any two [ftr]. *)
Theorem CellAR_forward_ignores_ftr (self : CellAR.t F) (z ftr1 ftr2 : tensor3 F) :
  CellAR.forward self z ftr1 = CellAR.forward self z ftr2
  /\ ARInvertedResidual.forward (CellAR.conv self) z ftr1
     = ARInvertedResidual.forward (CellAR.conv self) z ftr2.
Proof.
  split.
  - unfold CellAR.forward.
    change (ARInvertedResidual.forward (CellAR.conv self) z ftr1)
      with (ARInvertedResidual.forward (CellAR.conv self) z ftr2).
    reflexivity.
  - unfold ARInvertedResidual.forward.
    destruct (ARInvertedResidual.checkpoint_res (CellAR.conv self) =? 1)%Z; reflexivity.
Qed.

End CellProperties.

(** ** The causal convolution *)

Section ListFacts.

Lemma mapM_map {A B : Type} (f : A -> result B) (g : A -> B) (l : list A) :
  (forall a, In a l -> f a = Ok (g a)) -> mapM f l = Ok (map g l).
Proof.
  induction l as [|a l IH]; intros Hf; simpl; [reflexivity|].
  rewrite (Hf a) by (left; reflexivity). simpl.
  rewrite IH by (intros; apply Hf; right; assumption). reflexivity.
Qed.

Lemma mapi_length {A B : Type} (f : nat -> A -> B) (l : list A) :
  length (mapi f l) = length l.
Proof.
  unfold mapi. rewrite length_map, length_combine, length_seq. apply Nat.min_id.
Qed.

Lemma in_mapi {A B : Type} (f : nat -> A -> B) (l : list A) (y : B) :
  In y (mapi f l) -> exists i a, In a l /\ y = f i a.
Proof.
  unfold mapi. intros Hin. apply in_map_iff in Hin as [[i a] [<- Hin]].
  exists i, a. split; [|reflexivity]. eapply in_combine_r; eassumption.
Qed.

Lemma Forall2_of_nth {A : Type} (R : A -> A -> Prop) (d : A) (l l' : list A) :
  length l = length l' ->
  (forall c, (c < length l)%nat -> R (nth c l d) (nth c l' d)) ->
  Forall2 R l l'.
Proof.
  revert l'. induction l as [|a l IH]; intros [|a' l'] Hlen Hnth;
    try discriminate; constructor.
  - apply (Hnth 0%nat). simpl. lia.
  - apply IH; [simpl in Hlen; lia|].
    intros c Hc. apply (Hnth (S c)). simpl. lia.
Qed.

Lemma Forall2_skipn {A : Type} (R : A -> A -> Prop) (n : nat) (l l' : list A) :
  Forall2 R l l' -> Forall2 R (skipn n l) (skipn n l').
Proof.
  intros HF. revert n. induction HF; intros [|n]; simpl; auto.
Qed.

Lemma Forall2_firstn {A : Type} (R : A -> A -> Prop) (n : nat) (l l' : list A) :
  Forall2 R l l' -> Forall2 R (firstn n l) (firstn n l').
Proof.
  intros HF. revert n. induction HF; intros [|n]; simpl; auto.
Qed.


Lemma Forall2_map2 {A B : Type} (R : B -> B -> Prop) (f : A -> B) (l l' : list A) :
  Forall2 (fun a a' => R (f a) (f a')) l l' -> Forall2 R (map f l) (map f l').
Proof. induction 1; simpl; constructor; assumption. Qed.

Lemma firstn_map_seq {B : Type} (f : nat -> B) (n m : nat) :
  firstn n (map f (seq 0 (n + m))) = map f (seq 0 n).
Proof.
  rewrite firstn_map, seq_app, firstn_app, length_seq, Nat.sub_diag.
  rewrite firstn_all2 by (rewrite length_seq; lia).
  simpl. rewrite app_nil_r. reflexivity.
Qed.

Lemma nth_map_seq {B : Type} (f : nat -> B) (d : B) (n i : nat) :
  (i < n)%nat -> nth i (map f (seq 0 n)) d = f i.
Proof.
  intros Hi. rewrite (nth_indep _ d (f 0%nat)) by (rewrite length_map, length_seq; lia).
  rewrite map_nth, seq_nth by lia. reflexivity.
Qed.

End ListFacts.

Section ConvProperties.
Context {F : Type} `{Scalar F}.

Lemma rect3_dims (n C K : nat) (w : tensor3 F) :
  rect3 n C K w -> (0 < n)%nat -> (0 < C)%nat ->
  length w = n /\ length (hd [] w) = C /\ length (hd [] (hd [] w)) = K.
Proof.
  intros [Hn Hall] Hpos HC. destruct w as [|f w]; simpl in *; [lia|].
  inversion Hall as [|? ? [Hc Hrows] _]; subst.
  repeat split. destruct f as [|r f]; simpl in *; [lia|]. now inversion Hrows.
Qed.

Lemma rect2_hd (C L : nat) (xb : tensor2 F) :
  rect2 C L xb -> (0 < C)%nat -> length (hd [] xb) = L.
Proof.
  intros [Hc Hrows] HC. destruct xb as [|r xb]; simpl in *; [lia|]. now inversion Hrows.
Qed.

Lemma rect3_nth_rows (n C K : nat) (w : tensor3 F) (co : nat) :
  rect3 n C K w -> Forall (fun r => length r = K) (nth co w []).
Proof.
  intros [_ Hall]. destruct (nth_in_or_default co w []) as [Hin | ->]; [|constructor].
  rewrite Forall_forall in Hall. apply (Hall _ Hin).
Qed.

Lemma normalize_weight_jit_rect (lwn w : tensor3 F) (n C K : nat) :
  rect3 n C K w -> rect3 n C K (normalize_weight_jit lwn w).
Proof.
  intros [Hn Hall]. split.
  - unfold normalize_weight_jit. now rewrite mapi_length.
  - rewrite Forall_forall in *. intros y Hy.
    apply in_mapi in Hy as (i & filt & Hin & ->).
    destruct (Hall _ Hin) as [Hc Hrows]. split.
    + now rewrite length_map.
    + rewrite Forall_forall in *. intros r Hr.
      apply in_map_iff in Hr as (r0 & <- & Hr0).
      rewrite length_map. now apply Hrows.
Qed.

(** Two channels that agree below position [N]. *)
Definition prefix_eq (N : nat) (ch ch' : tensor1 F) : Prop :=
  forall j, (j < N)%nat -> nth j ch fzero = nth j ch' fzero.

Lemma taps_ext (wr ch ch' : tensor1 F) (pos d N : nat) :
  prefix_eq N ch ch' -> (pos + (length wr - 1) * d < N)%nat ->
  taps wr ch pos d = taps wr ch' pos d.
Proof.
  intros Heq. revert pos. induction wr as [|wk wr IH]; intros pos Hpos; simpl;
    [reflexivity|].
  rewrite (Heq pos) by (simpl in Hpos; lia). f_equal.
  destruct wr as [|wk' wr]; [reflexivity|].
  apply IH. simpl in *. lia.
Qed.

Lemma chans_sum_ext (filt chs chs' : tensor2 F) (pos d N K : nat) :
  Forall2 (prefix_eq N) chs chs' ->
  Forall (fun r => length r = K) filt ->
  (pos + (K - 1) * d < N)%nat ->
  chans_sum filt chs pos d = chans_sum filt chs' pos d.
Proof.
  intros Hchs. revert filt. induction Hchs as [|ch ch' chs chs' Hc Hcs IH];
    intros [|wr filt] Hrows Hpos; simpl; try reflexivity.
  inversion Hrows as [|? ? Hlen Hrows']; subst.
  f_equal; [apply (taps_ext _ _ _ _ _ N); assumption | now apply IH].
Qed.

Lemma out_value_ext (w : tensor3 F) (b : tensor1 F) (xp xp' : tensor2 F)
    (opg cpg d s co i n C K N : nat) :
  rect3 n C K w -> Forall2 (prefix_eq N) xp xp' ->
  (i * s + (K - 1) * d < N)%nat ->
  out_value w b xp opg cpg d s co i = out_value w b xp' opg cpg d s co i.
Proof.
  intros Hw Hx Hpos. unfold out_value. f_equal.
  apply (chans_sum_ext _ _ _ _ _ N K); [|now apply (rect3_nth_rows n C)|assumption].
  now apply Forall2_firstn, Forall2_skipn.
Qed.

Lemma nth_pad_both (p : nat) (ch : tensor1 F) (j : nat) :
  nth j (pad_both p ch) fzero = if Nat.ltb j p then fzero else nth (j - p) ch fzero.
Proof.
  unfold pad_both. destruct (Nat.ltb_spec j p) as [Hlt|Hge].
  - rewrite app_nth1 by (rewrite repeat_length; lia). now apply nth_repeat_lt.
  - rewrite app_nth2 by (rewrite repeat_length; lia). rewrite repeat_length.
    destruct (Nat.lt_ge_cases (j - p) (length ch)) as [Hin|Hout].
    + now rewrite app_nth1.
    + rewrite app_nth2 by lia. rewrite (nth_overflow ch) by lia. apply nth_repeat.
Qed.


Lemma pad_both_prefix_eq (p N : nat) (ch ch' : tensor1 F) :
  prefix_eq N ch ch' -> prefix_eq (N + p) (pad_both p ch) (pad_both p ch').
Proof.
  intros Heq j Hj. rewrite !nth_pad_both.
  destruct (Nat.ltb_spec j p); [reflexivity|]. apply Heq. lia.
Qed.



(** The rows [F.conv1d] computes for one sample, [L_out] values per channel. *)
Definition conv_rows (w : tensor3 F) (b : tensor1 F) (s p d g C_out cpg L_out : nat)
    (xb : tensor2 F) : tensor2 F :=
  map (fun co => map (out_value w b (map (pad_both p) xb) (C_out / g) cpg d s co)
                     (seq 0 L_out))
      (seq 0 C_out).

Lemma conv_rows_rect (w : tensor3 F) (b : tensor1 F) (s p d g C_out cpg L_out : nat)
    (xb : tensor2 F) :
  rect2 C_out L_out (conv_rows w b s p d g C_out cpg L_out xb).
Proof.
  unfold conv_rows. split.
  - now rewrite length_map, length_seq.
  - rewrite Forall_forall. intros r Hr. apply in_map_iff in Hr as (co & <- & _).
    now rewrite length_map, length_seq.
Qed.

Lemma conv1d_sample_rect (w : tensor3 F) (b : tensor1 F) (s p d g C_out cpg K L : nat)
    (xb : tensor2 F) :
  rect3 C_out cpg K w -> (0 < C_out)%nat -> (0 < cpg)%nat -> (0 < g)%nat ->
  rect2 (cpg * g) L xb -> (0 < L)%nat -> (d * (K - 1) + 1 <= L + 2 * p)%nat ->
  conv1d_sample w b s p d g xb
  = Ok (conv_rows w b s p d g C_out cpg ((L + 2 * p - (d * (K - 1) + 1)) / s + 1) xb).
Proof.
  intros Hw HC Hcpg Hg Hx HL Hspan. unfold conv1d_sample.
  destruct (rect3_dims _ _ _ _ Hw HC Hcpg) as (-> & -> & ->).
  rewrite (rect2_hd _ _ _ Hx) by nia. destruct Hx as [-> _].
  rewrite Nat.eqb_refl. simpl negb. cbv iota.
  destruct (Nat.eqb_spec L 0) as [|_]; [lia|]. rewrite andb_false_r.
  destruct (Nat.ltb_spec (L + 2 * p) (d * (K - 1) + 1)); [lia|]. reflexivity.
Qed.

Lemma conv1d_rect (w : tensor3 F) (b : tensor1 F) (s p d g C_out cpg K B L : nat)
    (x : tensor3 F) :
  rect3 C_out cpg K w -> length b = C_out ->
  (0 < C_out)%nat -> (0 < cpg)%nat -> (0 < g)%nat -> (0 < s)%nat -> (0 < d)%nat ->
  (C_out mod g = 0)%nat ->
  rect3 B (cpg * g) L x -> (0 < L)%nat -> (d * (K - 1) + 1 <= L + 2 * p)%nat ->
  conv1d x w b (Z.of_nat s) (Z.of_nat p) (Z.of_nat d) (Z.of_nat g)
  = Ok (map (conv_rows w b s p d g C_out cpg ((L + 2 * p - (d * (K - 1) + 1)) / s + 1)) x).
Proof.
  intros Hw Hb HC Hcpg Hg Hs Hd Hmod [HB Hx] HL Hspan. unfold conv1d.
  destruct (Z.leb_spec (Z.of_nat s) 0); [lia|].
  destruct (Z.ltb_spec (Z.of_nat p) 0); [lia|].
  destruct (Z.leb_spec (Z.of_nat d) 0); [lia|].
  destruct (Z.leb_spec (Z.of_nat g) 0); [lia|].
  simpl orb. cbv iota. rewrite !Nat2Z.id.
  destruct Hw as [Hlen Hw]. rewrite Hlen, Hmod, Hb, !Nat.eqb_refl. simpl negb. cbv iota.
  apply mapM_map. intros xb Hin. rewrite Forall_forall in Hx.
  apply (conv1d_sample_rect _ _ _ _ _ _ C_out cpg K L); auto. now split.
Qed.

End ConvProperties.

Section CausalConv.
Context {F : Type} `{Scalar F}.


(** The same with a bias tensor [b] of length C_out, as [bias=True] gives
    it; the class default is [bias=False]. *)
Record causal_same (self : ARConv1d.t F) (C_out cpg K d g : nat) (b : tensor1 F)
  : Prop := {
  cs_causal : ARConv1d.causal self = true;
  cs_mode : ARConv1d.mode self = "SAME";
  cs_stride : ARConv1d.stride self = 1%Z;
  cs_padding : ARConv1d.padding self
               = ARConv1d.configured_padding (ARConv1d.causal self) (ARConv1d.mode self)
                   (ARConv1d.dilation self) (ARConv1d.kernel_size self);
  cs_kernel : ARConv1d.kernel_size self = Z.of_nat K;
  cs_dilation : ARConv1d.dilation self = Z.of_nat d;
  cs_groups : ARConv1d.groups self = Z.of_nat g;
  cs_weight : rect3 C_out cpg K (ARConv1d.weight self);
  cs_bias : ARConv1d.bias self = Some b;
  cs_bias_len : length b = C_out;
  cs_sizes : (0 < K /\ 0 < d /\ 0 < g /\ 0 < cpg /\ 0 < C_out)%nat;
  cs_div : (C_out mod g = 0)%nat
}.


(** Without a bias the forward pass stops at [bias.type_as(x)]. *)
Lemma forward_without_bias (self : ARConv1d.t F) (x : tensor3 F) :
  ARConv1d.bias self = None ->
  ARConv1d.forward self x = Raise (AttributeError "type_as").
Proof. intros Hb. unfold ARConv1d.forward. now rewrite Hb. Qed.

Lemma causal_same_padding self C_out cpg K d g b :
  causal_same self C_out cpg K d g b ->
  ARConv1d.padding self = Z.of_nat (d * (K - 1)).
Proof.
  intros Hcs. rewrite (cs_padding _ _ _ _ _ _ _ Hcs).
  rewrite (cs_causal _ _ _ _ _ _ _ Hcs), (cs_mode _ _ _ _ _ _ _ Hcs).
  rewrite (cs_dilation _ _ _ _ _ _ _ Hcs), (cs_kernel _ _ _ _ _ _ _ Hcs).
  destruct (cs_sizes _ _ _ _ _ _ _ Hcs) as (HK & _).
  unfold ARConv1d.configured_padding.
  change (true && ("SAME" =? "SAME")%string) with true. cbv iota.
  rewrite Nat2Z.inj_mul, Nat2Z.inj_sub by lia. reflexivity.
Qed.

Lemma slice_stop_crop {A : Type} (p L : nat) (row : list A) :
  length row = (L + p)%nat -> (0 < p)%nat ->
  Py.slice_stop (- Z.of_nat p) row = firstn L row.
Proof.
  intros Hlen Hp. unfold Py.slice_stop. rewrite Hlen.
  destruct (Z.ltb_spec (- Z.of_nat p) 0); [|lia]. f_equal. lia.
Qed.

Lemma crop_conv_rows (w : tensor3 F) (b : tensor1 F) (s p d g C_out cpg L q : nat)
    (xb : tensor2 F) :
  map (firstn L) (conv_rows w b s p d g C_out cpg (L + q) xb)
  = conv_rows w b s p d g C_out cpg L xb.
Proof.
  unfold conv_rows. rewrite map_map. apply map_ext. intros co.
  apply firstn_map_seq.
Qed.

(** What the forward pass of such a convolution returns. *)
Lemma forward_causal_rows self C_out cpg K d g b B L (x : tensor3 F) :
  causal_same self C_out cpg K d g b -> rect3 B (cpg * g) L x -> (0 < L)%nat ->
  conv1d x (ARConv1d.normalize_weight self) b (ARConv1d.stride self)
    (ARConv1d.padding self) (ARConv1d.dilation self) (ARConv1d.groups self)
  = Ok (map (conv_rows (ARConv1d.normalize_weight self) b 1 (d * (K - 1)) d g C_out cpg
               (L + d * (K - 1))) x)
  /\ ARConv1d.forward self x
     = Ok (map (conv_rows (ARConv1d.normalize_weight self) b 1 (d * (K - 1)) d g C_out
                  cpg L) x).
Proof.
  intros Hcs Hx HL.
  pose proof (causal_same_padding _ _ _ _ _ _ _ Hcs) as Hpad.
  destruct (cs_sizes _ _ _ _ _ _ _ Hcs) as (HK & Hd & Hg & Hcpg & HC).
  assert (Hw : rect3 C_out cpg K (ARConv1d.normalize_weight self))
    by (apply normalize_weight_jit_rect, (cs_weight _ _ _ _ _ _ _ Hcs)).
  assert (Hfull :
    conv1d x (ARConv1d.normalize_weight self) b (ARConv1d.stride self)
      (ARConv1d.padding self) (ARConv1d.dilation self) (ARConv1d.groups self)
    = Ok (map (conv_rows (ARConv1d.normalize_weight self) b 1 (d * (K - 1)) d g C_out
                 cpg (L + d * (K - 1))) x)).
  { pose proof (cs_bias_len _ _ _ _ _ _ _ Hcs) as Hblen.
    pose proof (cs_div _ _ _ _ _ _ _ Hcs) as Hdiv.
    rewrite Hpad, (cs_stride _ _ _ _ _ _ _ Hcs), (cs_dilation _ _ _ _ _ _ _ Hcs),
      (cs_groups _ _ _ _ _ _ _ Hcs).
    change 1%Z with (Z.of_nat 1).
    rewrite (conv1d_rect _ _ 1 (d * (K - 1)) d g C_out cpg K B L); auto; try lia;
      [|generalize (d * (K - 1))%nat; intros q; lia].
    replace ((L + 2 * (d * (K - 1)) - (d * (K - 1) + 1)) / 1 + 1)%nat
      with (L + d * (K - 1))%nat; [reflexivity|].
    rewrite Nat.div_1_r. generalize (d * (K - 1))%nat. intros q. lia. }
  split; [exact Hfull|].
  unfold ARConv1d.forward. rewrite (cs_bias _ _ _ _ _ _ _ Hcs).
  cbn [Py.call_method bind]. unfold type_as. rewrite Hfull. cbn [bind].
  rewrite (cs_causal _ _ _ _ _ _ _ Hcs). cbn [andb].
  remember (d * (K - 1))%nat as p eqn:Hp in *.
  destruct (Z.eqb_spec (ARConv1d.padding self) 0) as [Hz|Hnz]; cbn [negb]; f_equal.
  - assert (Hp0 : p = 0%nat) by lia. rewrite Hp0.
    now rewrite Nat.add_0_r.
  - rewrite map_map. apply map_ext. intros xb.
    rewrite <- (crop_conv_rows _ _ _ _ _ _ _ _ L p).
    apply map_ext_in. intros row Hrow. rewrite Hpad. apply slice_stop_crop; [|lia].
    destruct (conv_rows_rect (ARConv1d.normalize_weight self) b 1 p d g
                C_out cpg (L + p) xb) as [_ Hrows].
    rewrite Forall_forall in Hrows. now apply Hrows.
Qed.

End CausalConv.

Section CausalConvTheorem.
Context {F : Type} `{Scalar F}.


Lemma out_value_causal (w : tensor3 F) (b : tensor1 F) (d opg cpg K n C : nat)
    (xb xb' : tensor2 F) (co i : nat) :
  rect3 n C K w -> Forall2 (prefix_eq (i + 1)) xb' xb ->
  out_value w b (map (pad_both (d * (K - 1))) xb') opg cpg d 1 co i
  = out_value w b (map (pad_both (d * (K - 1))) xb) opg cpg d 1 co i.
Proof.
  intros Hw Hx.
  apply (out_value_ext _ _ _ _ _ _ _ _ _ _ n C K (i + 1 + d * (K - 1)));
    [assumption| |nia].
  apply Forall2_map2. eapply Forall2_impl; [|exact Hx].
  intros ch ch' Heq. now apply pad_both_prefix_eq.
Qed.

Lemma entry_conv_rows (w : tensor3 F) (b : tensor1 F) (s p d g C_out cpg L : nat)
    (x : tensor3 F) (bi co i : nat) :
  (bi < length x)%nat -> (co < C_out)%nat -> (i < L)%nat ->
  entry (map (conv_rows w b s p d g C_out cpg L) x) bi co i
  = out_value w b (map (pad_both p) (nth bi x [])) (C_out / g) cpg d s co i.
Proof.
  intros Hb Hco Hi. unfold entry.
  rewrite (nth_indep _ [] (conv_rows w b s p d g C_out cpg L []))
    by (now rewrite length_map).
  rewrite map_nth. unfold conv_rows.
  rewrite (nth_map_seq _ [] C_out co Hco). now apply nth_map_seq.
Qed.

Lemma entry_conv_rows_outside (w : tensor3 F) (b : tensor1 F)
    (s p d g C_out cpg L : nat) (x : tensor3 F) (bi co i : nat) :
  ~ ((bi < length x)%nat /\ (co < C_out)%nat /\ (i < L)%nat) ->
  entry (map (conv_rows w b s p d g C_out cpg L) x) bi co i = fzero.
Proof.
  intros Hout. unfold entry.
  destruct (Nat.lt_ge_cases bi (length x)) as [Hb|Hb].
  - rewrite (nth_indep _ [] (conv_rows w b s p d g C_out cpg L []))
      by (now rewrite length_map).
    rewrite map_nth. unfold conv_rows.
    destruct (Nat.lt_ge_cases co C_out) as [Hco|Hco].
    + rewrite (nth_map_seq _ [] C_out co Hco).
      apply nth_overflow. rewrite length_map, length_seq. lia.
    + rewrite (nth_overflow (map _ (seq 0 C_out)))
        by (rewrite length_map, length_seq; lia).
      now destruct i.
  - rewrite (nth_overflow (map _ x)) by (now rewrite length_map).
    now destruct co, i.
Qed.

Lemma rect3_nth (B C L : nat) (x : tensor3 F) (bi : nat) :
  rect3 B C L x -> (bi < B)%nat -> rect2 C L (nth bi x []).
Proof.
  intros [HB Hall] Hbi. rewrite Forall_forall in Hall. apply Hall, nth_In. lia.
Qed.


End CausalConvTheorem.

(** A causal convolution with one channel, three taps and dilation 1, as
    [ARConv1d(1, 1, kernel_size=3, causal=True)] configures it, with the
    bias [bias=True] would give it or with none (the default), and an input
    of length 3. *)
Definition conv_example_bias (bias : option (tensor1 R)) : ARConv1d.t R :=
  ARConv1d.mk 1 1 3 1 2 1 1 [[[1; 1; 1]]]%R bias true "SAME" [[[0%R]]].

Definition conv_example : ARConv1d.t R := conv_example_bias (Some [0%R]).



Lemma conv_example_causal_same : causal_same conv_example 1 1 3 1 1 [0%R].
Proof.
  constructor; try reflexivity.
  - split; [reflexivity|]. repeat constructor.
  - repeat split; lia.
Defined.


(** ** The checkpointed path of [ARInvertedResidual] *)

Section CheckpointPath.
Context {F : Type} `{Scalar F}.

(** The block [ARInvertedResidual(inz=1, inf, ex=6, dil=1, k=5)]:
    hidden_dim = 6, a 3-tap convolution from 1 to 6 channels (padding 2)
    and a 5-tap depthwise convolution on 6 channels (padding 4), all
    weights 1; the two convolutions carry a zero bias. *)
Definition block_example (checkpoint_res : Z) : ARInvertedResidual.t F :=
  let c1 := ARConv1d.mk 1 6 3 1 2 1 1
              (repeat [[fone; fone; fone]] 6) (Some (repeat fzero 6)) true "SAME"
              (repeat [[fzero]] 6) in
  let c2 := ARConv1d.mk 6 6 5 1 4 1 6
              (repeat [[fone; fone; fone; fone; fone]] 6) (Some (repeat fzero 6))
              true "SAME" (repeat [[fzero]] 6) in
  ARInvertedResidual.mk
    [ARInvertedResidual.Conv c1; ARInvertedResidual.ELU true;
     ARInvertedResidual.Conv c2; ARInvertedResidual.ELU true]
    checkpoint_res 6.

(** The same block as the constructor configures it (lines 160-175): it
    passes no [bias] to [ARConv1d], whose default is [bias=False], so both
    convolutions hold [None]. *)
Definition block_default (checkpoint_res : Z) : ARInvertedResidual.t F :=
  let c1 := ARConv1d.mk 1 6 3 1 2 1 1
              (repeat [[fone; fone; fone]] 6) None true "SAME" (repeat [[fzero]] 6) in
  let c2 := ARConv1d.mk 6 6 5 1 4 1 6
              (repeat [[fone; fone; fone; fone; fone]] 6) None true "SAME"
              (repeat [[fzero]] 6) in
  ARInvertedResidual.mk
    [ARInvertedResidual.Conv c1; ARInvertedResidual.ELU true;
     ARInvertedResidual.Conv c2; ARInvertedResidual.ELU true]
    checkpoint_res 6.


(** Were the convolutions given bias tensors, the two paths would part:
    for a latent [z] of shape (1, 1, 1) the block returns a tensor of shape
    (1, 6, 1) with the flag off, and raises with the flag on: the loop hands
    [z] itself to every layer, so the second convolution, which expects 6
    channels, is given the 1-channel [z] (after the in-place ELU has
    overwritten it). *)
Lemma ARInvertedResidual_checkpoint_differs (v : F) (ftr : tensor3 F) :
  ARInvertedResidual.forward (block_example 1) [[[v]]] ftr = Raise RuntimeError
  /\ exists out,
       ARInvertedResidual.forward (block_example 0) [[[v]]] ftr = Ok (out, [[[v]]])
       /\ rect3 1 6 1 out.
Proof.
  split; [reflexivity|].
  eexists. split; [reflexivity|].
  split; [reflexivity|]. repeat constructor.
Qed.

End CheckpointPath.

(** ** The paired affine flow cell *)

Section ErrorMonadFacts.

Lemma mapM_Ok_Forall {A B : Type} (f : A -> result B) (l : list A) (r : list B) :
  mapM f l = Ok r -> Forall (fun a => exists b, f a = Ok b) l.
Proof.
  revert r. induction l as [|a l IH]; intros r E; [constructor|].
  simpl in E. apply bind_Ok in E as (b & Hb & E).
  apply bind_Ok in E as (bs & Hbs & _). constructor; eauto.
Qed.

Lemma mapM_Forall {A B : Type} (f : A -> result B) (P : B -> Prop) (l : list A)
    (r : list B) :
  mapM f l = Ok r -> (forall a c, In a l -> f a = Ok c -> P c) -> Forall P r.
Proof.
  revert r. induction l as [|a l IH]; intros r E HP; simpl in E.
  - inversion E. constructor.
  - apply bind_Ok in E as (b & Hb & E). apply bind_Ok in E as (bs & Hbs & E).
    inversion E; subst. constructor.
    + apply (HP a); [now left | assumption].
    + apply IH; [assumption|]. intros a' c Hin. apply HP. now right.
Qed.

Lemma mapM2_Forall {A B C : Type} (f : A -> B -> result C) (P : C -> Prop)
    (l1 : list A) (l2 : list B) (r : list C) :
  mapM2 f l1 l2 = Ok r ->
  (forall a b c, In a l1 -> In b l2 -> f a b = Ok c -> P c) -> Forall P r.
Proof.
  revert l2 r. induction l1 as [|a l1 IH]; intros [|b l2] r E HP; simpl in E;
    try (inversion E; constructor).
  apply bind_Ok in E as (c & Hc & E). apply bind_Ok in E as (cs & Hcs & E).
  inversion E; subst. constructor.
  - apply (HP a b); [now left | now left | assumption].
  - apply (IH l2); [assumption|]. intros a' b' c' Ha Hb. apply HP; now right.
Qed.

Lemma bzip_Forall {A B C : Type} (f : A -> B -> result C) (P : C -> Prop)
    (l1 : list A) (l2 : list B) (r : list C) :
  bzip f l1 l2 = Ok r ->
  (forall a b c, In a l1 -> In b l2 -> f a b = Ok c -> P c) -> Forall P r.
Proof.
  unfold bzip. intros E HP.
  destruct (Nat.eqb (length l1) (length l2)).
  - eapply mapM2_Forall; eassumption.
  - destruct l1 as [|a [|a' l1]].
    + destruct l2 as [|b [|b' l2]]; try discriminate.
      eapply (mapM_Forall (fun x => f x b)); [eassumption|].
      intros a c Hin. destruct Hin.
    + eapply mapM_Forall; [eassumption|].
      intros b c Hin. apply HP; [now left | assumption].
    + destruct l2 as [|b [|b' l2]]; try discriminate.
      eapply (mapM_Forall (fun x => f x b)); [eassumption|].
      intros a0 c Hin. apply HP; [assumption | now left].
Qed.

End ErrorMonadFacts.

Section PairedCell.
Context {F : Type} `{Scalar F}.

(** Every element of a tensor satisfies [P]. *)
Definition all3 (P : F -> Prop) (t : tensor3 F) : Prop :=
  Forall (Forall (Forall P)) t.

Lemma binop_all3 (f : F -> F -> F) (Pa Pb Q : F -> Prop) (a b r : tensor3 F) :
  all3 Pa a -> all3 Pb b -> (forall u v, Pa u -> Pb v -> Q (f u v)) ->
  binop f a b = Ok r -> all3 Q r.
Proof.
  intros Ha Hb Hf E. unfold binop in E. unfold all3 in *.
  rewrite Forall_forall in Ha, Hb.
  eapply bzip_Forall; [exact E|]. cbv beta.
  intros xa xb rb Hxa Hxb E2.
  specialize (Ha _ Hxa). specialize (Hb _ Hxb). rewrite Forall_forall in Ha, Hb.
  eapply bzip_Forall; [exact E2|]. cbv beta.
  intros ca cb rc Hca Hcb E3.
  specialize (Ha _ Hca). specialize (Hb _ Hcb). rewrite Forall_forall in Ha, Hb.
  eapply bzip_Forall; [exact E3|]. cbv beta.
  intros u v c Hu Hv E4. inversion E4. apply Hf; auto.
Qed.

Lemma zeros_like_all3 (t : tensor3 F) : all3 (fun v => v = fzero) (zeros_like t).
Proof.
  unfold all3, zeros_like, map3.
  rewrite Forall_forall. intros xb Hxb. apply in_map_iff in Hxb as (xb0 & <- & _).
  rewrite Forall_forall. intros ch Hch. apply in_map_iff in Hch as (ch0 & <- & _).
  rewrite Forall_forall. intros v Hv. now apply in_map_iff in Hv as (v0 & <- & _).
Qed.

(** Channels a convolution accepts: (C_in / groups) * groups, read off the
    weight as [F.conv1d] does. *)
Definition in_count (c : ARConv1d.t F) : nat :=
  (length (hd [] (ARConv1d.weight c)) * Z.to_nat (ARConv1d.groups c))%nat.

(** The block as [CellAR.__init__] shapes it ([ex = 6]): the first
    convolution takes [num_z] channels, the second [hidden_dim = 6 * num_z]. *)
Definition block_shape (blk : ARInvertedResidual.t F) (num_z : nat) : Prop :=
  exists c1 c2,
    ARInvertedResidual.layers blk
    = [ARInvertedResidual.Conv c1; ARInvertedResidual.ELU true;
       ARInvertedResidual.Conv c2; ARInvertedResidual.ELU true]
    /\ in_count c1 = num_z /\ in_count c2 = (6 * num_z)%nat.

(** The shift of a cell at [z]: [self.mu(self.conv(z, ftr))]. *)
Definition CellAR_shift (cell : CellAR.t F) (z ftr : tensor3 F) : result (tensor3 F) :=
  '(s, _) <- ARInvertedResidual.forward (CellAR.conv cell) z ftr ;;
  mu <- Py.call_method "mu" (CellAR.mu cell) ;;
  ELUConv.forward mu s.

Lemma normalize_weight_hd (c : ARConv1d.t F) :
  length (hd [] (ARConv1d.normalize_weight c)) = length (hd [] (ARConv1d.weight c)).
Proof.
  unfold ARConv1d.normalize_weight, normalize_weight_jit, mapi.
  destruct (ARConv1d.weight c) as [|f w]; [reflexivity|].
  simpl. now rewrite length_map.
Qed.

Lemma conv1d_Ok_channels (x w : tensor3 F) (b : tensor1 F) (s p d g : Z)
    (out : tensor3 F) :
  conv1d x w b s p d g = Ok out ->
  Forall (fun xb => length xb = (length (hd [] w) * Z.to_nat g)%nat) x.
Proof.
  unfold conv1d. intros E.
  repeat match type of E with
         | (if ?c then _ else _) = _ => destruct c; [discriminate|]
         end.
  apply mapM_Ok_Forall in E. eapply Forall_impl; [|exact E].
  intros xb [r Hr]. unfold conv1d_sample in Hr.
  destruct (Nat.eqb_spec (length xb) (length (hd [] w) * Z.to_nat g)) as [Heq|];
    [exact Heq | discriminate].
Qed.

Lemma ARConv1d_forward_Ok_channels (c : ARConv1d.t F) (x out : tensor3 F) :
  ARConv1d.forward c x = Ok out -> Forall (fun xb => length xb = in_count c) x.
Proof.
  unfold ARConv1d.forward. intros E.
  apply bind_Ok in E as (b & _ & E). apply bind_Ok in E as (o & Ho & _).
  apply conv1d_Ok_channels in Ho. unfold type_as in Ho.
  now rewrite normalize_weight_hd in Ho.
Qed.

Lemma map3_no_channels (f : F -> F) (z : tensor3 F) :
  Forall (fun xb => length xb = 0%nat) z -> map3 f z = z.
Proof.
  unfold map3. induction 1 as [|xb z Hxb _ IH]; simpl; [reflexivity|].
  rewrite IH. destruct xb; [reflexivity | discriminate].
Qed.

(** With the constructor's shapes, a call of the block that returns leaves
    its argument [z] as it was: the sequential path never writes to it, and
    the checkpointed path, which would, cannot pass both convolutions
    unless [z] has no channel at all. *)
Lemma forward_keeps_z (blk : ARInvertedResidual.t F) (num_z : nat)
    (z ftr s z' : tensor3 F) :
  block_shape blk num_z ->
  ARInvertedResidual.forward blk z ftr = Ok (s, z') -> z' = z.
Proof.
  intros (c1 & c2 & Hl & Hn1 & Hn2). unfold ARInvertedResidual.forward.
  rewrite Hl. destruct (ARInvertedResidual.checkpoint_res blk =? 1)%Z.
  - cbn [ARInvertedResidual.checkpoint_loop ARInvertedResidual.apply_layer checkpoint].
    destruct (ARConv1d.forward c1 z) as [o1|e1] eqn:E1; [|discriminate].
    cbn [bind].
    destruct (ARConv1d.forward c2 (elu z)) as [o2|e2] eqn:E2; [|discriminate].
    cbn [bind]. intros E. inversion E; subst.
    apply ARConv1d_forward_Ok_channels in E1, E2.
    assert (Hz : Forall (fun xb : tensor2 F => length xb = 0%nat) z).
    { rewrite Forall_forall in *. intros xb Hin.
      specialize (E1 _ Hin).
      specialize (E2 (map (map elu1) xb) (in_map _ _ _ Hin)).
      rewrite length_map in E2. lia. }
    unfold elu. now rewrite !(map3_no_channels elu1 z Hz).
  - cbn [ARInvertedResidual.sequential ARInvertedResidual.apply_layer].
    destruct (ARConv1d.forward c1 z) as [o1|e1]; [|discriminate]. cbn [bind andb].
    destruct (ARConv1d.forward c2 (elu o1)) as [o2|e2]; [|discriminate]. cbn [bind].
    intros E. now inversion E.
Qed.

Lemma CellAR_forward_affine (cell : CellAR.t F) (num_z : nat) (z ftr : tensor3 F) :
  CellAR.use_mix_log_cdf cell = false ->
  block_shape (CellAR.conv cell) num_z ->
  CellAR.forward cell z ftr
  = (mu <- CellAR_shift cell z ftr ;;
     new_z <- tsub z mu ;;
     Ok (new_z, zeros_like new_z)).
Proof.
  intros Haff Hshape. unfold CellAR.forward, CellAR_shift. rewrite Haff.
  destruct (ARInvertedResidual.forward (CellAR.conv cell) z ftr) as [[s z']|e] eqn:E;
    [|reflexivity].
  apply (forward_keeps_z _ _ _ _ _ _ Hshape) in E. subst z'. cbn [bind].
  destruct (Py.call_method "mu" (CellAR.mu cell)) as [mu|e]; [|reflexivity].
  cbn [bind]. destruct (ELUConv.forward mu s); reflexivity.
Qed.

(** C7: for a [PairedCellAR] whose two cells are the affine variant (with
    the block shapes the constructor gives them), every latent [z] and
    every [ftr]: the result is [new_z = (z - mu1) - mu2], where [mu1] is
    the first cell's shift at [z] and [mu2] the second cell's shift at
    [z - mu1], and whenever a result is returned its log-determinant is
    zero everywhere.  The call raises exactly when one of these steps does.
    ([0 + 0 = 0] is the one law of scalars used.) *)
Theorem PairedCellAR_affine_shift (self : PairedCellAR.t F) (num_z : nat)
    (z ftr : tensor3 F) :
  CellAR.use_mix_log_cdf (PairedCellAR.cell1 self) = false ->
  CellAR.use_mix_log_cdf (PairedCellAR.cell2 self) = false ->
  block_shape (CellAR.conv (PairedCellAR.cell1 self)) num_z ->
  block_shape (CellAR.conv (PairedCellAR.cell2 self)) num_z ->
  fadd fzero fzero = fzero ->
  PairedCellAR.forward self z ftr
  = (mu1 <- CellAR_shift (PairedCellAR.cell1 self) z ftr ;;
     z1 <- tsub z mu1 ;;
     mu2 <- CellAR_shift (PairedCellAR.cell2 self) z1 ftr ;;
     new_z <- tsub z1 mu2 ;;
     log_det <- tadd_inplace (zeros_like z1) (zeros_like new_z) ;;
     Ok (new_z, log_det))
  /\ forall new_z log_det,
       PairedCellAR.forward self z ftr = Ok (new_z, log_det) ->
       all3 (fun v => v = fzero) log_det.
Proof.
  intros Haff1 Haff2 Hs1 Hs2 Hzero.
  assert (Heq : PairedCellAR.forward self z ftr
                = (mu1 <- CellAR_shift (PairedCellAR.cell1 self) z ftr ;;
                   z1 <- tsub z mu1 ;;
                   mu2 <- CellAR_shift (PairedCellAR.cell2 self) z1 ftr ;;
                   new_z <- tsub z1 mu2 ;;
                   log_det <- tadd_inplace (zeros_like z1) (zeros_like new_z) ;;
                   Ok (new_z, log_det))).
  { unfold PairedCellAR.forward.
    rewrite (CellAR_forward_affine _ num_z z ftr Haff1 Hs1).
    destruct (CellAR_shift (PairedCellAR.cell1 self) z ftr) as [mu1|e]; [|reflexivity].
    cbn [bind]. destruct (tsub z mu1) as [z1|e]; [|reflexivity]. cbn [bind].
    rewrite (CellAR_forward_affine _ num_z z1 ftr Haff2 Hs2).
    destruct (CellAR_shift (PairedCellAR.cell2 self) z1 ftr) as [mu2|e]; [|reflexivity].
    cbn [bind]. destruct (tsub z1 mu2) as [new_z|e]; reflexivity. }
  split; [exact Heq|].
  intros new_z log_det E. rewrite Heq in E.
  apply bind_Ok in E as (mu1 & _ & E). apply bind_Ok in E as (z1 & _ & E).
  apply bind_Ok in E as (mu2 & _ & E). apply bind_Ok in E as (nz & _ & E).
  apply bind_Ok in E as (ld & Hld & E). inversion E; subst.
  unfold tadd_inplace in Hld. apply bind_Ok in Hld as (r & Hr & Hld).
  destruct (same_shape (zeros_like z1) r); [|discriminate]. inversion Hld; subst.
  eapply (binop_all3 fadd (fun v => v = fzero) (fun v => v = fzero));
    [apply zeros_like_all3 | apply zeros_like_all3 | | exact Hr].
  intros u v -> ->. exact Hzero.
Qed.

End PairedCell.

(** A paired cell with one latent channel (hidden_dim = 6), weights 1 and
    zero biases, checkpointing off. *)
Section PairedExample.
Context {F : Type} `{Scalar F}.

Definition mu_example : ELUConv.t F :=
  ELUConv.mk 0
    (ARConv1d.mk 6 1 1 1 0 1 1 [repeat [fone] 6] (Some [fzero]) true "SAME" [[[fzero]]]).

Definition cell_example : CellAR.t F :=
  CellAR.mk (block_example 0) false None (Some mu_example).

Definition paired_example : PairedCellAR.t F := PairedCellAR.mk cell_example cell_example.

Lemma block_example_shape : block_shape (F:=F) (block_example 0) 1.
Proof.
  unfold block_shape, block_example. do 2 eexists.
  split; [reflexivity|]. split; reflexivity.
Defined.

End PairedExample.

Lemma PairedCellAR_affine_shift_witness :
  PairedCellAR.forward (F:=R) paired_example [[[1%R]]] []
  = (mu1 <- CellAR_shift cell_example [[[1%R]]] [] ;;
     z1 <- tsub [[[1%R]]] mu1 ;;
     mu2 <- CellAR_shift cell_example z1 [] ;;
     new_z <- tsub z1 mu2 ;;
     log_det <- tadd_inplace (zeros_like z1) (zeros_like new_z) ;;
     Ok (new_z, log_det))
  /\ forall new_z log_det,
       PairedCellAR.forward (F:=R) paired_example [[[1%R]]] [] = Ok (new_z, log_det) ->
       all3 (fun v => v = 0%R) log_det.
Proof.
  exact (PairedCellAR_affine_shift paired_example 1 [[[1%R]]] [] eq_refl eq_refl
           block_example_shape block_example_shape (Rplus_0_l 0)).
Defined.

(** ** AutoEncoder.forward: the weight-decay-norm coefficient *)

Section WdnCoeff.
Context {F : Type} `{Scalar F}.

(** C10: the assertion of the loss computation fails exactly when annealing
    is requested and the initial or the final endpoint is not positive
    ([x > 0] is false), and nothing else raises there; with both endpoints
    positive the coefficient is
    exp((1 - kl_coeff) * log(init) + kl_coeff * log(final));
    without annealing it is the configured final value. *)
Theorem wdn_coeff_annealing (anneal : bool) (init final kl_coeff : F) :
  (AutoEncoder.wdn_coeff anneal init final kl_coeff = Raise AssertionError
   <-> anneal = true /\ (fltb fzero init = false \/ fltb fzero final = false))
  /\ (forall e, AutoEncoder.wdn_coeff anneal init final kl_coeff = Raise e ->
                e = AssertionError)
  /\ (anneal = true -> fltb fzero init = true -> fltb fzero final = true ->
      AutoEncoder.wdn_coeff anneal init final kl_coeff
      = Ok (fexp (fadd (fmul (fsub fone kl_coeff) (flog init))
                       (fmul kl_coeff (flog final)))))
  /\ (anneal = false -> AutoEncoder.wdn_coeff anneal init final kl_coeff = Ok final).
Proof.
  unfold AutoEncoder.wdn_coeff, py_assert.
  destruct anneal, (fltb fzero init), (fltb fzero final); cbn [andb bind];
    repeat split; intros; try discriminate; try reflexivity;
    try congruence; auto;
    try (match goal with
         | Hc : _ /\ (_ \/ _) |- _ => destruct Hc as [? [?|?]]; discriminate
         end).
Qed.

End WdnCoeff.

(** X2: over the reals, where "not positive" reads [x <= 0]: the assertion
    fails exactly when annealing is requested with [init <= 0] or
    [final <= 0], and with both endpoints positive the coefficient is
    exp((1 - kl_coeff) * ln init + kl_coeff * ln final). *)
Lemma wdn_coeff_annealing_R (anneal : bool) (init final kl_coeff : R) :
  (AutoEncoder.wdn_coeff anneal init final kl_coeff = Raise AssertionError
   <-> anneal = true /\ (init <= 0 \/ final <= 0)%R)
  /\ (anneal = true -> (0 < init)%R -> (0 < final)%R ->
      AutoEncoder.wdn_coeff anneal init final kl_coeff
      = Ok (exp ((1 - kl_coeff) * ln init + kl_coeff * ln final))%R).
Proof.
  unfold AutoEncoder.wdn_coeff, py_assert. simpl.
  destruct anneal, (Rlt_dec 0 init), (Rlt_dec 0 final); cbn [andb bind];
    (split; [split; [intros E; first [discriminate E | split; [reflexivity | lra]]
                    | intros [Ha Hc]; try discriminate Ha; try reflexivity; lra]
            | intros Ha Hi Hf; try discriminate Ha; try reflexivity; lra]).
Qed.

(** ** AutoEncoder.forward: flows and the KL terms *)

Section FlowsAndKL.
Context {T : Type} `{AutoEncoder.Env T}.









Lemma zip4_length {A B C D : Type} (la : list A) (lb : list B) (lc : list C)
    (ld : list D) (n : nat) :
  length la = n -> length lb = n -> length lc = n -> length ld = n ->
  length (AutoEncoder.zip4 la lb lc ld) = n.
Proof.
  revert lb lc ld n.
  induction la as [|a la IH]; intros [|b lb] [|c lc] [|d ld] n Ha Hb Hc Hd;
    simpl in *; try lia.
  destruct n as [|n]; [lia|]. f_equal. apply IH; lia.
Qed.








End FlowsAndKL.

(** ** AutoEncoder.forward: the combiner caches *)

Section CombinerCaches.
Context {T : Type} `{AutoEncoder.Env T}.

Definition is_type (ty : string) (c : AutoEncoder.cell T) : bool :=
  (AutoEncoder.cell_type c =? ty)%string.

(** Number of cells of a given type in a tower. *)
Definition count_type (ty : string) (cells : list (AutoEncoder.cell T)) : nat :=
  length (filter (is_type ty) cells).

(** The encoder pass in the words of section 4.5: a combiner cell is not
    evaluated; it is recorded with the current stream, and the tower goes
    on with that same stream. *)
Fixpoint enc_defer (cells : list (AutoEncoder.cell T)) (s : T)
  : result (T * list (AutoEncoder.cell T * T)) :=
  match cells with
  | [] => Ok (s, [])
  | c :: cells' =>
      if is_type "combiner_enc" c
      then '(s', cached) <- enc_defer cells' s ;; Ok (s', (c, s) :: cached)
      else s1 <- AutoEncoder.call1 c s ;; enc_defer cells' s1
  end.

Lemma enc_loop_defer (cells : list (AutoEncoder.cell T)) (s : T)
    (ce : list (AutoEncoder.cell T)) (cs : list T) :
  for_each cells
    (fun '(s, combiner_cells_enc, combiner_cells_s) cell =>
       if (AutoEncoder.cell_type cell =? "combiner_enc")%string
       then Ok (s, combiner_cells_enc ++ [cell], combiner_cells_s ++ [s])
       else s' <- AutoEncoder.call1 cell s ;;
            Ok (s', combiner_cells_enc, combiner_cells_s))
    (s, ce, cs)
  = ('(s', cached) <- enc_defer cells s ;;
     Ok (s', ce ++ map fst cached, cs ++ map snd cached)).
Proof.
  revert s ce cs. induction cells as [|c cells IH]; intros s ce cs; simpl.
  - now rewrite !app_nil_r.
  - unfold is_type. destruct (AutoEncoder.cell_type c =? "combiner_enc")%string.
    + cbn [bind]. rewrite IH.
      destruct (enc_defer cells s) as [[s' cached]|e]; [|reflexivity].
      cbn [bind map fst snd]. now rewrite <- !app_assoc.
    + destruct (AutoEncoder.call1 c s) as [s1|e]; [|reflexivity].
      cbn [bind]. apply IH.
Qed.

Lemma enc_defer_cells (cells : list (AutoEncoder.cell T)) (s s' : T) cached :
  enc_defer cells s = Ok (s', cached) ->
  map fst cached = filter (is_type "combiner_enc") cells.
Proof.
  revert s s' cached. induction cells as [|c cells IH]; intros s s' cached E;
    simpl in *.
  - now inversion E.
  - destruct (is_type "combiner_enc" c).
    + apply bind_Ok in E as ([s1 l] & Hl & E). inversion E; subst.
      simpl. f_equal. eapply IH; eassumption.
    + apply bind_Ok in E as (s1 & _ & E). eapply IH; eassumption.
Qed.

Lemma index_nat {A : Type} (l : list A) (k : nat) (a : A) :
  Py.index l (Z.of_nat k) = Ok a <-> nth_error l k = Some a.
Proof.
  unfold Py.index. cbv zeta.
  assert (Hlt : (Z.of_nat k <? 0)%Z = false) by (apply Z.ltb_ge; lia).
  rewrite !Hlt, Nat2Z.id. destruct (nth_error l k); split; intros E; inversion E;
    reflexivity.
Qed.

Lemma nth_error_combine {A B : Type} (l1 : list A) (l2 : list B) (k : nat) a b :
  nth_error l1 k = Some a -> nth_error l2 k = Some b ->
  nth_error (combine l1 l2) k = Some (a, b).
Proof.
  revert l2 k. induction l1 as [|x l1 IH]; intros [|y l2] [|k] Ha Hb; simpl in *;
    try discriminate.
  - now inversion Ha; inversion Hb.
  - now apply IH.
Qed.

Lemma firstn_snoc {A : Type} (l : list A) (k : nat) (a : A) :
  nth_error l k = Some a -> firstn (S k) l = firstn k l ++ [a].
Proof.
  revert k. induction l as [|x l IH]; intros [|k] E; simpl in *; try discriminate.
  - now inversion E.
  - f_equal. now apply IH.
Qed.

Lemma combine_snoc {A B : Type} (l1 : list A) (l2 : list B) (a : A) (b : B) :
  length l1 = length l2 ->
  combine (l1 ++ [a]) (l2 ++ [b]) = combine l1 l2 ++ [(a, b)].
Proof.
  revert l2. induction l1 as [|x l1 IH]; intros [|y l2] Hlen; simpl in *;
    try discriminate; [reflexivity|].
  f_equal. apply IH. lia.
Qed.

Lemma combine_rev_map {A B : Type} (l : list (A * B)) :
  combine (rev (map fst l)) (rev (map snd l)) = rev l.
Proof.
  induction l as [|[a b] l IH]; simpl; [reflexivity|].
  rewrite combine_snoc by (now rewrite !length_rev, !length_map).
  now rewrite IH.
Qed.

Variable self : AutoEncoder.t T.
Variable eps : Z -> T.

(** The decoder pass in the words of section 4.5: the cached pairs, in
    reverse order of collection, are a queue.  A decoder combiner after the
    first takes the pair at its head, calls the cached cell on the cached
    stream and the decoder stream, and hands the result to the posterior of
    its group; the queue goes on without that pair.  The first decoder
    combiner and the other cells leave the queue alone. *)
Definition dec_step_queue
    (stq : AutoEncoder.dec_state T * list (AutoEncoder.cell T * T))
    (c : AutoEncoder.cell T)
  : result (AutoEncoder.dec_state T * list (AutoEncoder.cell T * T)) :=
  let '(st, queue) := stq in
  if is_type "combiner_dec" c then
    '(st, queue) <-
      (if (AutoEncoder.idx_dec st >? 0)%Z then
         sampler <- Py.index (AutoEncoder.dec_sampler self) (AutoEncoder.idx_dec st - 1) ;;
         param <- sampler (AutoEncoder.s st) ;;
         let '(mu_p, log_sig_p) := AutoEncoder.chunk2 param in
         match queue with
         | [] => Raise IndexError
         | (comb, cached) :: queue' =>
             ftr <- AutoEncoder.call2 comb cached (AutoEncoder.s st) ;;
             st <- AutoEncoder.latent_group self eps st mu_p log_sig_p ftr ;;
             Ok (st, queue')
         end
       else Ok (st, queue)) ;;
    s' <- AutoEncoder.call2 c (AutoEncoder.s st) (AutoEncoder.z st) ;;
    Ok (AutoEncoder.mk_dec s' (AutoEncoder.z st) (AutoEncoder.idx_dec st + 1)
          (AutoEncoder.nf_offset st) (AutoEncoder.all_q st) (AutoEncoder.all_log_q st)
          (AutoEncoder.all_p st) (AutoEncoder.all_log_p st),
        queue)
  else
    s' <- AutoEncoder.call1 c (AutoEncoder.s st) ;;
    Ok (AutoEncoder.mk_dec s' (AutoEncoder.z st) (AutoEncoder.idx_dec st)
          (AutoEncoder.nf_offset st) (AutoEncoder.all_q st) (AutoEncoder.all_log_q st)
          (AutoEncoder.all_p st) (AutoEncoder.all_log_p st),
        queue).

Definition run_dec_queue (cells : list (AutoEncoder.cell T))
    (stq : AutoEncoder.dec_state T * list (AutoEncoder.cell T * T))
  : result (AutoEncoder.dec_state T * list (AutoEncoder.cell T * T)) :=
  for_each cells dec_step_queue stq.

(** The pairs not yet taken when [idx_dec] decoder combiners are passed. *)
Definition pending (pairs : list (AutoEncoder.cell T * T))
    (st : AutoEncoder.dec_state T) : list (AutoEncoder.cell T * T) :=
  skipn (Z.to_nat (AutoEncoder.idx_dec st) - 1) pairs.

Lemma skipn_nth_error {A : Type} (l : list A) (k : nat) :
  skipn k l = match nth_error l k with
              | Some a => a :: skipn (S k) l
              | None => []
              end.
Proof.
  revert k. induction l as [|x l IH]; intros [|k]; simpl; try reflexivity.
  apply IH.
Qed.

Lemma index_map_nat {A B : Type} (f : A -> B) (l : list A) (k : nat) :
  Py.index (map f l) (Z.of_nat k)
  = match nth_error l k with
    | Some a => Ok (f a)
    | None => Raise IndexError
    end.
Proof.
  unfold Py.index. cbv zeta.
  assert (Hlt : (Z.of_nat k <? 0)%Z = false) by (apply Z.ltb_ge; lia).
  rewrite !Hlt, Nat2Z.id, nth_error_map. now destruct (nth_error l k).
Qed.

Lemma latent_group_idx st (mu_p log_sig_p ftr : T) st1 :
  AutoEncoder.latent_group self eps st mu_p log_sig_p ftr = Ok st1 ->
  AutoEncoder.idx_dec st1 = AutoEncoder.idx_dec st
  /\ AutoEncoder.s st1 = AutoEncoder.s st.
Proof.
  unfold AutoEncoder.latent_group. intros E.
  apply bind_Ok in E as (sampler & _ & E).
  apply bind_Ok in E as (param & _ & E).
  destruct (AutoEncoder.chunk2 param) as [mu_q log_sig_q].
  apply bind_Ok in E as ([z' lq'] & _ & E).
  inversion E. now split.
Qed.

(** One iteration of the loop of lines 413-445, reading the caches by
    [idx_dec - 1], is one step of the queue. *)
Lemma dec_step_queue_refines (pairs : list (AutoEncoder.cell T * T)) st c :
  (0 <= AutoEncoder.idx_dec st)%Z ->
  dec_step_queue (st, pending pairs st) c
  = (st' <- AutoEncoder.dec_step self eps (map fst pairs) (map snd pairs) st c ;;
     Ok (st', pending pairs st')).
Proof.
  intros Hidx. unfold dec_step_queue, AutoEncoder.dec_step, is_type, pending.
  destruct (AutoEncoder.cell_type c =? "combiner_dec")%string.
  - destruct (Z.gtb_spec (AutoEncoder.idx_dec st) 0) as [Hpos|Hzero].
    + destruct (Py.index (AutoEncoder.dec_sampler self) (AutoEncoder.idx_dec st - 1))
        as [sampler|e]; [|reflexivity].
      cbn [bind].
      destruct (sampler (AutoEncoder.s st)) as [param|e]; [|reflexivity].
      cbn [bind].
      destruct (AutoEncoder.chunk2 param) as [mu_p log_sig_p].
      replace (AutoEncoder.idx_dec st - 1)%Z
        with (Z.of_nat (Z.to_nat (AutoEncoder.idx_dec st) - 1)) by lia.
      rewrite !index_map_nat, skipn_nth_error.
      destruct (nth_error pairs (Z.to_nat (AutoEncoder.idx_dec st) - 1))
        as [[comb cached]|]; [|reflexivity].
      cbn [bind fst snd].
      destruct (AutoEncoder.call2 comb cached (AutoEncoder.s st)) as [ftr|e];
        [|reflexivity].
      cbn [bind].
      destruct (AutoEncoder.latent_group self eps st mu_p log_sig_p ftr)
        as [st1|e] eqn:E1; [|reflexivity].
      cbn [bind]. destruct (latent_group_idx _ _ _ _ _ E1) as [Hi _].
      destruct (AutoEncoder.call2 c (AutoEncoder.s st1) (AutoEncoder.z st1))
        as [s'|e]; [|reflexivity].
      cbn [bind AutoEncoder.idx_dec]. rewrite Hi. do 3 f_equal. lia.
    + cbn [bind].
      destruct (AutoEncoder.call2 c (AutoEncoder.s st) (AutoEncoder.z st))
        as [s'|e]; [|reflexivity].
      cbn [bind AutoEncoder.idx_dec].
      replace (Z.to_nat (AutoEncoder.idx_dec st) - 1)%nat with 0%nat by lia.
      replace (Z.to_nat (AutoEncoder.idx_dec st + 1) - 1)%nat with 0%nat by lia.
      reflexivity.
  - destruct (AutoEncoder.call1 c (AutoEncoder.s st)) as [s'|e]; reflexivity.
Qed.

Lemma dec_step_idx (ce : list (AutoEncoder.cell T)) (cs : list T) st c st' :
  AutoEncoder.dec_step self eps ce cs st c = Ok st' ->
  AutoEncoder.idx_dec st'
  = (AutoEncoder.idx_dec st + if is_type "combiner_dec" c then 1 else 0)%Z.
Proof.
  unfold AutoEncoder.dec_step, is_type. intros E.
  destruct (AutoEncoder.cell_type c =? "combiner_dec")%string.
  - apply bind_Ok in E as (st1 & Hinner & E).
    apply bind_Ok in E as (s' & _ & E). inversion E; subst; cbn. clear E.
    destruct (AutoEncoder.idx_dec st >? 0)%Z.
    + apply bind_Ok in Hinner as (sampler & _ & Hinner).
      apply bind_Ok in Hinner as (param & _ & Hinner).
      destruct (AutoEncoder.chunk2 param) as [mu_p log_sig_p].
      apply bind_Ok in Hinner as (comb & _ & Hinner).
      apply bind_Ok in Hinner as (cached & _ & Hinner).
      apply bind_Ok in Hinner as (ftr & _ & Hinner).
      destruct (latent_group_idx _ _ _ _ _ Hinner) as [Hi _]. now rewrite Hi.
    + now inversion Hinner.
  - apply bind_Ok in E as (s' & _ & E). inversion E; subst; cbn. lia.
Qed.

(** The whole loop is the pass over the queue, and the pairs left are the
    ones after the first [idx_dec - 1]. *)
Lemma run_dec_queue_refines (pairs : list (AutoEncoder.cell T * T))
    (cells : list (AutoEncoder.cell T)) st :
  (0 <= AutoEncoder.idx_dec st)%Z ->
  run_dec_queue cells (st, pending pairs st)
  = (st' <- AutoEncoder.run_dec_tower self eps (map fst pairs) (map snd pairs)
              cells st ;;
     Ok (st', pending pairs st')).
Proof.
  unfold run_dec_queue, AutoEncoder.run_dec_tower. revert st.
  induction cells as [|c cells IH]; intros st Hidx; cbn [for_each bind];
    [reflexivity|].
  rewrite dec_step_queue_refines by exact Hidx.
  destruct (AutoEncoder.dec_step self eps (map fst pairs) (map snd pairs) st c)
    as [st1|e] eqn:E1; [|reflexivity].
  cbn [bind]. apply IH. rewrite (dec_step_idx _ _ _ _ _ E1).
  destruct (is_type "combiner_dec" c); lia.
Qed.

Lemma run_dec_tower_idx (ce : list (AutoEncoder.cell T)) (cs : list T)
    (cells : list (AutoEncoder.cell T)) st st' :
  AutoEncoder.run_dec_tower self eps ce cs cells st = Ok st' ->
  AutoEncoder.idx_dec st'
  = (AutoEncoder.idx_dec st + Z.of_nat (count_type "combiner_dec" cells))%Z.
Proof.
  unfold AutoEncoder.run_dec_tower, count_type. revert st.
  induction cells as [|c cells IH]; intros st E; simpl in E.
  - inversion E; subst. simpl. lia.
  - apply bind_Ok in E as (st1 & Hstep & E).
    rewrite (IH _ E), (dec_step_idx _ _ _ _ _ Hstep). simpl filter.
    destruct (is_type "combiner_dec" c); simpl length; lia.
Qed.

(** What a completed iteration at a decoder combiner after the first has
    done with the caches: the prior is formed from the decoder stream, the
    cached cell [k] is called on the cached stream [k] and the decoder
    stream, and its result is the [ftr] the posterior of the group and the
    flows are computed from. *)
Lemma dec_step_combiner_next (ce : list (AutoEncoder.cell T)) (cs : list T)
    st c st' (k : nat) :
  is_type "combiner_dec" c = true -> AutoEncoder.idx_dec st = Z.of_nat (S k) ->
  AutoEncoder.dec_step self eps ce cs st c = Ok st' ->
  exists comb cached ftr sampler param st1,
    nth_error ce k = Some comb /\ nth_error cs k = Some cached
    /\ AutoEncoder.call2 comb cached (AutoEncoder.s st) = Ok ftr
    /\ Py.index (AutoEncoder.dec_sampler self) (Z.of_nat k) = Ok sampler
    /\ sampler (AutoEncoder.s st) = Ok param
    /\ AutoEncoder.latent_group self eps st (fst (AutoEncoder.chunk2 param))
         (snd (AutoEncoder.chunk2 param)) ftr = Ok st1
    /\ AutoEncoder.call2 c (AutoEncoder.s st) (AutoEncoder.z st1)
       = Ok (AutoEncoder.s st')
    /\ AutoEncoder.z st' = AutoEncoder.z st1
    /\ AutoEncoder.idx_dec st' = Z.of_nat (S (S k)).
Proof.
  unfold is_type, AutoEncoder.dec_step. intros -> Hidx E. rewrite Hidx in E.
  destruct (Z.gtb_spec (Z.of_nat (S k)) 0) as [_|]; [|lia].
  replace (Z.of_nat (S k) - 1)%Z with (Z.of_nat k) in E by lia.
  apply bind_Ok in E as (st1 & Hinner & E).
  apply bind_Ok in E as (s' & Hcall & E). inversion E; subst; cbn. clear E.
  apply bind_Ok in Hinner as (sampler & Hsampler & Hinner).
  apply bind_Ok in Hinner as (param & Hparam & Hinner).
  destruct (AutoEncoder.chunk2 param) as [mu_p log_sig_p] eqn:Hchunk.
  apply bind_Ok in Hinner as (comb & Hcomb & Hinner).
  apply bind_Ok in Hinner as (cached & Hcached & Hinner).
  apply bind_Ok in Hinner as (ftr & Hftr & Hinner).
  apply index_nat in Hcomb, Hcached.
  destruct (latent_group_idx _ _ _ _ _ Hinner) as [Hi Hs].
  rewrite Hs in Hcall.
  exists comb, cached, ftr, sampler, param, st1.
  rewrite Hchunk. cbn [fst snd].
  do 7 (split; [assumption|]). split; [reflexivity|]. rewrite Hi, Hidx. lia.
Qed.

End CombinerCaches.

Section CombinerCachesTheorem.
Context {T : Type} `{AutoEncoder.Env T}.

Lemma first_group_state (self : AutoEncoder.t T) (eps : Z -> T) (s : T) st :
  AutoEncoder.first_group self eps s = Ok st -> AutoEncoder.idx_dec st = 0%Z.
Proof.
  unfold AutoEncoder.first_group. intros E.
  apply bind_Ok in E as (ftr & _ & E).
  apply bind_Ok in E as (sampler & _ & E).
  apply bind_Ok in E as (param0 & _ & E).
  destruct (AutoEncoder.chunk2 param0) as [mu_q log_sig_q].
  apply bind_Ok in E as ([z' lq'] & _ & E).
  now inversion E.
Qed.

(** C6: in [AutoEncoder.forward],
    - the encoder tower defers every 'combiner_enc' cell: the loop is the
      deferring pass [enc_defer] (the cell is recorded with the current
      stream, no cell is called, the same stream goes on), followed by the
      reversal of both lists; the cached cells are exactly the
      'combiner_enc' cells of the tower, in order;
    - a completed iteration at a decoder combiner met with
      [idx_dec = k + 1] has called cached cell [k] of the reversed caches
      on cached stream [k] and the decoder stream, and the posterior of its
      group is computed from the result;
    - the decoder loop over any list of cells, started after the first
      group, is the pass [run_dec_queue] that consumes the reversed caches
      as a queue, from its head, one pair per decoder combiner after the
      first: both raise the same exception or return the same state, and
      the pairs left are those after the first [n - 1], for [n] decoder
      combiners passed;
    - so a completed pass has consumed the cached pairs in reverse order
      of collection, each once, and all of them when the decoder tower has
      one combiner more than the encoder tower. *)
Theorem combiner_caches_consumed_in_reverse (self : AutoEncoder.t T) (eps : Z -> T)
    (s0 : T) :
  AutoEncoder.run_enc_tower self s0
  = ('(s', cached) <- enc_defer (AutoEncoder.enc_tower self) s0 ;;
     Ok (s', rev (map fst cached), rev (map snd cached)))
  /\ (forall s' cached,
         enc_defer (AutoEncoder.enc_tower self) s0 = Ok (s', cached) ->
         map fst cached = filter (is_type "combiner_enc") (AutoEncoder.enc_tower self))
  /\ (forall rce rcs st c st' k,
         is_type "combiner_dec" c = true ->
         AutoEncoder.idx_dec st = Z.of_nat (S k) ->
         AutoEncoder.dec_step self eps rce rcs st c = Ok st' ->
         exists comb cached ftr sampler param st1,
           nth_error rce k = Some comb /\ nth_error rcs k = Some cached
           /\ AutoEncoder.call2 comb cached (AutoEncoder.s st) = Ok ftr
           /\ Py.index (AutoEncoder.dec_sampler self) (Z.of_nat k) = Ok sampler
           /\ sampler (AutoEncoder.s st) = Ok param
           /\ AutoEncoder.latent_group self eps st (fst (AutoEncoder.chunk2 param))
                (snd (AutoEncoder.chunk2 param)) ftr = Ok st1
           /\ AutoEncoder.call2 c (AutoEncoder.s st) (AutoEncoder.z st1)
              = Ok (AutoEncoder.s st')
           /\ AutoEncoder.z st' = AutoEncoder.z st1
           /\ AutoEncoder.idx_dec st' = Z.of_nat (S (S k)))
  /\ (forall s' cached st1 cells,
         enc_defer (AutoEncoder.enc_tower self) s0 = Ok (s', cached) ->
         AutoEncoder.first_group self eps s' = Ok st1 ->
         run_dec_queue self eps cells (st1, rev cached)
         = (st' <- AutoEncoder.run_dec_tower self eps (rev (map fst cached))
                     (rev (map snd cached)) cells st1 ;;
            Ok (st', skipn (count_type "combiner_dec" cells - 1) (rev cached))))
  /\ (forall st kl_diag kl_all,
         AutoEncoder.forward_latents self eps s0 = Ok (st, kl_diag, kl_all) ->
         exists s' cached st1,
           enc_defer (AutoEncoder.enc_tower self) s0 = Ok (s', cached)
           /\ AutoEncoder.first_group self eps s' = Ok st1
           /\ run_dec_queue self eps (AutoEncoder.dec_tower self) (st1, rev cached)
              = Ok (st, skipn (count_type "combiner_dec" (AutoEncoder.dec_tower self) - 1)
                          (rev cached))
           /\ (count_type "combiner_dec" (AutoEncoder.dec_tower self)
               = S (count_type "combiner_enc" (AutoEncoder.enc_tower self)) ->
               run_dec_queue self eps (AutoEncoder.dec_tower self) (st1, rev cached)
               = Ok (st, []))).
Proof.
  assert (Henc : AutoEncoder.run_enc_tower self s0
                 = ('(s', cached) <- enc_defer (AutoEncoder.enc_tower self) s0 ;;
                    Ok (s', rev (map fst cached), rev (map snd cached)))).
  { unfold AutoEncoder.run_enc_tower. rewrite enc_loop_defer.
    destruct (enc_defer (AutoEncoder.enc_tower self) s0) as [[s' cached]|e];
      reflexivity. }
  assert (Hqueue : forall s' cached st1 cells,
             AutoEncoder.first_group self eps s' = Ok st1 ->
             run_dec_queue self eps cells (st1, rev cached)
             = (st' <- AutoEncoder.run_dec_tower self eps (rev (map fst cached))
                         (rev (map snd cached)) cells st1 ;;
                Ok (st', skipn (count_type "combiner_dec" cells - 1) (rev cached)))).
  { intros s' cached st1 cells Hfirst.
    pose proof (first_group_state _ _ _ _ Hfirst) as Hi0.
    pose proof (run_dec_queue_refines self eps (rev cached) cells st1) as Href.
    unfold pending in Href. rewrite Hi0 in Href. simpl skipn in Href.
    rewrite !map_rev in Href. rewrite Href by lia.
    destruct (AutoEncoder.run_dec_tower self eps (rev (map fst cached))
                (rev (map snd cached)) cells st1) as [st'|e] eqn:Hrun; [|reflexivity].
    cbn [bind]. rewrite (run_dec_tower_idx _ _ _ _ _ _ _ Hrun), Hi0.
    now rewrite Z.add_0_l, Nat2Z.id. }
  split; [exact Henc|]. split; [intros s' cached; apply enc_defer_cells|].
  split; [|split].
  - intros rce rcs st c st' k Hc Hk Hstep.
    exact (dec_step_combiner_next self eps rce rcs st c st' k Hc Hk Hstep).
  - intros s' cached st1 cells _ Hfirst. exact (Hqueue s' cached st1 cells Hfirst).
  - intros st kl_diag kl_all E. unfold AutoEncoder.forward_latents in E.
    rewrite Henc in E.
    destruct (enc_defer (AutoEncoder.enc_tower self) s0) as [[s' cached]|e] eqn:Hdefer;
      [|discriminate].
    cbn [bind] in E.
    apply bind_Ok in E as (st1 & Hfirst & E).
    apply bind_Ok in E as (st2 & Hrun & E).
    destruct (AutoEncoder.compute_kl self st2) as [kd ka]. inversion E; subst.
    exists s', cached, st1. split; [reflexivity|]. split; [exact Hfirst|].
    assert (Hq : run_dec_queue self eps (AutoEncoder.dec_tower self) (st1, rev cached)
                 = Ok (st, skipn (count_type "combiner_dec" (AutoEncoder.dec_tower self) - 1)
                             (rev cached))).
    { rewrite (Hqueue s' cached st1 _ Hfirst), Hrun. reflexivity. }
    split; [exact Hq|].
    intros Hcount. rewrite Hq, Hcount. unfold count_type.
    rewrite <- (enc_defer_cells _ _ _ _ Hdefer), length_map.
    replace (S (length cached) - 1)%nat with (length (rev cached))
      by (rewrite length_rev; lia).
    now rewrite skipn_all.
Qed.

End CombinerCachesTheorem.

(** ** A small concrete instance of the orchestrator

    Tensors are integers; two latent groups: the encoder tower holds one
    combiner, the decoder tower two; one flow per group. *)

#[export] Instance ZEnv : AutoEncoder.Env Z := {|
  AutoEncoder.Normal := (Z * Z)%type;
  AutoEncoder.mk_Normal := pair;
  AutoEncoder.Normal_sample := fun d noise => (fst d + noise)%Z;
  AutoEncoder.Normal_log_p := fun d z => (z - fst d)%Z;
  AutoEncoder.Normal_kl := fun q p => (fst q - fst p)%Z;
  AutoEncoder.t_sub := Z.sub;
  AutoEncoder.t_add := Z.add;
  AutoEncoder.t_zeros_like := fun _ => 0%Z;
  AutoEncoder.chunk2 := fun t => (t, (t + 1)%Z);
  AutoEncoder.expand_batch := fun p _ => p;
  AutoEncoder.sum_dim2_mean_dim0 := fun t => t;
  AutoEncoder.sum_dims12 := fun t => t
|}.

Definition one_input (ty : string) (f : Z -> Z) : AutoEncoder.cell Z :=
  AutoEncoder.mk_cell ty (fun s => Ok (f s)) (fun _ _ => Raise TypeError).

Definition two_inputs (ty : string) (f : Z -> Z -> Z) : AutoEncoder.cell Z :=
  AutoEncoder.mk_cell ty (fun _ => Raise TypeError) (fun a b => Ok (f a b)).

Definition autoencoder_example : AutoEncoder.t Z :=
  AutoEncoder.mk
    [one_input "normal_enc" (Z.add 1); two_inputs "combiner_enc" Z.add;
     one_input "normal_enc" (Z.add 2)]
    [two_inputs "combiner_dec" Z.add; one_input "normal_dec" (Z.add 1);
     two_inputs "combiner_dec" Z.add]
    (fun s : Z => Ok s)
    [(fun t : Z => Ok t); (fun t : Z => Ok t)]
    [(fun t : Z => Ok t)]
    [(fun z ftr : Z => Ok ((z + 1)%Z, 1%Z)); (fun z ftr : Z => Ok ((z + 2)%Z, 2%Z))]
    true 1%Z true 0%Z.


(** One pass over the example: the pair cached by the encoder (the combiner
    and the stream 10 + 1 before it) is the one the second decoder combiner
    takes, and none is left; both groups have their flow's log-determinant
    subtracted. *)
Example autoencoder_example_run :
  match AutoEncoder.forward_latents autoencoder_example (fun _ => 0%Z) 10%Z with
  | Ok (st, kl_diag, kl_all) =>
      AutoEncoder.run_enc_tower autoencoder_example 10%Z
      = Ok (13%Z, [two_inputs "combiner_enc" Z.add], [11%Z])
      /\ AutoEncoder.idx_dec st = 2%Z
      /\ AutoEncoder.all_log_q st = [(-1)%Z; (-2)%Z]
      /\ AutoEncoder.all_log_p st = [14%Z; 28%Z]
      /\ kl_all = [(-15)%Z; (-30)%Z]
  | Raise _ => False
  end.
Proof.
  vm_compute. repeat split.
Qed.

(** ** The mixture-of-logistics flow, over the reals *)

Section MixtureFlow.

Local Open Scope R_scope.

(** The quantities of section 4.4, in its words: mixture weights (the
    normalised [logit_pi]), scales (the exponential of [log_s] clamped to at
    least -7), the logistic CDF, the mixture CDF and the mixture density. *)
Definition softmax (logit : list R) : list R :=
  map (fun l => exp l / fsum (map exp logit)) logit.

Definition clamped_scale (log_s : list R) : list R :=
  map (fun ls => exp (Rmax ls (-7))) log_s.

Definition sigmoid (x : R) : R := 1 / (1 + exp (- x)).

Fixpoint sum3 (f : R -> R -> R -> R) (l1 l2 l3 : list R) : R :=
  match l1, l2, l3 with
  | a :: l1', b :: l2', c :: l3' => f a b c + sum3 f l1' l2' l3'
  | _, _, _ => 0
  end.

Definition mix_cdf (pi mu s : list R) (z : R) : R :=
  sum3 (fun p m sk => p * sigmoid ((z - m) / sk)) pi mu s.

Definition mix_pdf (pi mu s : list R) (z : R) : R :=
  sum3 (fun p m sk =>
          p * (sigmoid ((z - m) / sk) * (1 - sigmoid ((z - m) / sk)) / sk))
       pi mu s.

(** [f] along two lists. *)
Definition zip_with (f : R -> R -> R) (l1 l2 : list R) : list R :=
  map (fun '(a, b) => f a b) (combine l1 l2).

Lemma mapM2_pure (f : R -> R -> R) (l1 l2 : list R) :
  mapM2 (fun u v => Ok (f u v)) l1 l2 = Ok (zip_with f l1 l2).
Proof.
  revert l2. induction l1 as [|a l1 IH]; intros [|b l2]; try reflexivity.
  simpl. rewrite IH. reflexivity.
Qed.

Lemma bzip1_same_length (f : R -> R -> R) (l1 l2 : list R) :
  length l1 = length l2 -> bzip1 f l1 l2 = Ok (zip_with f l1 l2).
Proof.
  intros Hlen. unfold bzip1, bzip. rewrite Hlen, Nat.eqb_refl. apply mapM2_pure.
Qed.

Lemma bzip1_broadcast (f : R -> R -> R) (x : R) (l : list R) :
  bzip1 f [x] l = Ok (map (f x) l).
Proof.
  unfold bzip1, bzip. destruct (Nat.eqb_spec (length [x]) (length l)) as [Hlen|_].
  - destruct l as [|y [|y' l]]; try discriminate. reflexivity.
  - now apply mapM_map.
Qed.

Lemma length_zip_with (f : R -> R -> R) (l1 l2 : list R) :
  length (zip_with f l1 l2) = Nat.min (length l1) (length l2).
Proof.
  unfold zip_with. now rewrite length_map, length_combine.
Qed.

Lemma clamp_min_Rmax (v : R) : clamp_min (flit (-7) 0) v = Rmax v (-7).
Proof.
  unfold clamp_min. simpl. unfold Rmax.
  destruct (Rlt_dec v (-7 * 1)), (Rle_dec v (-7)); lra.
Qed.

Lemma fsum_exp_pos (l : list R) : l <> [] -> 0 < fsum (map exp l).
Proof.
  assert (Hge : forall l', 0 <= fsum (map exp l')).
  { induction l' as [|a l' IH]; simpl; [lra|]. pose proof (exp_pos a). lra. }
  destruct l as [|a l]; [congruence|]. intros _. simpl.
  pose proof (exp_pos a). pose proof (Hge l). lra.
Qed.

Lemma fsum_div (S : R) (l : list R) :
  fsum (map (fun v => exp v / S) l) = fsum (map exp l) / S.
Proof.
  induction l as [|a l IH]; simpl; [lra|]. rewrite IH. lra.
Qed.

Lemma softplus_exp (u : R) : exp (- softplus u) = 1 / (1 + exp u).
Proof.
  unfold softplus. simpl. rewrite exp_Ropp, exp_ln; [lra|].
  pose proof (exp_pos u). lra.
Qed.

Lemma sigmoid_complement (x : R) : 1 - sigmoid x = exp (- x) / (1 + exp (- x)).
Proof.
  unfold sigmoid. pose proof (exp_pos (- x)). field. lra.
Qed.

Lemma sigmoid_bounds (x : R) : 0 < sigmoid x < 1.
Proof.
  unfold sigmoid. pose proof (exp_pos (- x)) as Hp.
  assert (H1 : 0 < 1 + exp (- x)) by lra. split.
  - apply Rdiv_lt_0_compat; lra.
  - apply (Rmult_lt_reg_r (1 + exp (- x))); [exact H1|].
    unfold Rdiv. rewrite Rmult_assoc, Rinv_l by lra. lra.
Qed.

End MixtureFlow.

Section MixtureFlowProof.

Local Open Scope R_scope.

Lemma sum3_ext (f g : R -> R -> R -> R) (l1 l2 l3 : list R) :
  (forall a b c, f a b c = g a b c) -> sum3 f l1 l2 l3 = sum3 g l1 l2 l3.
Proof.
  intros Hfg. revert l2 l3. induction l1 as [|a l1 IH]; intros [|b l2] [|c l3];
    simpl; try reflexivity.
  now rewrite Hfg, IH.
Qed.

Lemma sum3_map (f : R -> R -> R -> R) (g1 g3 : R -> R) (l1 l2 l3 : list R) :
  sum3 f (map g1 l1) l2 (map g3 l3) = sum3 (fun a b c => f (g1 a) b (g3 c)) l1 l2 l3.
Proof.
  revert l2 l3. induction l1 as [|a l1 IH]; intros [|b l2] [|c l3];
    simpl; try reflexivity.
  now rewrite IH.
Qed.

Lemma sum3_first (g : R -> R) (l1 l2 l3 : list R) :
  length l2 = length l1 -> length l3 = length l1 ->
  sum3 (fun a _ _ => g a) l1 l2 l3 = fsum (map g l1).
Proof.
  revert l2 l3. induction l1 as [|a l1 IH]; intros [|b l2] [|c l3] H2 H3;
    simpl in *; try discriminate; try reflexivity.
  rewrite IH by lia. reflexivity.
Qed.

Lemma sum3_minus (f g : R -> R -> R -> R) (l1 l2 l3 : list R) :
  sum3 (fun a b c => f a b c - g a b c) l1 l2 l3
  = sum3 f l1 l2 l3 - sum3 g l1 l2 l3.
Proof.
  revert l2 l3. induction l1 as [|a l1 IH]; intros [|b l2] [|c l3];
    simpl; try lra.
  rewrite IH. lra.
Qed.

Lemma sum3_pos (f : R -> R -> R -> R) (l1 l2 l3 : list R) :
  (forall a b c, 0 < f a b c) -> l1 <> [] ->
  length l2 = length l1 -> length l3 = length l1 -> 0 < sum3 f l1 l2 l3.
Proof.
  intros Hf.
  assert (Hge : forall l1 l2 l3, 0 <= sum3 f l1 l2 l3).
  { induction l0 as [|a l0 IH]; intros [|b l4] [|c l5]; simpl; try lra.
    pose proof (Hf a b c). pose proof (IH l4 l5). lra. }
  destruct l1 as [|a l1]; [congruence|]. destruct l2 as [|b l2], l3 as [|c l3];
    simpl; try discriminate. intros _ _ _.
  pose proof (Hf a b c). pose proof (Hge l1 l2 l3). lra.
Qed.

(** The three exponentials of one mixture component. *)
Lemma component_terms (z c l m ls : R) :
  let s' := Rmax ls (-7) in
  let u := - (z - m) * exp (- s') in
  let x := (z - m) / exp s' in
  exp (l - c - softplus u) = exp (l - c) * sigmoid x
  /\ exp (l - c - softplus u + u) = exp (l - c) * (1 - sigmoid x)
  /\ exp (l - c + u - s' - 2 * 1 * softplus u)
     = exp (l - c) * (sigmoid x * (1 - sigmoid x) / exp s').
Proof.
  intros s' u x.
  assert (Hux : u = - x).
  { unfold u, x. rewrite exp_Ropp. unfold Rdiv. lra. }
  pose proof (exp_pos u) as Hu. pose proof (exp_pos s') as Hs.
  assert (Hsp : exp (- softplus u) = 1 / (1 + exp u)) by apply softplus_exp.
  assert (Hsig : sigmoid x = 1 / (1 + exp u)).
  { unfold sigmoid. now rewrite Hux. }
  assert (Hcomp : 1 - sigmoid x = exp u / (1 + exp u)).
  { rewrite sigmoid_complement. now rewrite Hux. }
  repeat split.
  - replace (l - c - softplus u) with ((l - c) + - softplus u) by lra.
    now rewrite exp_plus, Hsp, Hsig.
  - replace (l - c - softplus u + u) with ((l - c) + (- softplus u + u)) by lra.
    rewrite !exp_plus, Hsp, Hcomp. field. lra.
  - replace (l - c + u - s' - 2 * 1 * softplus u)
      with ((l - c) + (u + (- s' + (- softplus u + - softplus u)))) by lra.
    rewrite !exp_plus, Hsp, Hcomp, Hsig, exp_Ropp. field. lra.
Qed.

(** The lists the code builds along axis 2, for a normaliser [c] of the
    mixture logits. *)
Definition code_u (z : R) (mu log_s : list R) : list R :=
  zip_with Rmult (map Ropp (map (Rminus z) mu))
           (map exp (map Ropp (map (clamp_min (flit (-7) 0)) log_s))).

Definition code_log_cdf (z c : R) (logit mu log_s : list R) : list R :=
  zip_with Rminus (map (fun v => v - c) logit) (map softplus (code_u z mu log_s)).

Definition code_log_one_minus_cdf (z c : R) (logit mu log_s : list R) : list R :=
  zip_with Rplus (code_log_cdf z c logit mu log_s) (code_u z mu log_s).

Definition code_log_pdf (z c : R) (logit mu log_s : list R) : list R :=
  zip_with Rminus
    (zip_with Rminus (zip_with Rplus (map (fun v => v - c) logit) (code_u z mu log_s))
                     (map (clamp_min (flit (-7) 0)) log_s))
    (map (Rmult (2 * 1)) (map softplus (code_u z mu log_s))).

(** The three sums of the code, component by component. *)
Lemma flow_sums (z c : R) (logit mu log_s : list R) :
  length mu = length logit -> length log_s = length logit ->
  fsum (map exp (code_log_cdf z c logit mu log_s))
  = sum3 (fun l m ls => exp (l - c) * sigmoid ((z - m) / exp (Rmax ls (-7))))
         logit mu log_s
  /\ fsum (map exp (code_log_one_minus_cdf z c logit mu log_s))
     = sum3 (fun l m ls => exp (l - c) * (1 - sigmoid ((z - m) / exp (Rmax ls (-7)))))
            logit mu log_s
  /\ fsum (map exp (code_log_pdf z c logit mu log_s))
     = sum3 (fun l m ls =>
               exp (l - c)
               * (sigmoid ((z - m) / exp (Rmax ls (-7)))
                  * (1 - sigmoid ((z - m) / exp (Rmax ls (-7))))
                  / exp (Rmax ls (-7))))
            logit mu log_s.
Proof.
  unfold code_log_pdf, code_log_one_minus_cdf, code_log_cdf, code_u.
  revert mu log_s. induction logit as [|l logit IH]; intros [|m mu] [|ls log_s] Hm Hs;
    simpl in Hm, Hs; try discriminate.
  - simpl. repeat split; reflexivity.
  - destruct (IH mu log_s) as (IH1 & IH2 & IH3); [lia | lia |].
    destruct (component_terms z c l m ls) as (T1 & T2 & T3).
    cbv zeta in *. unfold zip_with in *. cbn [map combine fsum fold_right sum3] in *.
    rewrite clamp_min_Rmax.
    change (@fadd R RScalar) with Rplus.
    repeat split.
    + rewrite T1. f_equal. exact IH1.
    + rewrite T2. f_equal. exact IH2.
    + rewrite T3. f_equal. exact IH3.
Qed.

Ltac flow_lengths :=
  unfold log_softmax; repeat rewrite ?length_map, ?length_zip_with; lia.

(** What the code returns, before any real analysis. *)
Lemma mix_log_cdf_flow_code (z1 a bb : R) (logit_pi mu log_s : list R) :
  length mu = length logit_pi -> length log_s = length logit_pi ->
  let c := ln (fsum (map exp logit_pi)) in
  let A := ln (fsum (map exp (code_log_cdf z1 c logit_pi mu log_s))) in
  let B := ln (fsum (map exp (code_log_one_minus_cdf z1 c logit_pi mu log_s))) in
  let P := ln (fsum (map exp (code_log_pdf z1 c logit_pi mu log_s))) in
  mix_log_cdf_flow (F:=R) z1 logit_pi mu log_s [a] [bb]
  = Ok (exp a * (A - B) + bb, a - A - B + P).
Proof.
  intros Hm Hs. cbv zeta. unfold mix_log_cdf_flow.
  rewrite bzip1_broadcast. cbn [bind].
  rewrite bzip1_same_length by flow_lengths. cbn [bind].
  rewrite bzip1_same_length by flow_lengths. cbn [bind].
  rewrite bzip1_same_length by flow_lengths. cbn [bind squeeze].
  rewrite bzip1_same_length by flow_lengths. cbn [bind].
  rewrite bzip1_same_length by flow_lengths. cbn [bind].
  rewrite bzip1_same_length by flow_lengths. cbn [bind].
  reflexivity.
Qed.

Lemma exp_minus_ln (l S : R) : 0 < S -> exp (l - ln S) = exp l / S.
Proof.
  intros HS. unfold Rminus, Rdiv. now rewrite exp_plus, exp_Ropp, exp_ln.
Qed.

(** C9: for [k >= 1] mixture components, [mix_log_cdf_flow] returns
    new_z = exp(log_a) * (log(CDF) - log(1 - CDF)) + b  and
    log_det = log_a - log(CDF) - log(1 - CDF) + log(density),
    where CDF and density are those of the logistic mixture with weights
    softmax(logit_pi), locations mu and scales exp(max(log_s, -7)) at [z1]:
    the two log-sum-exps of the code are the logarithms of the mixture CDF
    and of its complement.  Both lie strictly between 0 and 1 and the
    density is positive, so the three logarithms are taken of positive
    numbers.  (Real arithmetic; rounding is not modelled.) *)
Theorem mix_log_cdf_flow_formulas (z1 log_a b : R) (logit_pi mu log_s : list R) :
  logit_pi <> [] -> length mu = length logit_pi -> length log_s = length logit_pi ->
  let pi := softmax logit_pi in
  let s := clamped_scale log_s in
  let CDF := mix_cdf pi mu s z1 in
  let PDF := mix_pdf pi mu s z1 in
  0 < CDF < 1 /\ 0 < PDF
  /\ mix_log_cdf_flow (F:=R) z1 logit_pi mu log_s [log_a] [b]
     = Ok (exp log_a * (ln CDF - ln (1 - CDF)) + b,
           log_a - ln CDF - ln (1 - CDF) + ln PDF).
Proof.
  intros Hne Hm Hs. cbv zeta.
  set (S := fsum (map exp logit_pi)).
  assert (HS : 0 < S) by now apply fsum_exp_pos.
  destruct (flow_sums z1 (ln S) logit_pi mu log_s Hm Hs) as (E1 & E2 & E3).
  assert (Hcdf : mix_cdf (softmax logit_pi) mu (clamped_scale log_s) z1
                 = sum3 (fun l m ls =>
                           exp (l - ln S) * sigmoid ((z1 - m) / exp (Rmax ls (-7))))
                        logit_pi mu log_s).
  { unfold mix_cdf, softmax, clamped_scale. rewrite sum3_map. apply sum3_ext.
    intros l m ls. fold S. now rewrite exp_minus_ln. }
  assert (Hpdf : mix_pdf (softmax logit_pi) mu (clamped_scale log_s) z1
                 = sum3 (fun l m ls =>
                           exp (l - ln S)
                           * (sigmoid ((z1 - m) / exp (Rmax ls (-7)))
                              * (1 - sigmoid ((z1 - m) / exp (Rmax ls (-7))))
                              / exp (Rmax ls (-7))))
                        logit_pi mu log_s).
  { unfold mix_pdf, softmax, clamped_scale. rewrite sum3_map. apply sum3_ext.
    intros l m ls. fold S. now rewrite exp_minus_ln. }
  assert (Hone : sum3 (fun l _ _ => exp (l - ln S)) logit_pi mu log_s = 1).
  { rewrite sum3_first by assumption.
    rewrite (map_ext _ (fun l => exp l / S)) by (intros; now apply exp_minus_ln).
    rewrite fsum_div. fold S. field. lra. }
  assert (Hcompl : 1 - mix_cdf (softmax logit_pi) mu (clamped_scale log_s) z1
                   = sum3 (fun l m ls =>
                             exp (l - ln S)
                             * (1 - sigmoid ((z1 - m) / exp (Rmax ls (-7)))))
                          logit_pi mu log_s).
  { transitivity
      (sum3 (fun l _ _ => exp (l - ln S)) logit_pi mu log_s
       - sum3 (fun l m ls =>
                 exp (l - ln S) * sigmoid ((z1 - m) / exp (Rmax ls (-7))))
              logit_pi mu log_s).
    - now rewrite Hone, Hcdf.
    - rewrite <- sum3_minus. apply sum3_ext. intros; lra. }
  assert (Hpos1 : 0 < mix_cdf (softmax logit_pi) mu (clamped_scale log_s) z1).
  { rewrite Hcdf. apply sum3_pos; try assumption. intros l m ls.
    apply Rmult_lt_0_compat; [apply exp_pos | apply sigmoid_bounds]. }
  assert (Hpos2 : 0 < 1 - mix_cdf (softmax logit_pi) mu (clamped_scale log_s) z1).
  { rewrite Hcompl. apply sum3_pos; try assumption. intros l m ls.
    pose proof (sigmoid_bounds ((z1 - m) / exp (Rmax ls (-7)))).
    apply Rmult_lt_0_compat; [apply exp_pos | lra]. }
  assert (Hpos3 : 0 < mix_pdf (softmax logit_pi) mu (clamped_scale log_s) z1).
  { rewrite Hpdf. apply sum3_pos; try assumption. intros l m ls.
    pose proof (sigmoid_bounds ((z1 - m) / exp (Rmax ls (-7)))).
    pose proof (exp_pos (Rmax ls (-7))).
    apply Rmult_lt_0_compat; [apply exp_pos|].
    apply Rdiv_lt_0_compat; [|assumption].
    apply Rmult_lt_0_compat; lra. }
  split; [lra|]. split; [exact Hpos3|].
  rewrite (mix_log_cdf_flow_code z1 log_a b logit_pi mu log_s Hm Hs). cbv zeta.
  fold S. now rewrite E1, E2, E3, <- Hcdf, <- Hcompl, <- Hpdf.
Qed.

(** Two components with equal logits, at [z1 = 0]. *)
Lemma mix_log_cdf_flow_formulas_witness :
  0 < mix_cdf (softmax [0; 0]) [0; 1] (clamped_scale [0; -9]) 0 < 1
  /\ 0 < mix_pdf (softmax [0; 0]) [0; 1] (clamped_scale [0; -9]) 0
  /\ mix_log_cdf_flow (F:=R) 0 [0; 0] [0; 1] [0; -9] [0] [1]
     = Ok (exp 0
           * (ln (mix_cdf (softmax [0; 0]) [0; 1] (clamped_scale [0; -9]) 0)
              - ln (1 - mix_cdf (softmax [0; 0]) [0; 1] (clamped_scale [0; -9]) 0))
           + 1,
           0 - ln (mix_cdf (softmax [0; 0]) [0; 1] (clamped_scale [0; -9]) 0)
           - ln (1 - mix_cdf (softmax [0; 0]) [0; 1] (clamped_scale [0; -9]) 0)
           + ln (mix_pdf (softmax [0; 0]) [0; 1] (clamped_scale [0; -9]) 0)).
Proof.
  apply (mix_log_cdf_flow_formulas 0 0 1 [0; 0] [0; 1] [0; -9]).
  - discriminate.
  - reflexivity.
  - reflexivity.
Defined.

End MixtureFlowProof.

(** ** The paired affine cell returns on well-shaped inputs *)

Section Totality.
Context {F : Type} `{Scalar F}.

Lemma map3_rect (f : F -> F) (B C L : nat) (x : tensor3 F) :
  rect3 B C L x -> rect3 B C L (map3 f x).
Proof.
  intros [HB Hall]. unfold map3. split; [now rewrite length_map|].
  rewrite Forall_forall in *. intros y Hy. apply in_map_iff in Hy as (xb & <- & Hin).
  destruct (Hall _ Hin) as [HC Hrows]. split; [now rewrite length_map|].
  rewrite Forall_forall in *. intros r Hr. apply in_map_iff in Hr as (ch & <- & Hch).
  rewrite length_map. now apply Hrows.
Qed.

Lemma forward_causal_rect self C_out cpg K d g b B L (x : tensor3 F) :
  causal_same self C_out cpg K d g b -> rect3 B (cpg * g) L x -> (0 < L)%nat ->
  exists out, ARConv1d.forward self x = Ok out /\ rect3 B C_out L out.
Proof.
  intros Hcs Hx HL.
  destruct (forward_causal_rows _ _ _ _ _ _ _ _ _ _ Hcs Hx HL) as [_ Hfwd].
  eexists. split; [exact Hfwd|].
  destruct Hx as [HB _]. split; [now rewrite length_map|].
  rewrite Forall_forall. intros y Hy. apply in_map_iff in Hy as (xb & <- & _).
  apply conv_rows_rect.
Qed.

Lemma Forall2_of_Forall {A B : Type} (P : A -> Prop) (Q : B -> Prop)
    (l1 : list A) (l2 : list B) :
  length l1 = length l2 -> Forall P l1 -> Forall Q l2 ->
  Forall2 (fun a b => P a /\ Q b) l1 l2.
Proof.
  revert l2. induction l1 as [|a l1 IH]; intros [|b l2] Hlen H1 H2;
    try discriminate; constructor.
  - inversion H1; inversion H2; now split.
  - inversion H1; inversion H2; subst. apply IH; auto.
Qed.

Lemma mapM2_total {A B C : Type} (f : A -> B -> result C) (P : C -> Prop)
    (l1 : list A) (l2 : list B) :
  Forall2 (fun a b => exists c, f a b = Ok c /\ P c) l1 l2 ->
  exists r, mapM2 f l1 l2 = Ok r /\ length r = length l1 /\ Forall P r.
Proof.
  induction 1 as [|a b l1 l2 (c & Hc & HP) _ (r & Hr & Hlen & Hall)]; simpl.
  - exists []. repeat split. constructor.
  - exists (c :: r). rewrite Hc. cbn [bind]. rewrite Hr. cbn [bind].
    repeat split; [simpl; now rewrite Hlen | now constructor].
Qed.

Lemma bzip_total {A B C : Type} (f : A -> B -> result C) (P : C -> Prop)
    (l1 : list A) (l2 : list B) :
  Forall2 (fun a b => exists c, f a b = Ok c /\ P c) l1 l2 ->
  exists r, bzip f l1 l2 = Ok r /\ length r = length l1 /\ Forall P r.
Proof.
  intros HF. unfold bzip.
  assert (E : Nat.eqb (length l1) (length l2) = true)
    by (rewrite (Forall2_length HF); apply Nat.eqb_refl).
  rewrite E. now apply mapM2_total.
Qed.

Lemma bzip1_rect (f : F -> F -> F) (L : nat) (ca cb : tensor1 F) :
  length ca = L -> length cb = L ->
  exists rc, bzip (fun u v => Ok (f u v)) ca cb = Ok rc /\ length rc = L.
Proof.
  intros Ha Hb.
  destruct (bzip_total (fun u v => Ok (f u v)) (fun _ => True) ca cb)
    as (rc & Hrc & Hlen & _).
  { assert (HF : Forall2 (fun (_ _ : F) => True /\ True) ca cb).
    { apply (Forall2_of_Forall (fun _ => True) (fun _ => True));
        [now rewrite Ha, Hb | apply Forall_forall; auto | apply Forall_forall; auto]. }
    eapply Forall2_impl; [|exact HF].
    intros u v _. exists (f u v). split; [reflexivity | exact I]. }
  exists rc. split; [exact Hrc | now rewrite Hlen].
Qed.

Lemma bzip2_rect (f : F -> F -> F) (C L : nat) (xa xb : tensor2 F) :
  rect2 C L xa -> rect2 C L xb ->
  exists rb, bzip (bzip (fun u v => Ok (f u v))) xa xb = Ok rb /\ rect2 C L rb.
Proof.
  intros [Hca Hra] [Hcb Hrb].
  destruct (bzip_total (bzip (fun u v => Ok (f u v))) (fun ch => length ch = L) xa xb)
    as (rb & Hrb' & Hlen & Hall).
  { assert (HF : Forall2 (fun ca cb : tensor1 F => length ca = L /\ length cb = L) xa xb).
    { apply (Forall2_of_Forall (fun ch => length ch = L) (fun ch => length ch = L));
        [now rewrite Hca, Hcb | exact Hra | exact Hrb]. }
    eapply Forall2_impl; [|exact HF].
    intros ca cb [Hla Hlb]. now apply bzip1_rect. }
  exists rb. split; [exact Hrb'|]. split; [now rewrite Hlen | exact Hall].
Qed.

Lemma binop_rect (f : F -> F -> F) (B C L : nat) (a b : tensor3 F) :
  rect3 B C L a -> rect3 B C L b ->
  exists r, binop f a b = Ok r /\ rect3 B C L r.
Proof.
  intros [Ha Halla] [Hb Hallb]. unfold binop.
  destruct (bzip_total (bzip (bzip (fun u v => Ok (f u v)))) (rect2 C L) a b)
    as (r & Hr & Hlen & Hall).
  { assert (HF : Forall2 (fun xa xb : tensor2 F => rect2 C L xa /\ rect2 C L xb) a b).
    { apply (Forall2_of_Forall (rect2 C L) (rect2 C L));
        [exact (eq_trans Ha (eq_sym Hb)) | exact Halla | exact Hallb]. }
    eapply Forall2_impl; [|exact HF].
    intros xa xb [Hxa Hxb]. now apply bzip2_rect. }
  exists r. split; [exact Hr|]. split; [now rewrite Hlen | exact Hall].
Qed.

Lemma same_shape_rect (B C L : nat) (a b : tensor3 F) :
  rect3 B C L a -> rect3 B C L b -> same_shape a b = true.
Proof.
  intros [Ha Halla] [Hb Hallb]. unfold same_shape.
  rewrite Ha, Hb, Nat.eqb_refl. cbn [andb].
  rewrite Forall_forall in Halla, Hallb.
  apply forallb_forall. intros [xa xb] Hin.
  destruct (Halla _ (in_combine_l _ _ _ _ Hin)) as [Hca Hra].
  destruct (Hallb _ (in_combine_r _ _ _ _ Hin)) as [Hcb Hrb].
  rewrite Hca, Hcb, Nat.eqb_refl. cbn [andb].
  rewrite Forall_forall in Hra, Hrb.
  apply forallb_forall. intros [ca cb] Hin2.
  rewrite (Hra _ (in_combine_l _ _ _ _ Hin2)), (Hrb _ (in_combine_r _ _ _ _ Hin2)).
  apply Nat.eqb_refl.
Qed.

(** A cell with the layers of [CellAR(num_z, num_ftr, num_c, arch)] and
    checkpointing off, in which every convolution holds a bias tensor: a
    3-tap convolution from [num_z] to [6 * num_z] channels, a depthwise
    convolution on [6 * num_z] channels, and the 1-tap projection [mu] back
    to [num_z].  The constructor gives a bias to [mu] only: the two
    convolutions of the block are built with the default [bias=False]. *)
Definition cell_with_bias (cell : CellAR.t F) (num_z : nat) : Prop :=
  exists c1 c2 m b1 b2 b3 K2 d2,
    CellAR.use_mix_log_cdf cell = false
    /\ ARInvertedResidual.checkpoint_res (CellAR.conv cell) <> 1%Z
    /\ ARInvertedResidual.layers (CellAR.conv cell)
       = [ARInvertedResidual.Conv c1; ARInvertedResidual.ELU true;
          ARInvertedResidual.Conv c2; ARInvertedResidual.ELU true]
    /\ causal_same c1 (6 * num_z) num_z 3 1 1 b1
    /\ causal_same c2 (6 * num_z) 1 K2 d2 (6 * num_z) b2
    /\ CellAR.mu cell = Some m
    /\ causal_same (ELUConv.conv_0 m) num_z (6 * num_z) 1 1 1 b3.

Lemma CellAR_forward_returns (cell : CellAR.t F) (num_z B L : nat) (z ftr : tensor3 F) :
  cell_with_bias cell num_z -> rect3 B num_z L z -> (0 < L)%nat ->
  exists new_z log_det,
    CellAR.forward cell z ftr = Ok (new_z, log_det)
    /\ rect3 B num_z L new_z /\ rect3 B num_z L log_det.
Proof.
  intros (c1 & c2 & m & b1 & b2 & b3 & K2 & d2
          & Haff & Hflag & Hlayers & Hc1 & Hc2 & Hmu & Hc3) Hz HL.
  unfold CellAR.forward, ARInvertedResidual.forward.
  rewrite Haff, Hlayers, Hmu.
  destruct (Z.eqb_spec (ARInvertedResidual.checkpoint_res (CellAR.conv cell)) 1);
    [contradiction|].
  cbn [ARInvertedResidual.sequential ARInvertedResidual.apply_layer].
  destruct (forward_causal_rect c1 _ _ _ _ _ _ B L z Hc1) as (o1 & E1 & R1);
    [now rewrite Nat.mul_1_r | exact HL |].
  rewrite E1. cbn [bind andb].
  destruct (forward_causal_rect c2 _ _ _ _ _ _ B L (elu o1) Hc2) as (o2 & E2 & R2);
    [rewrite Nat.mul_1_l; now apply map3_rect | exact HL |].
  rewrite E2. cbn [bind Py.call_method].
  unfold ELUConv.forward, checkpoint.
  destruct (forward_causal_rect (ELUConv.conv_0 m) _ _ _ _ _ _ B L (elu (elu o2)) Hc3)
    as (o3 & E3 & R3);
    [rewrite Nat.mul_1_r; now apply map3_rect, map3_rect | exact HL |].
  assert (Emu : (if (ELUConv.checkpoint_res m =? 1)%Z
                 then ARConv1d.forward (ELUConv.conv_0 m) (elu (elu o2))
                 else ARConv1d.forward (ELUConv.conv_0 m) (elu (elu o2))) = Ok o3)
    by (destruct (ELUConv.checkpoint_res m =? 1)%Z; exact E3).
  rewrite Emu. cbn [bind].
  destruct (binop_rect fsub B num_z L z o3 Hz R3) as (nz & Enz & Rnz).
  unfold tsub. rewrite Enz. cbn [bind].
  exists nz, (zeros_like nz). split; [reflexivity|].
  split; [exact Rnz | now apply map3_rect].
Qed.

(** A pair whose first block starts with a convolution without bias, as
    the constructor configures it, stops there for every input. *)
Lemma PairedCellAR_forward_without_bias (self : PairedCellAR.t F)
    (c1 : ARConv1d.t F) (rest : list (ARInvertedResidual.layer F)) (z ftr : tensor3 F) :
  ARInvertedResidual.layers (CellAR.conv (PairedCellAR.cell1 self))
  = ARInvertedResidual.Conv c1 :: rest ->
  ARConv1d.bias c1 = None ->
  PairedCellAR.forward self z ftr = Raise (AttributeError "type_as").
Proof.
  intros Hl Hb. unfold PairedCellAR.forward, CellAR.forward, ARInvertedResidual.forward.
  rewrite Hl.
  destruct (ARInvertedResidual.checkpoint_res (CellAR.conv (PairedCellAR.cell1 self)) =? 1)%Z;
    cbn [ARInvertedResidual.checkpoint_loop ARInvertedResidual.sequential
         ARInvertedResidual.apply_layer checkpoint];
    rewrite (forward_without_bias c1 z Hb); reflexivity.
Qed.

(** X1: when [PairedCellAR.forward] returns.  For a latent of shape
    (B, num_z, L) with L > 0:
    - on a pair of cells with the constructor's layers whose convolutions
      all hold bias tensors, checkpointing off, it returns, and both
      results have the shape of the latent;
    - on a pair whose first block convolution has no bias, which is how
      [CellAR.__init__] configures it, it raises [AttributeError] and
      returns nothing. *)
Theorem PairedCellAR_forward_returns (self : PairedCellAR.t F) (num_z B L : nat)
    (z ftr : tensor3 F) :
  rect3 B num_z L z -> (0 < L)%nat ->
  (cell_with_bias (PairedCellAR.cell1 self) num_z ->
   cell_with_bias (PairedCellAR.cell2 self) num_z ->
   exists new_z log_det,
     PairedCellAR.forward self z ftr = Ok (new_z, log_det)
     /\ rect3 B num_z L new_z /\ rect3 B num_z L log_det)
  /\ (forall c1 rest,
        ARInvertedResidual.layers (CellAR.conv (PairedCellAR.cell1 self))
        = ARInvertedResidual.Conv c1 :: rest ->
        ARConv1d.bias c1 = None ->
        PairedCellAR.forward self z ftr = Raise (AttributeError "type_as")).
Proof.
  intros Hz HL. split.
  - intros Hb1 Hb2. unfold PairedCellAR.forward.
    destruct (CellAR_forward_returns _ _ B L z ftr Hb1 Hz HL)
      as (z1 & ld1 & E1 & Rz1 & Rl1).
    rewrite E1. cbn [bind].
    destruct (CellAR_forward_returns _ _ B L z1 ftr Hb2 Rz1 HL)
      as (z2 & ld2 & E2 & Rz2 & Rl2).
    rewrite E2. cbn [bind].
    destruct (binop_rect fadd B num_z L ld1 ld2 Rl1 Rl2) as (r & Er & Rr).
    unfold tadd_inplace, tadd. rewrite Er. cbn [bind].
    rewrite (same_shape_rect B num_z L ld1 r Rl1 Rr).
    exists z2, r. split; [reflexivity|]. split; assumption.
  - intros c1 rest Hl Hb. now apply (PairedCellAR_forward_without_bias self c1 rest).
Qed.

End Totality.

Lemma cell_example_with_bias : cell_with_bias (F:=R) cell_example 1.
Proof.
  unfold cell_with_bias, cell_example, block_example, mu_example.
  eexists _, _, _, (repeat 0%R 6), (repeat 0%R 6), [0%R], 5%nat, 1%nat.
  split; [reflexivity|]. split; [discriminate|]. split; [reflexivity|].
  split; [|split; [|split; [reflexivity|]]].
  - constructor; try reflexivity.
    + split; [reflexivity | repeat constructor].
    + repeat split; lia.
  - constructor; try reflexivity.
    + split; [reflexivity | repeat constructor].
    + repeat split; lia.
  - constructor; try reflexivity.
    + split; [reflexivity | repeat constructor].
    + repeat split; lia.
Defined.

(** The pair as the constructor configures it: the block convolutions
    without bias, [mu] with one. *)
Definition paired_default : PairedCellAR.t R :=
  let cell := CellAR.mk (block_default 0) false None (Some mu_example) in
  PairedCellAR.mk cell cell.

Lemma PairedCellAR_forward_returns_witness :
  (exists new_z log_det,
      PairedCellAR.forward (F:=R) paired_example [[[1; 2]]]%R [] = Ok (new_z, log_det)
      /\ rect3 1 1 2 new_z /\ rect3 1 1 2 log_det)
  /\ PairedCellAR.forward paired_default [[[1; 2]]]%R []
     = Raise (AttributeError "type_as").
Proof.
  split.
  - destruct (PairedCellAR_forward_returns paired_example 1 1 2 [[[1; 2]]]%R [])
      as [Hret _].
    + split; [reflexivity | repeat constructor].
    + lia.
    + apply Hret; exact cell_example_with_bias.
  - destruct (PairedCellAR_forward_returns paired_default 1 1 2 [[[1; 2]]]%R [])
      as [_ Hnone].
    + split; [reflexivity | repeat constructor].
    + lia.
    + apply (Hnone _ _ eq_refl). reflexivity.
Defined.

(** ** The channel-coupling mask *)

Section ChannelMask.
Context {F : Type} `{Scalar F}.

Lemma nth_mapi {A B : Type} (f : nat -> A -> B) (l : list A) (d : A) (e : B) (i : nat) :
  (i < length l)%nat -> nth i (mapi f l) e = f i (nth i l d).
Proof.
  unfold mapi. change i with (0 + i)%nat at 3. generalize 0%nat as s.
  revert i. induction l as [|a l IH]; intros i s Hi; simpl in Hi; [lia|].
  destruct i as [|i]; simpl.
  - now rewrite Nat.add_0_r.
  - rewrite (IH i (S s)) by lia. f_equal. lia.
Qed.

Lemma existsb_seq (c lo len : nat) :
  existsb (Nat.eqb c) (seq lo len) = ((lo <=? c)%nat && (c <? lo + len)%nat)%bool.
Proof.
  apply eq_true_iff_eq. rewrite existsb_exists, andb_true_iff, Nat.leb_le, Nat.ltb_lt.
  split.
  - intros (x & Hin & Heq). apply in_seq in Hin. apply Nat.eqb_eq in Heq. lia.
  - intros Hc. exists c. split; [apply in_seq; lia | apply Nat.eqb_refl].
Qed.

Lemma unravel_2d (R C o j : nat) :
  (j < C)%nat -> unravel [R; C] (ravel [R; C] [o; j]) = [o; j].
Proof.
  intros Hj. cbn [unravel ravel prod fold_right].
  rewrite !Nat.mul_1_r, Nat.add_0_r, Nat.div_1_r.
  f_equal; [|f_equal].
  - symmetry. apply (Nat.div_unique _ _ _ j); lia.
  - symmetry. apply (Nat.mod_unique _ _ o); lia.
Qed.

(** Whether position [c] of an axis lies in [lo:hi], for bounds that are
    not negative. *)
Definition in_slice (lo : Z) (hi : option Z) (c : nat) : bool :=
  (lo <=? Z.of_nat c)%Z
  && match hi with Some h => (Z.of_nat c <? h)%Z | None => true end.

Lemma sel_axis_slice (n : nat) (lo : Z) (hi : option Z) :
  (0 <= lo)%Z -> (forall h, hi = Some h -> 0 <= h)%Z ->
  exists s, sel_axis n (Slice (Some lo) hi) = Ok s
            /\ forall c, (c < n)%nat -> existsb (Nat.eqb c) s = in_slice lo hi c.
Proof.
  intros Hlo Hhi. eexists. split; [reflexivity|].
  intros c Hc. rewrite existsb_seq. unfold in_slice, clamp_bound.
  destruct (Z.ltb_spec lo 0); [lia|].
  apply eq_true_iff_eq. destruct hi as [h|].
  - specialize (Hhi h eq_refl). destruct (Z.ltb_spec h 0); [lia|].
    rewrite !andb_true_iff, Nat.leb_le, Nat.ltb_lt, Z.leb_le, Z.ltb_lt. lia.
  - rewrite !andb_true_iff, Nat.leb_le, Nat.ltb_lt, Z.leb_le. lia.
Qed.

Lemma setitem_scalar_2d (a : ndarray F) (R C : nat) (lo1 lo2 : Z) (hi1 hi2 : option Z)
    (v : F) :
  shape a = [R; C] -> length (data a) = (R * C)%nat ->
  (0 <= lo1)%Z -> (0 <= lo2)%Z ->
  (forall h, hi1 = Some h -> 0 <= h)%Z -> (forall h, hi2 = Some h -> 0 <= h)%Z ->
  exists a', setitem_scalar a [Slice (Some lo1) hi1; Slice (Some lo2) hi2] v = Ok a'
    /\ shape a' = [R; C] /\ length (data a') = (R * C)%nat
    /\ forall o j, (o < R)%nat -> (j < C)%nat ->
         item2 a' o j
         = if in_slice lo1 hi1 o && in_slice lo2 hi2 j then v else item2 a o j.
Proof.
  intros Hsh Hlen Hlo1 Hlo2 Hhi1 Hhi2.
  destruct (sel_axis_slice R lo1 hi1 Hlo1 Hhi1) as (s1 & E1 & Hs1).
  destruct (sel_axis_slice C lo2 hi2 Hlo2 Hhi2) as (s2 & E2 & Hs2).
  unfold setitem_scalar, selection, ndim. rewrite Hsh.
  cbn [length Nat.ltb Nat.leb Nat.sub repeat app mapM2].
  rewrite E1. cbn [bind]. rewrite E2. cbn [bind].
  eexists. split; [reflexivity|]. cbn [shape data].
  split; [reflexivity|]. split; [now rewrite mapi_length|].
  intros o j Ho Hj. unfold item2. cbn [shape data].
  assert (Hpos : (ravel [R; C] [o; j] < length (data a))%nat).
  { rewrite Hlen. cbn [ravel prod fold_right]. nia. }
  rewrite (nth_mapi _ _ fzero) by exact Hpos.
  rewrite Hsh, unravel_2d by exact Hj.
  cbn [selected]. rewrite Hs1, Hs2, andb_true_r by assumption. reflexivity.
Qed.


Lemma for_each_range_inv {S : Type} (Inv : nat -> S -> Prop) (body : S -> Z -> result S)
    (n : nat) :
  (forall t s, (t < n)%nat -> Inv t s ->
               exists s', body s (Z.of_nat t) = Ok s' /\ Inv (Datatypes.S t) s') ->
  forall k t s, (t + k = n)%nat -> Inv t s ->
    exists s', for_each (map Z.of_nat (seq t k)) body s = Ok s' /\ Inv n s'.
Proof.
  intros Hstep. induction k as [|k IH]; intros t s Hn Hinv; simpl.
  - exists s. split; [reflexivity|]. now replace n with t by lia.
  - destruct (Hstep t s) as (s1 & E1 & Hinv1); [lia | assumption |].
    rewrite E1. cbn [bind]. apply IH; [lia | assumption].
Qed.

Lemma ones_2d (a b : nat) :
  ones (F:=F) [Z.of_nat a; Z.of_nat b] = Ok (mk_ndarray [a; b] (repeat fone (a * b))).
Proof.
  unfold ones. cbn [existsb map prod fold_right].
  destruct (Z.ltb_spec (Z.of_nat a) 0); [lia|].
  destruct (Z.ltb_spec (Z.of_nat b) 0); [lia|].
  cbn [orb]. now rewrite !Nat2Z.id, Nat.mul_1_r.
Qed.

Lemma item2_ones (a b o j : nat) :
  (o < a)%nat -> (j < b)%nat ->
  item2 (mk_ndarray [a; b] (repeat fone (a * b))) o j = fone.
Proof.
  intros Ho Hj. unfold item2. cbn [shape data].
  apply nth_repeat_lt. cbn [ravel prod fold_right]. nia.
Qed.

(** The entries [channel_mask] leaves at one: input channel [j] is visible
    to output channel [o], whose block is [o / ratio]. *)
Definition visible (ratio : nat) (zero_diag : bool) (o j : nat) : bool :=
  if zero_diag then (j <? o / ratio)%nat else (j <=? o / ratio)%nat.

(** X3: [channel_mask] with [g_in = 1] and [c_out = ratio * c_in]
    (c_in > 0, ratio > 0) returns an array of shape (c_out, c_in) whose
    entry (o, j) is one when j <= o // ratio (j < o // ratio when
    [zero_diag] is set) and zero otherwise. *)
Theorem channel_mask_entries (c_in ratio : nat) (zero_diag : bool) :
  (0 < c_in)%nat -> (0 < ratio)%nat ->
  exists mask : ndarray F,
    channel_mask (Z.of_nat c_in) 1 (Z.of_nat (ratio * c_in)) zero_diag = Ok mask
    /\ shape mask = [(ratio * c_in)%nat; c_in]
    /\ forall o j, (o < ratio * c_in)%nat -> (j < c_in)%nat ->
         item2 mask o j = if visible ratio zero_diag o j then fone else fzero.
Proof.
  intros Hn Hr. unfold channel_mask, pymod, floordiv.
  destruct (Z.eqb_spec (Z.of_nat (ratio * c_in)) 0) as [|_]; [nia|]. cbn [bind].
  destruct (Z.eqb_spec (Z.of_nat c_in) 0) as [|_]; [lia|].
  assert (Hdiv : (Z.of_nat (ratio * c_in) mod Z.of_nat c_in = 0)%Z)
    by (rewrite Nat2Z.inj_mul; apply Z_mod_mult).
  assert (Hquo : (Z.of_nat (ratio * c_in) / Z.of_nat c_in = Z.of_nat ratio)%Z)
    by (rewrite Nat2Z.inj_mul; apply Z.div_mul; lia).
  assert (Hassert : (if (Z.of_nat c_in mod Z.of_nat (ratio * c_in) =? 0)%Z
                     then Ok true
                     else r2 <- Ok (Z.of_nat (ratio * c_in) mod Z.of_nat c_in)%Z ;;
                          Ok (r2 =? 0)%Z) = Ok true).
  { destruct (_ =? 0)%Z; [reflexivity|]. cbn [bind]. now rewrite Hdiv. }
  rewrite Hassert. cbn [bind py_assert Z.eqb Pos.eqb orb].
  rewrite ones_2d. cbn [bind].
  destruct (Z.geb_spec (Z.of_nat (ratio * c_in)) (Z.of_nat c_in)) as [_|]; [|nia].
  rewrite Hquo.
  pose (Inv := fun (t : nat) (m : ndarray F) =>
    shape m = [(ratio * c_in)%nat; c_in]
    /\ length (data m) = (ratio * c_in * c_in)%nat
    /\ forall o j, (o < ratio * c_in)%nat -> (j < c_in)%nat ->
         item2 m o j = if (o / ratio <? t)%nat && negb (visible ratio zero_diag o j)
                       then fzero else fone).
  unfold Py.range. rewrite Nat2Z.id.
  match goal with
  | |- exists mask, for_each _ ?body ?m0 = Ok mask /\ _ =>
      destruct (for_each_range_inv Inv body c_in) with (k := c_in) (t := 0%nat) (s := m0)
        as (mask & Emask & Hsh & _ & Hent)
  end.
  - intros t m Ht (Hsh & Hlen & Hent).
    destruct (setitem_scalar_2d m _ _
                (Z.of_nat t * Z.of_nat ratio) (Z.of_nat t + 1)
                (Some ((Z.of_nat t + 1) * Z.of_nat ratio)%Z) None fzero Hsh Hlen)
      as (m1 & E1 & Hsh1 & Hlen1 & Hent1); try lia;
      [intros h Hh; inversion Hh; lia | discriminate |].
    rewrite E1. cbn [bind].
    assert (Hblock : forall o, in_slice (Z.of_nat t * Z.of_nat ratio)
                                 (Some ((Z.of_nat t + 1) * Z.of_nat ratio)%Z) o
                               = (o / ratio =? t)%nat).
    { intros o. unfold in_slice. apply eq_true_iff_eq.
      rewrite andb_true_iff, Z.leb_le, Z.ltb_lt, Nat.eqb_eq.
      pose proof (Nat.div_mod_eq o ratio) as Hdm.
      pose proof (Nat.mod_upper_bound o ratio ltac:(lia)) as Hub.
      split; intros Hc; nia. }
    destruct zero_diag.
    + destruct (setitem_scalar_2d m1 _ _
                  (Z.of_nat t * Z.of_nat ratio) (Z.of_nat t)
                  (Some ((Z.of_nat t + 1) * Z.of_nat ratio)%Z) (Some (Z.of_nat t + 1)%Z)
                  fzero Hsh1 Hlen1)
        as (m2 & E2 & Hsh2 & Hlen2 & Hent2); try lia;
        [intros h Hh; inversion Hh; lia | intros h Hh; inversion Hh; lia |].
      exists m2. split; [exact E2|]. split; [exact Hsh2|]. split; [exact Hlen2|].
      intros o j Ho Hj. rewrite Hent2, Hent1, Hent, !Hblock by assumption.
      unfold in_slice, visible.
      destruct (Nat.eqb_spec (o / ratio) t) as [->|Hne]; cbn [andb].
      * destruct (Z.leb_spec (Z.of_nat t) (Z.of_nat j)),
                 (Z.leb_spec (Z.of_nat t + 1) (Z.of_nat j)),
                 (Z.ltb_spec (Z.of_nat j) (Z.of_nat t + 1)),
                 (Nat.ltb_spec t (S t)), (Nat.ltb_spec t t), (Nat.ltb_spec j t);
          cbn [andb negb]; try reflexivity; lia.
      * destruct (Nat.ltb_spec (o / ratio) t), (Nat.ltb_spec (o / ratio) (S t));
          try reflexivity; lia.
    + exists m1. split; [reflexivity|]. split; [exact Hsh1|]. split; [exact Hlen1|].
      intros o j Ho Hj. rewrite Hent1, Hent, !Hblock by assumption.
      unfold in_slice, visible.
      destruct (Nat.eqb_spec (o / ratio) t) as [->|Hne]; cbn [andb].
      * destruct (Z.leb_spec (Z.of_nat t + 1) (Z.of_nat j)),
                 (Nat.ltb_spec t (S t)), (Nat.ltb_spec t t), (Nat.leb_spec j t);
          cbn [andb negb]; try reflexivity; lia.
      * destruct (Nat.ltb_spec (o / ratio) t), (Nat.ltb_spec (o / ratio) (S t));
          try reflexivity; lia.
  - lia.
  - split; [reflexivity|]. split; [cbn [data]; now rewrite repeat_length|].
    intros o j Ho Hj. now rewrite item2_ones.
  - exists mask. split; [exact Emask|]. split; [exact Hsh|].
    intros o j Ho Hj. rewrite Hent by assumption.
    assert (Hlt : (o / ratio < c_in)%nat) by (apply Nat.Div0.div_lt_upper_bound; lia).
    destruct (Nat.ltb_spec (o / ratio) c_in); [|lia]. cbn [andb].
    now destruct (visible ratio zero_diag o j).
Qed.


(** The entries [channel_mask] leaves at one when the inputs outnumber the
    outputs: output channel [o] sees the input channels before the end of
    its block (before its start when [zero_diag] is set). *)
Definition visible_in (ratio : nat) (zero_diag : bool) (o j : nat) : bool :=
  if zero_diag then (j <? o * ratio)%nat else (j <? (o + 1) * ratio)%nat.

(** X4: [channel_mask] with [g_in = 1] and [c_in = ratio * c_out]
    (c_out > 0, ratio > 1) returns an array of shape (c_out, c_in) whose
    entry (o, j) is one when j < (o + 1) * ratio (j < o * ratio when
    [zero_diag] is set) and zero otherwise. *)
Theorem channel_mask_entries_wide (c_out ratio : nat) (zero_diag : bool) :
  (0 < c_out)%nat -> (1 < ratio)%nat ->
  exists mask : ndarray F,
    channel_mask (Z.of_nat (ratio * c_out)) 1 (Z.of_nat c_out) zero_diag = Ok mask
    /\ shape mask = [c_out; (ratio * c_out)%nat]
    /\ forall o j, (o < c_out)%nat -> (j < ratio * c_out)%nat ->
         item2 mask o j = if visible_in ratio zero_diag o j then fone else fzero.
Proof.
  intros Hn Hr. unfold channel_mask, pymod, floordiv.
  destruct (Z.eqb_spec (Z.of_nat c_out) 0) as [|_]; [lia|]. cbn [bind].
  assert (Hdiv : (Z.of_nat (ratio * c_out) mod Z.of_nat c_out = 0)%Z)
    by (rewrite Nat2Z.inj_mul; apply Z_mod_mult).
  assert (Hquo : (Z.of_nat (ratio * c_out) / Z.of_nat c_out = Z.of_nat ratio)%Z)
    by (rewrite Nat2Z.inj_mul; apply Z.div_mul; lia).
  rewrite Hdiv. cbn [Z.eqb bind py_assert Pos.eqb orb].
  rewrite ones_2d. cbn [bind].
  destruct (Z.geb_spec (Z.of_nat c_out) (Z.of_nat (ratio * c_out))) as [|_]; [nia|].
  rewrite Hquo.
  pose (Inv := fun (t : nat) (m : ndarray F) =>
    shape m = [c_out; (ratio * c_out)%nat]
    /\ length (data m) = (c_out * (ratio * c_out))%nat
    /\ forall o j, (o < c_out)%nat -> (j < ratio * c_out)%nat ->
         item2 m o j = if (o <? t)%nat && negb (visible_in ratio zero_diag o j)
                       then fzero else fone).
  unfold Py.range. rewrite Nat2Z.id.
  match goal with
  | |- exists mask, for_each _ ?body ?m0 = Ok mask /\ _ =>
      destruct (for_each_range_inv Inv body c_out) with (k := c_out) (t := 0%nat) (s := m0)
        as (mask & Emask & Hsh & _ & Hent)
  end.
  - intros t m Ht (Hsh & Hlen & Hent).
    destruct (setitem_scalar_2d m _ _
                (Z.of_nat t) ((Z.of_nat t + 1) * Z.of_nat ratio)
                (Some (Z.of_nat t + 1)%Z) None fzero Hsh Hlen)
      as (m1 & E1 & Hsh1 & Hlen1 & Hent1); try lia;
      [intros h Hh; inversion Hh; lia | discriminate |].
    rewrite E1. cbn [bind].
    assert (Hrow : forall o, in_slice (Z.of_nat t) (Some (Z.of_nat t + 1)%Z) o
                             = (o =? t)%nat).
    { intros o. unfold in_slice. apply eq_true_iff_eq.
      rewrite andb_true_iff, Z.leb_le, Z.ltb_lt, Nat.eqb_eq. lia. }
    destruct zero_diag.
    + destruct (setitem_scalar_2d m1 _ _
                  (Z.of_nat t) (Z.of_nat t * Z.of_nat ratio)
                  (Some (Z.of_nat t + 1)%Z) (Some ((Z.of_nat t + 1) * Z.of_nat ratio)%Z)
                  fzero Hsh1 Hlen1)
        as (m2 & E2 & Hsh2 & Hlen2 & Hent2); try lia;
        [intros h Hh; inversion Hh; lia | intros h Hh; inversion Hh; lia |].
      exists m2. split; [exact E2|]. split; [exact Hsh2|]. split; [exact Hlen2|].
      intros o j Ho Hj. rewrite Hent2, Hent1, Hent, !Hrow by assumption.
      unfold in_slice, visible_in.
      destruct (Nat.eqb_spec o t) as [->|Hne]; cbn [andb].
      * destruct (Z.leb_spec (Z.of_nat t * Z.of_nat ratio) (Z.of_nat j)),
                 (Z.leb_spec ((Z.of_nat t + 1) * Z.of_nat ratio) (Z.of_nat j)),
                 (Z.ltb_spec (Z.of_nat j) ((Z.of_nat t + 1) * Z.of_nat ratio)),
                 (Nat.ltb_spec t (S t)), (Nat.ltb_spec t t), (Nat.ltb_spec j (t * ratio));
          cbn [andb negb]; try reflexivity; nia.
      * destruct (Nat.ltb_spec o t), (Nat.ltb_spec o (S t));
          try reflexivity; lia.
    + exists m1. split; [reflexivity|]. split; [exact Hsh1|]. split; [exact Hlen1|].
      intros o j Ho Hj. rewrite Hent1, Hent, !Hrow by assumption.
      unfold in_slice, visible_in.
      destruct (Nat.eqb_spec o t) as [->|Hne]; cbn [andb].
      * destruct (Z.leb_spec ((Z.of_nat t + 1) * Z.of_nat ratio) (Z.of_nat j)),
                 (Nat.ltb_spec t (S t)), (Nat.ltb_spec t t),
                 (Nat.ltb_spec j ((t + 1) * ratio));
          cbn [andb negb]; try reflexivity; nia.
      * destruct (Nat.ltb_spec o t), (Nat.ltb_spec o (S t));
          try reflexivity; lia.
  - lia.
  - split; [reflexivity|]. split; [cbn [data]; now rewrite repeat_length|].
    intros o j Ho Hj. now rewrite item2_ones.
  - exists mask. split; [exact Emask|]. split; [exact Hsh|].
    intros o j Ho Hj. rewrite Hent by assumption.
    destruct (Nat.ltb_spec o c_out); [|lia]. cbn [andb].
    now destruct (visible_in ratio zero_diag o j).
Qed.

End ChannelMask.

Lemma channel_mask_entries_witness :
  exists mask : ndarray R,
    channel_mask (Z.of_nat 2) 1 (Z.of_nat (3 * 2)) true = Ok mask
    /\ shape mask = [(3 * 2)%nat; 2%nat]
    /\ forall o j, (o < 3 * 2)%nat -> (j < 2)%nat ->
         item2 mask o j = if visible 3 true o j then fone else fzero.
Proof. apply (channel_mask_entries 2 3 true); lia. Defined.

Lemma channel_mask_entries_wide_witness :
  exists mask : ndarray R,
    channel_mask (Z.of_nat (3 * 2)) 1 (Z.of_nat 2) false = Ok mask
    /\ shape mask = [2%nat; (3 * 2)%nat]
    /\ forall o j, (o < 2)%nat -> (j < 3 * 2)%nat ->
         item2 mask o j = if visible_in 3 false o j then fone else fzero.
Proof. apply (channel_mask_entries_wide 2 3 false); lia. Defined.

Example channel_mask_2_to_4 :
  channel_mask (F:=R) 2 1 4 false
  = Ok (mk_ndarray [4; 2]%nat [1; 0; 1; 0; 1; 1; 1; 1]%R).
Proof. reflexivity. Qed.

(** ** The checkpointed loop of [ARInvertedResidual.forward] on every input *)

Section CheckpointLoop.
Context {F : Type} `{Scalar F}.

(** X5: with the flag on, a block of the constructor's shape (num_z > 0
    latent channels, hidden_dim = 6 * num_z) raises on every batch [z] that
    is not empty: both convolutions are given [z], and they expect
    different channel counts. *)
Theorem ARInvertedResidual_checkpoint_raises (blk : ARInvertedResidual.t F)
    (num_z : nat) (z ftr : tensor3 F) :
  block_shape blk num_z -> (0 < num_z)%nat -> z <> [] ->
  ARInvertedResidual.checkpoint_res blk = 1%Z ->
  raises (ARInvertedResidual.forward blk z ftr).
Proof.
  intros (c1 & c2 & Hl & Hn1 & Hn2) Hnz Hz Hflag.
  unfold ARInvertedResidual.forward. rewrite Hl, Hflag.
  cbn [Z.eqb Pos.eqb ARInvertedResidual.checkpoint_loop ARInvertedResidual.apply_layer
       checkpoint].
  destruct (ARConv1d.forward c1 z) as [o1|e1] eqn:E1; [|exists e1; reflexivity].
  cbn [bind].
  destruct (ARConv1d.forward c2 (elu z)) as [o2|e2] eqn:E2; [|exists e2; reflexivity].
  exfalso. apply ARConv1d_forward_Ok_channels in E1, E2.
  destruct z as [|xb z]; [contradiction|].
  inversion E1 as [|? ? H1 _]; subst. unfold elu, map3 in E2. simpl in E2.
  inversion E2 as [|? ? H2 _]; subst. rewrite length_map in H2. lia.
Qed.

(** X6: a block whose first convolution has no bias, as
    [ARConv1d(..., bias=False)] registers it, stops at [bias.type_as(x)]
    with the flag on and with the flag off alike. *)
Theorem ARInvertedResidual_forward_without_bias (blk : ARInvertedResidual.t F)
    (c1 : ARConv1d.t F) (rest : list (ARInvertedResidual.layer F)) (z ftr : tensor3 F) :
  ARInvertedResidual.layers blk = ARInvertedResidual.Conv c1 :: rest ->
  ARConv1d.bias c1 = None ->
  ARInvertedResidual.forward blk z ftr = Raise (AttributeError "type_as").
Proof.
  intros Hl Hb. unfold ARInvertedResidual.forward. rewrite Hl.
  destruct (ARInvertedResidual.checkpoint_res blk =? 1)%Z;
    cbn [ARInvertedResidual.checkpoint_loop ARInvertedResidual.sequential
         ARInvertedResidual.apply_layer checkpoint];
    unfold ARConv1d.forward; rewrite Hb; reflexivity.
Qed.

End CheckpointLoop.

Lemma ARInvertedResidual_checkpoint_raises_witness :
  raises (ARInvertedResidual.forward (F:=R) (block_example 1) [[[1; 2]]]%R []).
Proof.
  apply (ARInvertedResidual_checkpoint_raises (block_example 1) 1 [[[1; 2]]]%R []).
  - unfold block_shape, block_example. do 2 eexists.
    split; [reflexivity|]. split; reflexivity.
  - lia.
  - discriminate.
  - reflexivity.
Defined.

Definition block_without_bias (checkpoint_res : Z) : ARInvertedResidual.t R :=
  ARInvertedResidual.mk
    [ARInvertedResidual.Conv
       (ARConv1d.mk 1 6 3 1 2 1 1 (repeat [[1; 1; 1]]%R 6) None true "SAME"
          (repeat [[0%R]] 6));
     ARInvertedResidual.ELU true]
    checkpoint_res 6.

Lemma ARInvertedResidual_forward_without_bias_witness :
  ARInvertedResidual.forward (block_without_bias 1) [[[1%R]]] []
  = Raise (AttributeError "type_as")
  /\ ARInvertedResidual.forward (block_without_bias 0) [[[1%R]]] []
     = Raise (AttributeError "type_as").
Proof.
  split.
  - apply (ARInvertedResidual_forward_without_bias (block_without_bias 1) _ _
             [[[1%R]]] [] eq_refl eq_refl).
  - apply (ARInvertedResidual_forward_without_bias (block_without_bias 0) _ _
             [[[1%R]]] [] eq_refl eq_refl).
Defined.

(** ** The towers of the orchestrator *)

(** Number of cells of type [ty] among the types of a tower. *)
Definition count_cells (ty : string) (types : list string) : nat :=
  length (filter (fun t => (t =? ty)%string) types).

Lemma count_cells_app (ty : string) (a b : list string) :
  count_cells ty (a ++ b) = (count_cells ty a + count_cells ty b)%nat.
Proof. unfold count_cells. now rewrite filter_app, length_app. Qed.

Lemma count_cells_repeat (ty ty' : string) (n : nat) :
  (ty' =? ty)%string = false -> count_cells ty (repeat ty' n) = 0%nat.
Proof.
  intros Hne. unfold count_cells. induction n as [|n IH]; simpl; [reflexivity|].
  now rewrite Hne.
Qed.

Lemma count_cells_single (ty ty' : string) :
  count_cells ty [ty'] = if (ty' =? ty)%string then 1%nat else 0%nat.
Proof. unfold count_cells. simpl. now destruct (ty' =? ty)%string. Qed.

Lemma encoder_scale_cells_count (nls nc s n : Z) (acc : list string) :
  exists acc',
    AutoEncoder.encoder_scale_cells nls nc s n acc = Ok acc'
    /\ count_cells "combiner_enc" acc'
       = (count_cells "combiner_enc" acc
          + (Z.to_nat n - (if ((s =? nls - 1) && (0 <? n))%Z then 1 else 0)))%nat.
Proof.
  unfold AutoEncoder.encoder_scale_cells, Py.range.
  pose (Inv := fun (t : nat) (a : list string) =>
    count_cells "combiner_enc" a
    = (count_cells "combiner_enc" acc
       + (t - (if ((s =? nls - 1) && (n - 1 <? Z.of_nat t))%Z then 1 else 0)))%nat).
  match goal with
  | |- exists acc', for_each _ ?body _ = Ok acc' /\ _ =>
      destruct (for_each_range_inv Inv body (Z.to_nat n)) with
        (k := Z.to_nat n) (t := 0%nat) (s := acc) as (acc' & E & Hinv)
  end.
  - intros t a Ht Ha. unfold Inv in *.
    destruct (s =? nls - 1)%Z; cbn [andb negb] in *.
    + destruct (Z.eqb_spec (Z.of_nat t) (n - 1)); cbn [negb];
        (eexists; split; [reflexivity|]);
        rewrite ?count_cells_app, count_cells_repeat, Ha by reflexivity;
        destruct (Z.ltb_spec (n - 1) (Z.of_nat t)),
                 (Z.ltb_spec (n - 1) (Z.of_nat (S t)));
        rewrite ?count_cells_single; simpl; lia.
    + eexists; split; [reflexivity|].
      rewrite !count_cells_app, count_cells_repeat, count_cells_single, Ha by reflexivity.
      simpl. lia.
  - lia.
  - unfold Inv. destruct ((s =? nls - 1)%Z && (n - 1 <? Z.of_nat 0)%Z); lia.
  - exists acc'. split; [exact E|]. unfold Inv in Hinv. rewrite Hinv.
    destruct (s =? nls - 1)%Z; cbn [andb]; [|reflexivity].
    destruct (Z.ltb_spec (n - 1) (Z.of_nat (Z.to_nat n))), (Z.ltb_spec 0 n); lia.
Qed.

Lemma decoder_scale_cells_count (nc s n : Z) (acc : list string) :
  exists acc',
    AutoEncoder.decoder_scale_cells nc s n acc = Ok acc'
    /\ count_cells "combiner_dec" acc'
       = (count_cells "combiner_dec" acc + Z.to_nat n)%nat.
Proof.
  unfold AutoEncoder.decoder_scale_cells, Py.range.
  pose (Inv := fun (t : nat) (a : list string) =>
    count_cells "combiner_dec" a = (count_cells "combiner_dec" acc + t)%nat).
  match goal with
  | |- exists acc', for_each _ ?body _ = Ok acc' /\ _ =>
      destruct (for_each_range_inv Inv body (Z.to_nat n)) with
        (k := Z.to_nat n) (t := 0%nat) (s := acc) as (acc' & E & Hinv)
  end.
  - intros t a Ht Ha. eexists. split; [reflexivity|]. unfold Inv in *.
    destruct (negb _);
      rewrite ?count_cells_app, ?count_cells_repeat, count_cells_single, Ha by reflexivity;
      simpl; lia.
  - lia.
  - unfold Inv. lia.
  - exists acc'. split; [exact E | exact Hinv].
Qed.

Lemma list_sum_firstn_S (f : Z -> nat) (l : list Z) (t : nat) :
  (t < length l)%nat ->
  list_sum (map f (firstn (S t) l))
  = (list_sum (map f (firstn t l)) + f (nth t l 0%Z))%nat.
Proof.
  revert t. induction l as [|a l IH]; intros t Ht; simpl in Ht; [lia|].
  destruct t as [|t]; [simpl; lia|].
  change (firstn (S (S t)) (a :: l)) with (a :: firstn (S t) l).
  change (firstn (S t) (a :: l)) with (a :: firstn t l).
  unfold list_sum in *. cbn [map fold_right nth]. rewrite IH by lia. lia.
Qed.

Lemma list_sum_rev (l : list nat) : list_sum (rev l) = list_sum l.
Proof.
  induction l as [|a l IH]; [reflexivity|].
  simpl. rewrite list_sum_app, IH. simpl. lia.
Qed.

Lemma index_nth (l : list Z) (t : nat) :
  (t < length l)%nat -> Py.index l (Z.of_nat t) = Ok (nth t l 0%Z).
Proof.
  intros Ht. apply index_nat. now apply nth_error_nth'.
Qed.

Section Towers.
Context {T : Type} `{AutoEncoder.Env T}.

Lemma count_type_cells (ty : string) (cells : list (AutoEncoder.cell T)) :
  count_type ty cells = count_cells ty (map AutoEncoder.cell_type cells).
Proof.
  unfold count_type, count_cells, is_type.
  induction cells as [|c cells IH]; simpl; [reflexivity|].
  destruct (AutoEncoder.cell_type c =? ty)%string; simpl; now rewrite IH.
Qed.

(** X7: for [groups_per_scale] holding one entry per latent scale, the
    last of them positive, both tower constructors return, and the decoder
    tower holds exactly one 'combiner_dec' cell more than the encoder tower
    holds 'combiner_enc' cells; so does every model whose towers have these
    cell types. *)
Theorem towers_combiner_counts (groups_per_scale : list Z)
    (num_cell_per_cond_enc num_cell_per_cond_dec : Z) :
  (0 < nth (length groups_per_scale - 1) groups_per_scale 0)%Z ->
  exists enc dec,
    AutoEncoder.init_encoder_tower (Z.of_nat (length groups_per_scale)) groups_per_scale
      num_cell_per_cond_enc = Ok enc
    /\ AutoEncoder.init_decoder_tower (Z.of_nat (length groups_per_scale)) groups_per_scale
         num_cell_per_cond_dec = Ok dec
    /\ count_cells "combiner_dec" dec = S (count_cells "combiner_enc" enc)
    /\ forall self : AutoEncoder.t T,
         map AutoEncoder.cell_type (AutoEncoder.enc_tower self) = enc ->
         map AutoEncoder.cell_type (AutoEncoder.dec_tower self) = dec ->
         count_type "combiner_dec" (AutoEncoder.dec_tower self)
         = S (count_type "combiner_enc" (AutoEncoder.enc_tower self)).
Proof.
  intros Hlast.
  set (N := length groups_per_scale) in *.
  assert (HN : (0 < N)%nat).
  { destruct groups_per_scale; [simpl in Hlast; lia | unfold N; simpl; lia]. }
  set (total := fun t => list_sum (map Z.to_nat (firstn t groups_per_scale))).
  (* encoder *)
  assert (Henc : exists enc,
             AutoEncoder.init_encoder_tower (Z.of_nat N) groups_per_scale num_cell_per_cond_enc
             = Ok enc
             /\ count_cells "combiner_enc" enc = (total N - 1)%nat).
  { unfold AutoEncoder.init_encoder_tower, Py.range. rewrite Nat2Z.id.
    pose (Inv := fun (t : nat) (a : list string) =>
      count_cells "combiner_enc" a
      = (total t - (if (N <=? t)%nat then 1 else 0))%nat).
    match goal with
    | |- exists enc, for_each _ ?body _ = Ok enc /\ _ =>
        destruct (for_each_range_inv Inv body N) with
          (k := N) (t := 0%nat) (s := @nil string) as (enc & E & Hinv)
    end.
    - intros t a Ht Ha. unfold Inv in *.
      rewrite (index_nth _ _ Ht). cbn [bind].
      destruct (encoder_scale_cells_count (Z.of_nat N) num_cell_per_cond_enc
                  (Z.of_nat t) (nth t groups_per_scale 0%Z) a) as (a1 & E1 & H1).
      rewrite E1. cbn [bind].
      assert (Hcount : count_cells "combiner_enc" a1
                       = (total (S t) - (if (N <=? S t)%nat then 1 else 0))%nat).
      { rewrite H1, Ha. unfold total. rewrite list_sum_firstn_S by exact Ht.
        destruct (Nat.leb_spec N t); [lia|].
        destruct (Z.eqb_spec (Z.of_nat t) (Z.of_nat N - 1)) as [Heq|Hne];
          destruct (Nat.leb_spec N (S t)); try lia; cbn [andb].
        - assert (Ht' : t = (N - 1)%nat) by lia. subst t.
          destruct (Z.ltb_spec 0 (nth (N - 1) groups_per_scale 0%Z)); lia.
        - lia. }
      destruct (Z.of_nat t <? Z.of_nat N - 1)%Z; eexists; (split; [reflexivity|]).
      + rewrite count_cells_app, count_cells_single, Hcount. simpl. lia.
      + exact Hcount.
    - lia.
    - unfold Inv, total. destruct (Nat.leb_spec N 0); [lia | reflexivity].
    - exists enc. split; [exact E|]. unfold Inv in Hinv. rewrite Hinv.
      now rewrite Nat.leb_refl. }
  (* decoder *)
  assert (Hdec : exists dec,
             AutoEncoder.init_decoder_tower (Z.of_nat N) groups_per_scale num_cell_per_cond_dec
             = Ok dec
             /\ count_cells "combiner_dec" dec = total N).
  { unfold AutoEncoder.init_decoder_tower, Py.range. rewrite Nat2Z.id.
    pose (Inv := fun (t : nat) (a : list string) =>
      count_cells "combiner_dec" a
      = list_sum (map Z.to_nat (firstn t (rev groups_per_scale)))).
    match goal with
    | |- exists dec, for_each _ ?body _ = Ok dec /\ _ =>
        destruct (for_each_range_inv Inv body N) with
          (k := N) (t := 0%nat) (s := @nil string) as (dec & E & Hinv)
    end.
    - intros t a Ht Ha. unfold Inv in *.
      replace (Z.of_nat N - Z.of_nat t - 1)%Z with (Z.of_nat (N - S t)) by lia.
      rewrite index_nth by (fold N; lia). cbn [bind].
      destruct (decoder_scale_cells_count num_cell_per_cond_dec (Z.of_nat t)
                  (nth (N - S t) groups_per_scale 0%Z) a) as (a1 & E1 & H1).
      rewrite E1. cbn [bind].
      assert (Hcount : count_cells "combiner_dec" a1
                       = list_sum (map Z.to_nat (firstn (S t) (rev groups_per_scale)))).
      { rewrite H1, Ha, list_sum_firstn_S by (rewrite length_rev; exact Ht).
        rewrite rev_nth by exact Ht. reflexivity. }
      destruct (Z.of_nat t <? Z.of_nat N - 1)%Z; eexists; (split; [reflexivity|]).
      + rewrite count_cells_app, count_cells_single, Hcount. simpl. lia.
      + exact Hcount.
    - lia.
    - reflexivity.
    - exists dec. split; [exact E|]. unfold Inv in Hinv. rewrite Hinv. unfold total.
      rewrite !firstn_all2 by (rewrite ?length_rev; fold N; lia).
      now rewrite map_rev, list_sum_rev. }
  destruct Henc as (enc & Eenc & Cenc). destruct Hdec as (dec & Edec & Cdec).
  assert (Hpos : (1 <= total N)%nat).
  { unfold total. replace N with (S (N - 1)) at 1 by lia.
    rewrite list_sum_firstn_S by (fold N; lia). lia. }
  assert (Hcnt : count_cells "combiner_dec" dec = S (count_cells "combiner_enc" enc))
    by lia.
  exists enc, dec. split; [exact Eenc|]. split; [exact Edec|]. split; [exact Hcnt|].
  intros self Hte Htd. rewrite !count_type_cells, Hte, Htd. exact Hcnt.
Qed.

End Towers.

Example towers_example :
  AutoEncoder.init_encoder_tower 2 [2; 1]%Z 1
  = Ok ["normal_enc"; "combiner_enc"; "normal_enc"; "combiner_enc"; "down_enc";
        "normal_enc"]
  /\ AutoEncoder.init_decoder_tower 2 [2; 1]%Z 1
     = Ok ["combiner_dec"; "up_dec"; "normal_dec"; "combiner_dec"; "normal_dec";
           "combiner_dec"].
Proof. split; reflexivity. Qed.

Lemma towers_combiner_counts_witness :
  exists enc dec,
    AutoEncoder.init_encoder_tower (Z.of_nat (length [2; 1]%Z)) [2; 1]%Z 1 = Ok enc
    /\ AutoEncoder.init_decoder_tower (Z.of_nat (length [2; 1]%Z)) [2; 1]%Z 1 = Ok dec
    /\ count_cells "combiner_dec" dec = S (count_cells "combiner_enc" enc)
    /\ forall self : AutoEncoder.t Z,
         map AutoEncoder.cell_type (AutoEncoder.enc_tower self) = enc ->
         map AutoEncoder.cell_type (AutoEncoder.dec_tower self) = dec ->
         count_type "combiner_dec" (AutoEncoder.dec_tower self)
         = S (count_type "combiner_enc" (AutoEncoder.enc_tower self)).
Proof. apply (towers_combiner_counts (T:=Z) [2; 1]%Z 1 1). simpl. lia. Defined.

(** ** AutoEncoder.forward: one KL term per latent group *)

Section ForwardLatents.
Context {T : Type} `{AutoEncoder.Env T}.
Variable self : AutoEncoder.t T.
Variable eps : Z -> T.

(** The four lists [forward] zips hold [n] entries each, and [nf_offset]
    has advanced by [num_flows] per entry. *)
Definition group_lists (st : AutoEncoder.dec_state T) (n : nat) : Prop :=
  length (AutoEncoder.all_q st) = n
  /\ length (AutoEncoder.all_log_q st) = n
  /\ length (AutoEncoder.all_p st) = n
  /\ length (AutoEncoder.all_log_p st) = n
  /\ AutoEncoder.nf_offset st = (AutoEncoder.num_flows self * Z.of_nat n)%Z.

Lemma first_group_lists (s : T) st :
  AutoEncoder.first_group self eps s = Ok st ->
  AutoEncoder.idx_dec st = 0%Z /\ group_lists st 1.
Proof.
  unfold AutoEncoder.first_group. intros E.
  apply bind_Ok in E as (ftr & _ & E).
  apply bind_Ok in E as (sampler & _ & E).
  apply bind_Ok in E as (param0 & _ & E).
  destruct (AutoEncoder.chunk2 param0) as [mu_q log_sig_q].
  apply bind_Ok in E as ([z' lq'] & _ & E).
  inversion E. unfold group_lists. cbn. repeat split. lia.
Qed.

Lemma dec_step_lists (ce : list (AutoEncoder.cell T)) (cs : list T) st c st' :
  AutoEncoder.dec_step self eps ce cs st c = Ok st' ->
  (0 <= AutoEncoder.idx_dec st)%Z ->
  group_lists st (Nat.max 1 (Z.to_nat (AutoEncoder.idx_dec st))) ->
  AutoEncoder.idx_dec st'
  = (AutoEncoder.idx_dec st + if is_type "combiner_dec" c then 1 else 0)%Z
  /\ group_lists st' (Nat.max 1 (Z.to_nat (AutoEncoder.idx_dec st'))).
Proof.
  unfold AutoEncoder.dec_step, is_type. intros E Hidx (Hq & Hlq & Hp & Hlp & Hoff).
  destruct (AutoEncoder.cell_type c =? "combiner_dec")%string.
  - apply bind_Ok in E as (st1 & Hinner & E).
    apply bind_Ok in E as (s' & _ & E). inversion E; subst; cbn -[Nat.max]. clear E.
    destruct (Z.gtb_spec (AutoEncoder.idx_dec st) 0) as [Hpos|Hzero].
    + apply bind_Ok in Hinner as (sampler & _ & Hinner).
      apply bind_Ok in Hinner as (param & _ & Hinner).
      destruct (AutoEncoder.chunk2 param) as [mu_p log_sig_p].
      apply bind_Ok in Hinner as (comb & _ & Hinner).
      apply bind_Ok in Hinner as (cached & _ & Hinner).
      apply bind_Ok in Hinner as (ftr & _ & Hinner).
      apply bind_Ok in Hinner as (sampler' & _ & Hinner).
      apply bind_Ok in Hinner as (param' & _ & Hinner).
      destruct (AutoEncoder.chunk2 param') as [mu_q log_sig_q].
      apply bind_Ok in Hinner as ([z' lq'] & _ & Hinner).
      inversion Hinner; subst; cbn -[Nat.max]. split; [reflexivity|].
      unfold group_lists. cbn -[Nat.max].
      rewrite !length_app, Hq, Hlq, Hp, Hlp, Hoff. cbn [length].
      replace (Nat.max 1 (Z.to_nat (AutoEncoder.idx_dec st + 1)))
        with (S (Nat.max 1 (Z.to_nat (AutoEncoder.idx_dec st)))) by lia.
      generalize (Nat.max 1 (Z.to_nat (AutoEncoder.idx_dec st))). intros n.
      repeat split; lia.
    + inversion Hinner; subst. split; [reflexivity|]. unfold group_lists.
      replace (Nat.max 1 (Z.to_nat (AutoEncoder.idx_dec st1 + 1))) with 1%nat by lia.
      replace (Nat.max 1 (Z.to_nat (AutoEncoder.idx_dec st1))) with 1%nat in * by lia.
      repeat split; assumption.
  - apply bind_Ok in E as (s' & _ & E). inversion E; subst; cbn -[Nat.max].
    split; [lia|]. unfold group_lists. cbn -[Nat.max].
    repeat split; assumption.
Qed.

Lemma run_dec_tower_lists (ce : list (AutoEncoder.cell T)) (cs : list T)
    (cells : list (AutoEncoder.cell T)) st st' :
  AutoEncoder.run_dec_tower self eps ce cs cells st = Ok st' ->
  (0 <= AutoEncoder.idx_dec st)%Z ->
  group_lists st (Nat.max 1 (Z.to_nat (AutoEncoder.idx_dec st))) ->
  AutoEncoder.idx_dec st'
  = (AutoEncoder.idx_dec st + Z.of_nat (count_type "combiner_dec" cells))%Z
  /\ group_lists st' (Nat.max 1 (Z.to_nat (AutoEncoder.idx_dec st'))).
Proof.
  unfold AutoEncoder.run_dec_tower, count_type.
  revert st. induction cells as [|c cells IH]; intros st E Hidx Hl; simpl in E.
  - inversion E; subst. simpl. split; [lia | assumption].
  - apply bind_Ok in E as (st1 & Hstep & E).
    destruct (dec_step_lists _ _ _ _ _ Hstep Hidx Hl) as [Hi1 Hl1].
    destruct (IH st1 E) as [Hi Hl']; [destruct (is_type _ c); lia | exact Hl1 |].
    split; [|exact Hl']. rewrite Hi, Hi1. simpl filter.
    destruct (is_type "combiner_dec" c); simpl length; lia.
Qed.

(** X8: a completed pass of [forward] up to the KL terms has one posterior,
    one prior, one [log_q] and one [log_p] per latent group, so the [zip] of
    line 462 drops nothing: with [n] the number of 'combiner_dec' cells of
    the decoder tower (one group when there is none), the four lists,
    [kl_diag] and [kl_all] all have [n] entries, [idx_dec] has counted the
    combiners, and the flows used are the first [num_flows * n] of
    [nf_cells]. *)
Theorem forward_latents_one_term_per_group (s : T) st kl_diag kl_all :
  AutoEncoder.forward_latents self eps s = Ok (st, kl_diag, kl_all) ->
  let n := Nat.max 1 (count_type "combiner_dec" (AutoEncoder.dec_tower self)) in
  AutoEncoder.idx_dec st
  = Z.of_nat (count_type "combiner_dec" (AutoEncoder.dec_tower self))
  /\ length (AutoEncoder.all_q st) = n
  /\ length (AutoEncoder.all_p st) = n
  /\ length (AutoEncoder.all_log_q st) = n
  /\ length (AutoEncoder.all_log_p st) = n
  /\ length kl_diag = n
  /\ length kl_all = n
  /\ AutoEncoder.nf_offset st = (AutoEncoder.num_flows self * Z.of_nat n)%Z.
Proof.
  intros E. cbv zeta. unfold AutoEncoder.forward_latents in E.
  apply bind_Ok in E as ([[s1 ce] cs] & _ & E).
  apply bind_Ok in E as (st1 & Hfirst & E).
  apply bind_Ok in E as (st2 & Hrun & E).
  destruct (AutoEncoder.compute_kl self st2) as [kd ka] eqn:Hkl.
  inversion E; subst. clear E.
  destruct (first_group_lists _ _ Hfirst) as [Hi0 Hl0].
  destruct (run_dec_tower_lists _ _ _ _ _ Hrun) as [Hi Hl];
    [lia | now rewrite Hi0 |].
  rewrite Hi0 in Hi. simpl in Hi. rewrite Hi, Nat2Z.id in Hl.
  destruct Hl as (Hq & Hlq & Hp & Hlp & Hoff).
  unfold AutoEncoder.compute_kl in Hkl. inversion Hkl; subst.
  rewrite !length_map, (zip4_length _ _ _ _ _ Hq Hp Hlq Hlp).
  repeat split; assumption.
Qed.

End ForwardLatents.

Lemma forward_latents_one_term_per_group_witness :
  exists st kl_diag kl_all,
    AutoEncoder.forward_latents autoencoder_example (fun _ => 0%Z) 10%Z
    = Ok (st, kl_diag, kl_all)
    /\ length kl_all = 2%nat /\ AutoEncoder.nf_offset st = 2%Z.
Proof.
  destruct (AutoEncoder.forward_latents autoencoder_example (fun _ => 0%Z) 10%Z)
    as [[[st kd] ka]|e] eqn:E; [|vm_compute in E; discriminate E].
  exists st, kd, ka. split; [reflexivity|].
  destruct (forward_latents_one_term_per_group autoencoder_example (fun _ => 0%Z)
              10%Z st kd ka E) as (_ & _ & _ & _ & _ & _ & Hka & Hoff).
  split; [exact Hka | exact Hoff].
Defined.

(** ** AutoEncoder.forward: no index leaves its list *)

Section ForwardReturns.
Context {T : Type} `{AutoEncoder.Env T}.

Definition returns1 (f : T -> result T) : Prop := forall t, exists r, f t = Ok r.
Definition returns2 {R : Type} (f : T -> T -> result R) : Prop :=
  forall a b, exists r, f a b = Ok r.

(** A model with [G] latent groups, sized as [__init__] sizes it: [G]
    decoder combiners and [G - 1] encoder combiners in the towers, an
    encoder sampler per group, a decoder sampler per group but the first,
    [num_flows] flow cells per group; and modules that return on every
    input. *)
Record sized (self : AutoEncoder.t T) (G : nat) : Prop := {
  sz_groups : (0 < G)%nat;
  sz_dec_comb : count_type "combiner_dec" (AutoEncoder.dec_tower self) = G;
  sz_enc_comb : count_type "combiner_enc" (AutoEncoder.enc_tower self) = (G - 1)%nat;
  sz_enc_sampler : length (AutoEncoder.enc_sampler self) = G;
  sz_dec_sampler : length (AutoEncoder.dec_sampler self) = (G - 1)%nat;
  sz_nf_cells : (0 < AutoEncoder.num_flows self)%Z ->
                Z.of_nat (length (AutoEncoder.nf_cells self))
                = (AutoEncoder.num_flows self * Z.of_nat G)%Z;
  sz_enc0 : returns1 (AutoEncoder.enc0 self);
  sz_enc_tower : Forall (fun c => if is_type "combiner_enc" c
                                  then returns2 (AutoEncoder.call2 c)
                                  else returns1 (AutoEncoder.call1 c))
                        (AutoEncoder.enc_tower self);
  sz_dec_tower : Forall (fun c => if is_type "combiner_dec" c
                                  then returns2 (AutoEncoder.call2 c)
                                  else returns1 (AutoEncoder.call1 c))
                        (AutoEncoder.dec_tower self);
  sz_enc_samplers : Forall returns1 (AutoEncoder.enc_sampler self);
  sz_dec_samplers : Forall returns1 (AutoEncoder.dec_sampler self);
  sz_nf : Forall returns2 (AutoEncoder.nf_cells self)
}.

Lemma index_total {A : Type} (l : list A) (i : Z) :
  (0 <= i < Z.of_nat (length l))%Z -> exists a, Py.index l i = Ok a /\ In a l.
Proof.
  intros Hi. destruct (nth_error l (Z.to_nat i)) as [a|] eqn:E.
  - exists a. split; [|eapply nth_error_In; exact E].
    replace i with (Z.of_nat (Z.to_nat i)) by lia. now apply index_nat.
  - apply nth_error_None in E. lia.
Qed.

Lemma enc_defer_total (cells : list (AutoEncoder.cell T)) (s : T) :
  Forall (fun c => if is_type "combiner_enc" c
                   then returns2 (AutoEncoder.call2 c)
                   else returns1 (AutoEncoder.call1 c)) cells ->
  exists s' cached,
    enc_defer cells s = Ok (s', cached)
    /\ length cached = count_type "combiner_enc" cells
    /\ Forall (fun c => returns2 (AutoEncoder.call2 c)) (map fst cached).
Proof.
  unfold count_type. intros HF. revert s.
  induction HF as [|c cells Hc _ IH]; intros s; simpl.
  - exists s, []. repeat split. constructor.
  - destruct (is_type "combiner_enc" c).
    + destruct (IH s) as (s' & cached & E & Hlen & Hall). rewrite E. cbn [bind].
      exists s', ((c, s) :: cached). split; [reflexivity|].
      split; [simpl; now rewrite Hlen | now constructor].
    + destruct (Hc s) as (s1 & E1). rewrite E1. cbn [bind]. apply IH.
Qed.

Variable self : AutoEncoder.t T.
Variable eps : Z -> T.

Lemma flows_total (off : Z) (ftr : T) (k a : nat) (z lq : T) :
  Forall returns2 (AutoEncoder.nf_cells self) ->
  (0 <= off)%Z ->
  (off + Z.of_nat (a + k) <= Z.of_nat (length (AutoEncoder.nf_cells self)))%Z ->
  exists r,
    for_each (map Z.of_nat (seq a k))
      (fun '(z, log_q_conv) n =>
         nf <- Py.index (AutoEncoder.nf_cells self) (off + n) ;;
         '(z, log_det) <- nf z ftr ;;
         Ok (z, AutoEncoder.t_sub log_q_conv log_det))
      (z, lq) = Ok r.
Proof.
  intros Hnf Hoff. revert a z lq. induction k as [|k IH]; intros a z lq Hlen; simpl.
  - eexists. reflexivity.
  - destruct (index_total (AutoEncoder.nf_cells self) (off + Z.of_nat a))
      as (nf & Enf & Hin); [lia|].
    rewrite Enf. cbn [bind]. rewrite Forall_forall in Hnf.
    destruct (Hnf nf Hin z ftr) as ([z1 d] & Ecall). rewrite Ecall. cbn [bind].
    apply IH. lia.
Qed.

Lemma apply_flows_total (off : Z) (ftr z lq : T) :
  Forall returns2 (AutoEncoder.nf_cells self) ->
  ((0 < AutoEncoder.num_flows self)%Z ->
   (0 <= off)%Z
   /\ (off + AutoEncoder.num_flows self
       <= Z.of_nat (length (AutoEncoder.nf_cells self)))%Z) ->
  exists r, AutoEncoder.apply_flows self off ftr z lq = Ok r.
Proof.
  intros Hnf Hb. unfold AutoEncoder.apply_flows, Py.range.
  destruct (Z.ltb_spec 0 (AutoEncoder.num_flows self)) as [Hpos|Hle].
  - destruct (Hb Hpos) as [Hoff Hlen]. apply flows_total; try assumption. lia.
  - replace (Z.to_nat (AutoEncoder.num_flows self)) with 0%nat by lia.
    eexists. reflexivity.
Qed.

Variable G : nat.
Hypothesis Hsized : sized self G.

Lemma first_group_total (s : T) :
  exists st, AutoEncoder.first_group self eps s = Ok st.
Proof.
  unfold AutoEncoder.first_group.
  destruct (sz_enc0 _ _ Hsized s) as (ftr & E0). rewrite E0. cbn [bind].
  pose proof (sz_groups _ _ Hsized) as HG.
  destruct (index_total (AutoEncoder.enc_sampler self) 0) as (sampler & Es & Hin);
    [rewrite (sz_enc_sampler _ _ Hsized); lia|].
  rewrite Es. cbn [bind].
  pose proof (sz_enc_samplers _ _ Hsized) as Hsam. rewrite Forall_forall in Hsam.
  destruct (Hsam sampler Hin ftr) as (param0 & Ep). rewrite Ep. cbn [bind].
  destruct (AutoEncoder.chunk2 param0) as [mu_q log_sig_q].
  destruct (apply_flows_total 0 ftr
              (AutoEncoder.Normal_sample (AutoEncoder.mk_Normal mu_q log_sig_q) (eps 0%Z))
              (AutoEncoder.Normal_log_p (AutoEncoder.mk_Normal mu_q log_sig_q)
                 (AutoEncoder.Normal_sample (AutoEncoder.mk_Normal mu_q log_sig_q)
                    (eps 0%Z))))
    as ([z' lq'] & Ef).
  { exact (sz_nf _ _ Hsized). }
  { intros Hpos. rewrite (sz_nf_cells _ _ Hsized Hpos). nia. }
  rewrite Ef. cbn [bind]. eexists. reflexivity.
Qed.

Variable ce : list (AutoEncoder.cell T).
Variable cs : list T.
Hypothesis Hce : length ce = (G - 1)%nat.
Hypothesis Hcs : length cs = (G - 1)%nat.
Hypothesis Hce_total : Forall (fun c => returns2 (AutoEncoder.call2 c)) ce.

Lemma dec_step_total st c :
  (if is_type "combiner_dec" c
   then returns2 (AutoEncoder.call2 c) else returns1 (AutoEncoder.call1 c)) ->
  (0 <= AutoEncoder.idx_dec st)%Z ->
  (is_type "combiner_dec" c = true -> AutoEncoder.idx_dec st < Z.of_nat G)%Z ->
  AutoEncoder.nf_offset st
  = (AutoEncoder.num_flows self
     * Z.of_nat (Nat.max 1 (Z.to_nat (AutoEncoder.idx_dec st))))%Z ->
  exists st', AutoEncoder.dec_step self eps ce cs st c = Ok st'.
Proof.
  unfold AutoEncoder.dec_step, is_type. intros Hc Hidx Hlt Hoff.
  destruct (AutoEncoder.cell_type c =? "combiner_dec")%string.
  - specialize (Hlt eq_refl).
    match goal with
    | |- exists _, bind ?inner _ = _ => assert (Hinner : exists st1, inner = Ok st1)
    end.
    { destruct (Z.gtb_spec (AutoEncoder.idx_dec st) 0) as [Hpos|_];
        [|eexists; reflexivity].
      destruct (index_total (AutoEncoder.dec_sampler self) (AutoEncoder.idx_dec st - 1))
        as (sampler & Es & Hin); [rewrite (sz_dec_sampler _ _ Hsized); lia|].
      rewrite Es. cbn [bind].
      pose proof (sz_dec_samplers _ _ Hsized) as Hsam. rewrite Forall_forall in Hsam.
      destruct (Hsam sampler Hin (AutoEncoder.s st)) as (param & Ep).
      rewrite Ep. cbn [bind].
      destruct (AutoEncoder.chunk2 param) as [mu_p log_sig_p].
      destruct (index_total ce (AutoEncoder.idx_dec st - 1)) as (comb & Ec & Hinc);
        [rewrite Hce; lia|].
      rewrite Ec. cbn [bind].
      destruct (index_total cs (AutoEncoder.idx_dec st - 1)) as (cached & Ecs & _);
        [rewrite Hcs; lia|].
      rewrite Ecs. cbn [bind].
      rewrite Forall_forall in Hce_total.
      destruct (Hce_total comb Hinc cached (AutoEncoder.s st)) as (ftr & Eftr).
      rewrite Eftr. cbn [bind]. unfold AutoEncoder.latent_group.
      destruct (index_total (AutoEncoder.enc_sampler self) (AutoEncoder.idx_dec st))
        as (sampler' & Es' & Hin'); [rewrite (sz_enc_sampler _ _ Hsized); lia|].
      rewrite Es'. cbn [bind].
      pose proof (sz_enc_samplers _ _ Hsized) as Hsam'. rewrite Forall_forall in Hsam'.
      destruct (Hsam' sampler' Hin' ftr) as (param' & Ep'). rewrite Ep'. cbn [bind].
      destruct (AutoEncoder.chunk2 param') as [mu_q log_sig_q]. cbv zeta.
      match goal with
      | |- context [AutoEncoder.apply_flows self ?off ?f ?zz ?lq] =>
          destruct (apply_flows_total off f zz lq) as ([z' lq'] & Ef)
      end.
      { exact (sz_nf _ _ Hsized). }
      { intros Hfl. rewrite (sz_nf_cells _ _ Hsized Hfl), Hoff.
        replace (Nat.max 1 (Z.to_nat (AutoEncoder.idx_dec st)))
          with (Z.to_nat (AutoEncoder.idx_dec st)) by lia.
        rewrite Z2Nat.id by lia. split; nia. }
      rewrite Ef. cbn [bind]. eexists. reflexivity. }
    destruct Hinner as (st1 & E1). rewrite E1. cbn [bind].
    destruct (Hc (AutoEncoder.s st1) (AutoEncoder.z st1)) as (s' & Es').
    rewrite Es'. cbn [bind]. eexists. reflexivity.
  - destruct (Hc (AutoEncoder.s st)) as (s' & Es'). rewrite Es'. cbn [bind].
    eexists. reflexivity.
Qed.

Lemma run_dec_tower_total (cells : list (AutoEncoder.cell T)) st :
  Forall (fun c => if is_type "combiner_dec" c
                   then returns2 (AutoEncoder.call2 c)
                   else returns1 (AutoEncoder.call1 c)) cells ->
  (0 <= AutoEncoder.idx_dec st)%Z ->
  (AutoEncoder.idx_dec st + Z.of_nat (count_type "combiner_dec" cells)
   <= Z.of_nat G)%Z ->
  group_lists self st (Nat.max 1 (Z.to_nat (AutoEncoder.idx_dec st))) ->
  exists st', AutoEncoder.run_dec_tower self eps ce cs cells st = Ok st'.
Proof.
  unfold AutoEncoder.run_dec_tower, count_type. intros HF. revert st.
  induction HF as [|c cells Hc _ IH]; intros st Hidx Hcount Hl; simpl.
  - eexists. reflexivity.
  - simpl in Hcount.
    destruct (dec_step_total st c Hc Hidx) as (st1 & E1).
    { intros Hty. rewrite Hty in Hcount. simpl in Hcount. lia. }
    { apply Hl. }
    rewrite E1. cbn [bind].
    destruct (dec_step_lists self eps ce cs st c st1 E1 Hidx Hl) as [Hi1 Hl1].
    apply IH; [destruct (is_type _ c); lia | | exact Hl1].
    rewrite Hi1. destruct (is_type "combiner_dec" c); simpl in Hcount; lia.
Qed.

End ForwardReturns.

Section ForwardReturnsTheorem.
Context {T : Type} `{AutoEncoder.Env T}.

(** X9: in a model sized for [G] latent groups whose modules return on
    every input, the pass of [forward] from the encoder tower to the KL terms
    returns for every input stream and every noise: no subscript of the
    sampler lists, of the flow cells or of the caches leaves its list; and
    it returns [G] KL terms. *)
Theorem forward_latents_returns (self : AutoEncoder.t T) (eps : Z -> T) (G : nat)
    (s : T) :
  sized self G ->
  exists st kl_diag kl_all,
    AutoEncoder.forward_latents self eps s = Ok (st, kl_diag, kl_all)
    /\ length kl_diag = G /\ length kl_all = G.
Proof.
  intros Hsized. unfold AutoEncoder.forward_latents, AutoEncoder.run_enc_tower.
  rewrite enc_loop_defer.
  destruct (enc_defer_total (AutoEncoder.enc_tower self) s (sz_enc_tower _ _ Hsized))
    as (s1 & cached & Eenc & Hlen & Hall).
  rewrite Eenc. cbn [bind app].
  destruct (first_group_total self eps G Hsized s1) as (st1 & Efirst).
  rewrite Efirst. cbn [bind].
  destruct (first_group_lists self eps s1 st1 Efirst) as [Hi0 Hl0].
  pose proof (sz_groups _ _ Hsized) as HG.
  destruct (run_dec_tower_total self eps G Hsized (rev (map fst cached))
              (rev (map snd cached))) with (cells := AutoEncoder.dec_tower self)
              (st := st1) as (st2 & Erun).
  - now rewrite length_rev, length_map, Hlen, (sz_enc_comb _ _ Hsized).
  - now rewrite length_rev, length_map, Hlen, (sz_enc_comb _ _ Hsized).
  - rewrite Forall_forall in *. intros c Hin. apply Hall. now apply in_rev.
  - exact (sz_dec_tower _ _ Hsized).
  - lia.
  - rewrite Hi0, (sz_dec_comb _ _ Hsized). lia.
  - now rewrite Hi0.
  - rewrite Erun. cbn [bind].
    destruct (run_dec_tower_lists self eps _ _ _ _ _ Erun) as [Hi Hl];
      [lia | now rewrite Hi0 |].
    rewrite Hi0, (sz_dec_comb _ _ Hsized) in Hi. simpl in Hi.
    rewrite Hi, Nat2Z.id in Hl.
    replace (Nat.max 1 G) with G in Hl by lia.
    destruct Hl as (Hq & Hlq & Hp & Hlp & _).
    unfold AutoEncoder.compute_kl.
    exists st2. eexists. eexists. split; [reflexivity|].
    rewrite !length_map, (zip4_length _ _ _ _ _ Hq Hp Hlq Hlp). now split.
Qed.

End ForwardReturnsTheorem.

Lemma autoencoder_example_sized : sized autoencoder_example 2.
Proof.
  constructor; try reflexivity.
  - lia.
  - intros t. eexists. reflexivity.
  - repeat constructor; intros a; try intros b; eexists; reflexivity.
  - repeat constructor; intros a; try intros b; eexists; reflexivity.
  - repeat constructor; intros a; eexists; reflexivity.
  - repeat constructor; intros a; eexists; reflexivity.
  - repeat constructor; intros a b; eexists; reflexivity.
Defined.

Lemma forward_latents_returns_witness :
  exists st kl_diag kl_all,
    AutoEncoder.forward_latents autoencoder_example (fun _ => 0%Z) 10%Z
    = Ok (st, kl_diag, kl_all)
    /\ length kl_diag = 2%nat /\ length kl_all = 2%nat.
Proof.
  exact (forward_latents_returns autoencoder_example (fun _ => 0%Z) 2 10%Z
           autoencoder_example_sized).
Defined.

(** ** No future leakage through the flow cells *)

Section CausalCells.
Context {F : Type} `{Scalar F}.

(** Two tensors that agree at every position up to [i] of the last axis. *)
Definition agree_upto (i : nat) (x x' : tensor3 F) : Prop :=
  forall bi c j, (j <= i)%nat -> entry x' bi c j = entry x bi c j.

Lemma nth_map_nil {A B : Type} (f : A -> B) (t : list (list A)) (k : nat) :
  nth k (map (map f) t) [] = map f (nth k t []).
Proof. exact (map_nth (map f) t [] k). Qed.

Lemma entry_map3 (f : F -> F) (t : tensor3 F) (bi c j : nat) :
  entry (map3 f t) bi c j
  = if (j <? length (nth c (nth bi t []) []))%nat then f (entry t bi c j) else fzero.
Proof.
  unfold entry, map3.
  change (nth bi (map (map (map f)) t) [])
    with (nth bi (map (map (map f)) t) (map (map f) [])).
  rewrite (map_nth (map (map f)) t [] bi).
  rewrite nth_map_nil.
  destruct (Nat.ltb_spec j (length (nth c (nth bi t []) []))) as [Hlt|Hge].
  - rewrite (nth_indep _ fzero (f fzero)) by (now rewrite length_map).
    apply map_nth.
  - apply nth_overflow. now rewrite length_map.
Qed.

Lemma rect3_row_length (B C L : nat) (x : tensor3 F) (bi c : nat) :
  rect3 B C L x ->
  length (nth c (nth bi x []) [])
  = if ((bi <? B) && (c <? C))%nat then L else 0%nat.
Proof.
  intros [HB Hall]. rewrite Forall_forall in Hall.
  destruct (Nat.ltb_spec bi B) as [Hb|Hb]; cbn [andb].
  - destruct (Hall (nth bi x [])) as [HC Hrows]; [apply nth_In; lia|].
    rewrite Forall_forall in Hrows.
    destruct (Nat.ltb_spec c C) as [Hc|Hc].
    + apply Hrows, nth_In. lia.
    + rewrite (nth_overflow (nth bi x [])) by lia. reflexivity.
  - rewrite (nth_overflow x) by lia. now destruct c.
Qed.

Lemma entry_outside (B C L : nat) (x : tensor3 F) (bi c j : nat) :
  rect3 B C L x -> ~ ((bi < B)%nat /\ (c < C)%nat /\ (j < L)%nat) ->
  entry x bi c j = fzero.
Proof.
  intros Hx Hout. unfold entry. apply nth_overflow.
  rewrite (rect3_row_length _ _ _ _ _ _ Hx).
  destruct (Nat.ltb_spec bi B), (Nat.ltb_spec c C); cbn [andb]; lia.
Qed.

Lemma agree_map3 (f : F -> F) (B C L i : nat) (x x' : tensor3 F) :
  rect3 B C L x -> rect3 B C L x' -> agree_upto i x x' ->
  agree_upto i (map3 f x) (map3 f x').
Proof.
  intros Hx Hx' Ha bi c j Hj. rewrite !entry_map3.
  rewrite (rect3_row_length _ _ _ _ _ _ Hx), (rect3_row_length _ _ _ _ _ _ Hx').
  destruct (j <? _)%nat; [|reflexivity]. now rewrite Ha.
Qed.

(** Entries of a broadcast-free elementwise operation. *)
Lemma mapM2_nth {A B C : Type} (g : A -> B -> result C) (l1 : list A) (l2 : list B)
    (r : list C) (da : A) (db : B) (dc : C) (k : nat) :
  mapM2 g l1 l2 = Ok r -> length l1 = length l2 -> (k < length l1)%nat ->
  g (nth k l1 da) (nth k l2 db) = Ok (nth k r dc).
Proof.
  revert l2 r k. induction l1 as [|a l1 IH]; intros [|b l2] r k E Hlen Hk;
    simpl in *; try lia.
  apply bind_Ok in E as (c & Hc & E). apply bind_Ok in E as (cs & Hcs & E).
  inversion E; subst. destruct k as [|k]; [exact Hc|].
  simpl. apply (IH l2 cs k Hcs); lia.
Qed.

Lemma bzip_nth {A B C : Type} (g : A -> B -> result C) (l1 : list A) (l2 : list B)
    (r : list C) (da : A) (db : B) (dc : C) (k : nat) :
  bzip g l1 l2 = Ok r -> length l1 = length l2 -> (k < length l1)%nat ->
  g (nth k l1 da) (nth k l2 db) = Ok (nth k r dc).
Proof.
  unfold bzip. intros E Hlen Hk. rewrite Hlen, Nat.eqb_refl in E.
  now apply (mapM2_nth g l1 l2 r).
Qed.

Lemma binop_entry (f : F -> F -> F) (B C L : nat) (a b r : tensor3 F)
    (bi c j : nat) :
  rect3 B C L a -> rect3 B C L b -> binop f a b = Ok r ->
  (bi < B)%nat -> (c < C)%nat -> (j < L)%nat ->
  entry r bi c j = f (entry a bi c j) (entry b bi c j).
Proof.
  intros Ha Hb E Hbi Hc Hj. unfold binop in E.
  assert (HaB : length a = B) by apply Ha.
  assert (HbB : length b = B) by apply Hb.
  pose proof (bzip_nth _ a b r [] [] [] bi E) as E1.
  specialize (E1 ltac:(congruence) ltac:(lia)).
  destruct (rect3_nth _ _ _ _ _ Ha Hbi) as [HaC Har].
  destruct (rect3_nth _ _ _ _ _ Hb Hbi) as [HbC Hbr].
  pose proof (bzip_nth _ (nth bi a []) (nth bi b []) (nth bi r []) [] [] [] c E1) as E2.
  specialize (E2 ltac:(congruence) ltac:(lia)).
  rewrite Forall_forall in Har, Hbr.
  assert (HaL : length (nth c (nth bi a []) []) = L) by (apply Har, nth_In; lia).
  assert (HbL : length (nth c (nth bi b []) []) = L) by (apply Hbr, nth_In; lia).
  pose proof (bzip_nth _ (nth c (nth bi a []) []) (nth c (nth bi b []) [])
                (nth c (nth bi r []) []) fzero fzero fzero j E2) as E3.
  specialize (E3 ltac:(congruence) ltac:(lia)).
  unfold entry. now inversion E3.
Qed.

Lemma agree_binop (f : F -> F -> F) (B C L i : nat) (a b r a' b' r' : tensor3 F) :
  rect3 B C L a -> rect3 B C L b -> rect3 B C L a' -> rect3 B C L b' ->
  rect3 B C L r -> rect3 B C L r' ->
  binop f a b = Ok r -> binop f a' b' = Ok r' ->
  agree_upto i a a' -> agree_upto i b b' -> agree_upto i r r'.
Proof.
  intros Ha Hb Ha' Hb' Hr Hr' E E' Haa Hbb bi c j Hj.
  destruct (Nat.lt_ge_cases bi B) as [Hbi|Hbi];
    [destruct (Nat.lt_ge_cases c C) as [Hc|Hc];
     [destruct (Nat.lt_ge_cases j L) as [HjL|HjL]|]|].
  - rewrite (binop_entry f B C L a b r bi c j), (binop_entry f B C L a' b' r' bi c j);
      try assumption.
    now rewrite Haa, Hbb.
  - rewrite !(entry_outside B C L) by (assumption || lia). reflexivity.
  - rewrite !(entry_outside B C L) by (assumption || lia). reflexivity.
  - rewrite !(entry_outside B C L) by (assumption || lia). reflexivity.
Qed.

(** A causal convolution on two inputs that agree up to position [i]. *)
Lemma forward_causal_agree self C_out cpg K d g b B L (x x' : tensor3 F) (i : nat) :
  causal_same self C_out cpg K d g b ->
  rect3 B (cpg * g) L x -> rect3 B (cpg * g) L x' -> (0 < L)%nat ->
  agree_upto i x x' ->
  exists out out',
    ARConv1d.forward self x = Ok out /\ ARConv1d.forward self x' = Ok out'
    /\ rect3 B C_out L out /\ rect3 B C_out L out' /\ agree_upto i out out'.
Proof.
  intros Hcs Hx Hx' HL Hagree.
  destruct (forward_causal_rows _ _ _ _ _ _ _ _ _ _ Hcs Hx HL) as [_ Hfwd].
  destruct (forward_causal_rows _ _ _ _ _ _ _ _ _ _ Hcs Hx' HL) as [_ Hfwd'].
  assert (Hw : rect3 C_out cpg K (ARConv1d.normalize_weight self))
    by (apply normalize_weight_jit_rect, (cs_weight _ _ _ _ _ _ _ Hcs)).
  assert (Hrect : forall y : tensor3 F, length y = B ->
            rect3 B C_out L
              (map (conv_rows (ARConv1d.normalize_weight self) b 1 (d * (K - 1)) d g
                      C_out cpg L) y)).
  { intros y Hy. split; [now rewrite length_map|].
    rewrite Forall_forall. intros r Hr. apply in_map_iff in Hr as (xb & <- & _).
    apply conv_rows_rect. }
  assert (HB : length x = B) by apply Hx.
  assert (HB' : length x' = B) by apply Hx'.
  eexists. eexists. split; [exact Hfwd|]. split; [exact Hfwd'|].
  split; [now apply Hrect|]. split; [now apply Hrect|].
  intros bi co j Hj.
  destruct (Nat.lt_ge_cases bi B) as [Hbi|Hbi];
    [destruct (Nat.lt_ge_cases co C_out) as [Hco|Hco];
     [destruct (Nat.lt_ge_cases j L) as [HjL|HjL]|]|].
  - rewrite !entry_conv_rows by lia.
    apply (out_value_causal _ _ _ _ _ K C_out cpg); [assumption|].
    destruct (rect3_nth _ _ _ _ _ Hx Hbi) as [Hlen _].
    destruct (rect3_nth _ _ _ _ _ Hx' Hbi) as [Hlen' _].
    apply (Forall2_of_nth _ []); [congruence|].
    intros c _ k Hk. apply (Hagree bi c k). lia.
  - rewrite !entry_conv_rows_outside by lia. reflexivity.
  - rewrite !entry_conv_rows_outside by lia. reflexivity.
  - rewrite !entry_conv_rows_outside by lia. reflexivity.
Qed.

Lemma map_const_in {A B : Type} (f : A -> B) (c : B) (l : list A) :
  (forall a, In a l -> f a = c) -> map f l = repeat c (length l).
Proof.
  induction l as [|a l IH]; intros Hf; simpl; [reflexivity|].
  rewrite (Hf a) by now left. f_equal. apply IH. intros; apply Hf. now right.
Qed.

Lemma zeros_like_rect (B C L : nat) (x : tensor3 F) :
  rect3 B C L x -> zeros_like x = repeat (repeat (repeat fzero L) C) B.
Proof.
  intros [HB Hall]. unfold zeros_like, map3. rewrite <- HB.
  apply map_const_in. intros xb Hin. rewrite Forall_forall in Hall.
  destruct (Hall xb Hin) as [HC Hrows]. rewrite <- HC.
  apply map_const_in. intros ch Hch. rewrite Forall_forall in Hrows.
  rewrite <- (Hrows ch Hch). apply map_const.
Qed.

Lemma CellAR_forward_agree (cell : CellAR.t F) (num_z B L i : nat)
    (z z' ftr ftr' : tensor3 F) :
  cell_with_bias cell num_z -> rect3 B num_z L z -> rect3 B num_z L z' -> (0 < L)%nat ->
  agree_upto i z z' ->
  exists new_z new_z',
    CellAR.forward cell z ftr = Ok (new_z, zeros_like new_z)
    /\ CellAR.forward cell z' ftr' = Ok (new_z', zeros_like new_z')
    /\ rect3 B num_z L new_z /\ rect3 B num_z L new_z'
    /\ agree_upto i new_z new_z'.
Proof.
  intros (c1 & c2 & m & b1 & b2 & b3 & K2 & d2
          & Haff & Hflag & Hlayers & Hc1 & Hc2 & Hmu & Hc3) Hz Hz' HL Hagree.
  unfold CellAR.forward, ARInvertedResidual.forward.
  rewrite Haff, Hlayers, Hmu.
  destruct (Z.eqb_spec (ARInvertedResidual.checkpoint_res (CellAR.conv cell)) 1);
    [contradiction|].
  cbn [ARInvertedResidual.sequential ARInvertedResidual.apply_layer].
  destruct (forward_causal_agree c1 _ _ _ _ _ _ B L z z' i Hc1)
    as (o1 & o1' & E1 & E1' & R1 & R1' & A1);
    [now rewrite Nat.mul_1_r | now rewrite Nat.mul_1_r | exact HL | exact Hagree |].
  rewrite E1, E1'. cbn [bind andb].
  destruct (forward_causal_agree c2 _ _ _ _ _ _ B L (elu o1) (elu o1') i Hc2)
    as (o2 & o2' & E2 & E2' & R2 & R2' & A2);
    [rewrite Nat.mul_1_l; now apply map3_rect
    |rewrite Nat.mul_1_l; now apply map3_rect
    |exact HL
    |now apply (agree_map3 elu1 B (6 * num_z) L)|].
  rewrite E2, E2'. cbn [bind Py.call_method].
  unfold ELUConv.forward, checkpoint.
  destruct (forward_causal_agree (ELUConv.conv_0 m) _ _ _ _ _ _ B L
              (elu (elu o2)) (elu (elu o2')) i Hc3)
    as (o3 & o3' & E3 & E3' & R3 & R3' & A3);
    [rewrite Nat.mul_1_r; now apply map3_rect, map3_rect
    |rewrite Nat.mul_1_r; now apply map3_rect, map3_rect
    |exact HL
    |apply (agree_map3 elu1 B (6 * num_z) L); try (now apply map3_rect);
     now apply (agree_map3 elu1 B (6 * num_z) L)|].
  assert (Emu : forall y r, ARConv1d.forward (ELUConv.conv_0 m) y = Ok r ->
                  (if (ELUConv.checkpoint_res m =? 1)%Z
                   then ARConv1d.forward (ELUConv.conv_0 m) y
                   else ARConv1d.forward (ELUConv.conv_0 m) y) = Ok r)
    by (intros y r Ey; destruct (ELUConv.checkpoint_res m =? 1)%Z; exact Ey).
  rewrite (Emu _ _ E3), (Emu _ _ E3'). cbn [bind].
  destruct (binop_rect fsub B num_z L z o3 Hz R3) as (nz & Enz & Rnz).
  destruct (binop_rect fsub B num_z L z' o3' Hz' R3') as (nz' & Enz' & Rnz').
  unfold tsub. rewrite Enz, Enz'. cbn [bind].
  exists nz, nz'. split; [reflexivity|]. split; [reflexivity|].
  split; [exact Rnz|]. split; [exact Rnz'|].
  exact (agree_binop fsub B num_z L i z o3 nz z' o3' nz' Hz R3 Hz' R3' Rnz Rnz'
           Enz Enz' Hagree A3).
Qed.

(** X10: the paired flow cell leaks nothing from the future.  For two
    latents of shape (B, num_z, L) that agree at all time positions up to
    [i], and any two conditioning tensors:
    - on a pair of cells with the constructor's layers whose convolutions
      all hold bias tensors, checkpointing off, both calls return, the two
      results agree at all positions up to [i] as well, and the two
      log-determinants are the same tensor;
    - on a pair whose first block convolution has no bias, which is how
      [CellAR.__init__] configures it, both calls raise the same
      [AttributeError]. *)
Theorem PairedCellAR_forward_causal (self : PairedCellAR.t F) (num_z B L i : nat)
    (z z' ftr ftr' : tensor3 F) :
  rect3 B num_z L z -> rect3 B num_z L z' -> (0 < L)%nat ->
  (forall bi c j, (j <= i)%nat -> entry z' bi c j = entry z bi c j) ->
  (cell_with_bias (PairedCellAR.cell1 self) num_z ->
   cell_with_bias (PairedCellAR.cell2 self) num_z ->
   exists new_z log_det new_z' log_det',
     PairedCellAR.forward self z ftr = Ok (new_z, log_det)
     /\ PairedCellAR.forward self z' ftr' = Ok (new_z', log_det')
     /\ (forall bi c j, (j <= i)%nat -> entry new_z' bi c j = entry new_z bi c j)
     /\ log_det' = log_det)
  /\ (forall c1 rest,
        ARInvertedResidual.layers (CellAR.conv (PairedCellAR.cell1 self))
        = ARInvertedResidual.Conv c1 :: rest ->
        ARConv1d.bias c1 = None ->
        PairedCellAR.forward self z ftr = Raise (AttributeError "type_as")
        /\ PairedCellAR.forward self z' ftr' = Raise (AttributeError "type_as")).
Proof.
  intros Hz Hz' HL Hagree. split.
  - intros Hb1 Hb2. unfold PairedCellAR.forward.
    destruct (CellAR_forward_agree _ num_z B L i z z' ftr ftr' Hb1 Hz Hz' HL Hagree)
      as (z1 & z1' & E1 & E1' & R1 & R1' & A1).
    rewrite E1, E1'. cbn [bind].
    destruct (CellAR_forward_agree _ num_z B L i z1 z1' ftr ftr' Hb2 R1 R1' HL A1)
      as (z2 & z2' & E2 & E2' & R2 & R2' & A2).
    rewrite E2, E2'. cbn [bind].
    rewrite (zeros_like_rect B num_z L z1' R1'), (zeros_like_rect B num_z L z2' R2'),
      (zeros_like_rect B num_z L z1 R1), (zeros_like_rect B num_z L z2 R2).
    assert (Rzero : rect3 B num_z L (repeat (repeat (repeat fzero L) num_z) B)).
    { rewrite <- (zeros_like_rect B num_z L z1 R1). now apply map3_rect. }
    destruct (binop_rect fadd B num_z L _ _ Rzero Rzero) as (r & Er & Rr).
    unfold tadd_inplace, tadd. rewrite Er. cbn [bind].
    rewrite (same_shape_rect B num_z L _ r Rzero Rr).
    exists z2, r, z2', r. repeat split; try reflexivity. exact A2.
  - intros c1 rest Hl Hb.
    split; now apply (PairedCellAR_forward_without_bias self c1 rest).
Qed.

End CausalCells.

Lemma PairedCellAR_forward_causal_witness :
  (exists new_z log_det new_z' log_det',
      PairedCellAR.forward (F:=R) paired_example [[[1; 2]]]%R [] = Ok (new_z, log_det)
      /\ PairedCellAR.forward (F:=R) paired_example [[[1; 3]]]%R [[[5%R]]]
         = Ok (new_z', log_det')
      /\ (forall bi c j, (j <= 0)%nat -> entry new_z' bi c j = entry new_z bi c j)
      /\ log_det' = log_det)
  /\ PairedCellAR.forward paired_default [[[1; 3]]]%R [[[5%R]]]
     = Raise (AttributeError "type_as").
Proof.
  destruct (PairedCellAR_forward_causal paired_example 1 1 2 0
              [[[1; 2]]]%R [[[1; 3]]]%R [] [[[5%R]]]) as [Hret _];
    [split; [reflexivity | repeat constructor]
    |split; [reflexivity | repeat constructor]
    |lia
    |intros bi c j Hj; assert (j = 0%nat) as -> by lia;
     destruct bi as [|bi]; [|now destruct bi, c];
     destruct c as [|c]; [reflexivity | now destruct c]
    |].
  destruct (PairedCellAR_forward_causal paired_default 1 1 2 0
              [[[1; 2]]]%R [[[1; 3]]]%R [] [[[5%R]]]) as [_ Hnone];
    [split; [reflexivity | repeat constructor]
    |split; [reflexivity | repeat constructor]
    |lia
    |intros bi c j Hj; assert (j = 0%nat) as -> by lia;
     destruct bi as [|bi]; [|now destruct bi, c];
     destruct c as [|c]; [reflexivity | now destruct c]
    |].
  split.
  - apply Hret; exact cell_example_with_bias.
  - exact (proj2 (Hnone _ _ eq_refl eq_refl)).
Defined.

(** ** Output lengths of [ARConv1d.forward] outside the causal 'SAME' case *)

Section ConvLengths.
Context {F : Type} `{Scalar F}.

(** An [ARConv1d] with stride 1 as lines 92-99 of the constructor leave it,
    in any mode and with or without a bias: [padding] holds the configured
    value and the weight has shape (C_out, cpg, K). *)
Record configured (self : ARConv1d.t F) (C_out cpg K d g : nat) : Prop := {
  cf_stride : ARConv1d.stride self = 1%Z;
  cf_padding : ARConv1d.padding self
               = ARConv1d.configured_padding (ARConv1d.causal self) (ARConv1d.mode self)
                   (ARConv1d.dilation self) (ARConv1d.kernel_size self);
  cf_kernel : ARConv1d.kernel_size self = Z.of_nat K;
  cf_dilation : ARConv1d.dilation self = Z.of_nat d;
  cf_groups : ARConv1d.groups self = Z.of_nat g;
  cf_weight : rect3 C_out cpg K (ARConv1d.weight self);
  cf_sizes : (0 < K /\ 0 < d /\ 0 < g /\ 0 < cpg /\ 0 < C_out)%nat;
  cf_div : (C_out mod g = 0)%nat
}.

Lemma mapM_raise_first {A B : Type} (f : A -> result B) (a : A) (l : list A) (e : exn) :
  f a = Raise e -> mapM f (a :: l) = Raise e.
Proof. intros E. simpl. now rewrite E. Qed.

(** X11: outside the causal 'SAME' case, for a convolution configured with
    or without a bias.  Without one ([bias=False], the class default)
    [forward] raises [AttributeError] at [bias.type_as(x)] for every input.
    With a bias tensor of length C_out nothing is cropped: with
    q = dilation * (kernel_size - 1) and p the configured padding (q // 2 in
    'SAME' mode, 0 in any other mode), an input of shape (B, C_in, L) with
    L > 0 gives an output of shape (B, C_out, L + 2p - q) when the padded
    input covers the kernel; on a batch that is not empty [F.conv1d] raises
    [RuntimeError] when it does not, or when L = 0.  So a non-causal 'SAME'
    convolution with a bias keeps the length exactly when q is even and
    returns one position less when q is odd. *)
Theorem ARConv1d_forward_lengths self C_out cpg K d g B L (x : tensor3 F) :
  configured self C_out cpg K d g ->
  ARConv1d.causal self && (ARConv1d.mode self =? "SAME")%string = false ->
  rect3 B (cpg * g) L x ->
  let q := (d * (K - 1))%nat in
  let p := if (ARConv1d.mode self =? "SAME")%string then (q / 2)%nat else 0%nat in
  ARConv1d.padding self = Z.of_nat p
  /\ (ARConv1d.bias self = None ->
      ARConv1d.forward self x = Raise (AttributeError "type_as"))
  /\ (forall b, ARConv1d.bias self = Some b -> length b = C_out ->
        ((0 < L)%nat -> (q + 1 <= L + 2 * p)%nat ->
         exists out, ARConv1d.forward self x = Ok out
                     /\ rect3 B C_out (L + 2 * p - q) out)
        /\ ((0 < B)%nat -> (L = 0 \/ L + 2 * p < q + 1)%nat ->
            ARConv1d.forward self x = Raise RuntimeError)
        /\ ((ARConv1d.mode self =? "SAME")%string = true -> (0 < L - q mod 2)%nat ->
            exists out, ARConv1d.forward self x = Ok out
                        /\ rect3 B C_out (L - q mod 2) out)).
Proof.
  intros Hcf Hmode Hx. cbv zeta.
  destruct (cf_sizes _ _ _ _ _ _ Hcf) as (HK & Hd & Hg & Hcpg & HC).
  set (q := (d * (K - 1))%nat).
  set (p := if (ARConv1d.mode self =? "SAME")%string then (q / 2)%nat else 0%nat).
  assert (Hpad : ARConv1d.padding self = Z.of_nat p).
  { rewrite (cf_padding _ _ _ _ _ _ Hcf). unfold ARConv1d.configured_padding.
    rewrite Hmode, (cf_dilation _ _ _ _ _ _ Hcf), (cf_kernel _ _ _ _ _ _ Hcf).
    unfold p, q. destruct (ARConv1d.mode self =? "SAME")%string; [|reflexivity].
    rewrite Nat2Z.inj_div, Nat2Z.inj_mul, Nat2Z.inj_sub by lia. reflexivity. }
  assert (Hw : rect3 C_out cpg K (ARConv1d.normalize_weight self))
    by (apply normalize_weight_jit_rect, (cf_weight _ _ _ _ _ _ Hcf)).
  assert (Hcrop : ARConv1d.causal self && negb (ARConv1d.padding self =? 0)%Z = false).
  { destruct (ARConv1d.causal self); [|reflexivity]. cbn [andb] in *.
    rewrite Hpad. unfold p. rewrite Hmode. reflexivity. }
  split; [exact Hpad|]. split.
  { intros Hnone. unfold ARConv1d.forward. now rewrite Hnone. }
  intros b Hbias Hblen.
  assert (Hok : (0 < L)%nat -> (q + 1 <= L + 2 * p)%nat ->
                exists out, ARConv1d.forward self x = Ok out
                            /\ rect3 B C_out (L + 2 * p - q) out).
  { intros HL Hspan. unfold ARConv1d.forward.
    rewrite Hbias. cbn [Py.call_method bind]. unfold type_as.
    rewrite Hpad, (cf_stride _ _ _ _ _ _ Hcf), (cf_dilation _ _ _ _ _ _ Hcf),
      (cf_groups _ _ _ _ _ _ Hcf).
    change 1%Z with (Z.of_nat 1).
    assert (Hspan' : (d * (K - 1) + 1 <= L + 2 * p)%nat) by (fold q; lia).
    rewrite (conv1d_rect _ _ 1 p d g C_out cpg K B L x Hw Hblen HC Hcpg Hg
               Nat.lt_0_1 Hd (cf_div _ _ _ _ _ _ Hcf) Hx HL Hspan').
    cbn [bind]. rewrite <- Hpad, Hcrop.
    eexists. split; [reflexivity|].
    destruct Hx as [HB _]. split; [now rewrite length_map|].
    rewrite Forall_forall. intros y Hy. apply in_map_iff in Hy as (xb & <- & _).
    fold q. replace (L + 2 * p - q)%nat with ((L + 2 * p - (q + 1)) / 1 + 1)%nat
      by (rewrite Nat.div_1_r; lia).
    apply conv_rows_rect. }
  split; [exact Hok|]. split.
  - intros HB Hshort. unfold ARConv1d.forward.
    rewrite Hbias. cbn [Py.call_method bind]. unfold type_as.
    rewrite Hpad, (cf_stride _ _ _ _ _ _ Hcf), (cf_dilation _ _ _ _ _ _ Hcf),
      (cf_groups _ _ _ _ _ _ Hcf).
    unfold conv1d.
    destruct (Z.leb_spec 1 0); [lia|].
    destruct (Z.ltb_spec (Z.of_nat p) 0); [lia|].
    destruct (Z.leb_spec (Z.of_nat d) 0); [lia|].
    destruct (Z.leb_spec (Z.of_nat g) 0); [lia|].
    cbn [orb]. rewrite !Nat2Z.id.
    destruct Hw as [Hlen Hwrows].
    rewrite Hlen, (cf_div _ _ _ _ _ _ Hcf), Hblen, !Nat.eqb_refl.
    cbn [negb].
    destruct x as [|xb x]; [destruct Hx as [HB0 _]; simpl in HB0; lia|].
    cbn [bind]. rewrite (mapM_raise_first _ xb x RuntimeError); [reflexivity|].
    unfold conv1d_sample.
    destruct (rect3_dims C_out cpg K (ARConv1d.normalize_weight self))
      as (_ & Hc & Hk); [now split | lia | lia |].
    rewrite Hc, Hk.
    destruct Hx as [_ Hall]. pose proof (Forall_inv Hall) as Hxb.
    rewrite (rect2_hd _ _ _ Hxb) by nia. destruct Hxb as [Hxc _].
    rewrite Hxc, Nat.eqb_refl. cbn [negb].
    destruct (Nat.eqb_spec (cpg * g) 0) as [|_]; [nia|]. cbn [negb andb].
    destruct (Nat.eqb_spec L 0) as [|HL0]; [reflexivity|].
    change (Z.to_nat 1) with 1%nat.
    fold q. destruct (Nat.ltb_spec (L + 2 * p) (q + 1)); [reflexivity | lia].
  - intros Hsame HL. unfold p in Hok. rewrite Hsame in Hok.
    pose proof (Nat.div_mod_eq q 2) as Hdm.
    pose proof (Nat.mod_upper_bound q 2 ltac:(lia)) as Hub.
    replace (L - q mod 2)%nat with (L + 2 * (q / 2) - q)%nat by lia.
    apply Hok; lia.
Qed.

End ConvLengths.

(** A non-causal 'SAME' convolution with two taps: q = 1 is odd. *)
Definition conv_two_taps (bias : option (tensor1 R)) : ARConv1d.t R :=
  ARConv1d.mk 1 1 2 1 0 1 1 [[[1; 1]]]%R bias false "SAME" [[[0%R]]].

Lemma conv_two_taps_configured bias : configured (conv_two_taps bias) 1 1 2 1 1.
Proof.
  constructor; try reflexivity.
  - split; [reflexivity|]. repeat constructor.
  - repeat split; lia.
Defined.

Lemma ARConv1d_forward_lengths_witness :
  ARConv1d.forward (conv_two_taps None) [[[1; 2; 3]]]%R
  = Raise (AttributeError "type_as")
  /\ exists out : tensor3 R,
       ARConv1d.forward (conv_two_taps (Some [0%R])) [[[1; 2; 3]]]%R = Ok out
       /\ rect3 1 1 2 out.
Proof.
  split.
  - destruct (ARConv1d_forward_lengths (conv_two_taps None) 1 1 2 1 1 1 3
                [[[1; 2; 3]]]%R) as (_ & Hnone & _).
    + apply conv_two_taps_configured.
    + reflexivity.
    + split; [reflexivity|]. repeat constructor.
    + apply Hnone. reflexivity.
  - destruct (ARConv1d_forward_lengths (conv_two_taps (Some [0%R])) 1 1 2 1 1 1 3
                [[[1; 2; 3]]]%R) as (_ & _ & Hsome).
    + apply conv_two_taps_configured.
    + reflexivity.
    + split; [reflexivity|]. repeat constructor.
    + destruct (Hsome [0%R] eq_refl eq_refl) as (_ & _ & Hsame).
      apply Hsame; [reflexivity | simpl; lia].
Defined.

(** ** Constructors and call sites that cannot succeed *)

Section DeadConstructors.
Context {F : Type} `{Scalar F}.
Variable rand_weight : nat -> nat -> nat -> tensor3 F.
Variable rand_bias : nat -> tensor1 F.

(** X12: the two call sites of [ELUConv] in [neural_ar_operations.py] pass
    keywords [ELUConv.__init__] does not take ([masked], [zero_diag],
    [mirror]), so [AROPS['conv_3x3']] and [MixLogCDFParam.__init__] raise
    [TypeError] for every argument list, before any layer is built. *)
Theorem ELUConv_call_sites_raise :
  (forall C masked zero_diag,
      AROPS_conv_3x3 rand_weight rand_bias C masked zero_diag = Raise TypeError)
  /\ (forall num_z num_mix num_ftr mirror,
         MixLogCDFParam.init rand_weight rand_bias num_z num_mix num_ftr mirror
         = Raise TypeError)
  /\ Py.bind_call ELUConv.init_params 5 [] = Ok tt
  /\ Py.bind_call ELUConv.init_params 2
       ["kernel_size"; "padding"; "weight_init_coeff"] = Ok tt.
Proof. repeat split. Qed.

Lemma ARInvertedResidual_init_NameError (inz inf ex dil k : Z) (mode : string)
    (checkpoint_res : Z) :
  (0 <= inz)%Z -> (0 <= ex)%Z ->
  ARInvertedResidual.init rand_weight rand_bias inz inf ex dil k mode checkpoint_res
  = Raise (NameError "Cin").
Proof.
  intros Hinz Hex. unfold ARInvertedResidual.init, ARConv1d.init, ARConv1d.nn_Conv1d_init.
  cbn [Z.leb Z.compare].
  rewrite !Z.mod_1_r. cbn [Z.eqb negb].
  destruct (Z.ltb_spec inz 0); [lia|].
  destruct (Z.ltb_spec (inz * ex) 0); [nia|].
  reflexivity.
Qed.

(** X13: no flow cell can be constructed.  [CellAR.__init__] raises for
    every argument list: [ZeroDivisionError] when [num_z = 0],
    [AssertionError] when [num_z] does not divide [num_c], and otherwise
    what the construction of its [ARInvertedResidual] raises, which for
    [num_z > 0] is the [NameError] of [ARConv1d.__init__]; so does
    [PairedCellAR.__init__], which builds two such cells. *)
Theorem CellAR_cannot_be_constructed (num_z num_ftr num_c checkpoint_res : Z) :
  raises (CellAR.init rand_weight rand_bias num_z num_ftr num_c checkpoint_res)
  /\ raises (PairedCellAR.init rand_weight rand_bias num_z num_ftr num_c checkpoint_res)
  /\ (num_z = 0%Z ->
      CellAR.init rand_weight rand_bias num_z num_ftr num_c checkpoint_res
      = Raise ZeroDivisionError)
  /\ (num_z <> 0%Z -> (num_c mod num_z)%Z <> 0%Z ->
      CellAR.init rand_weight rand_bias num_z num_ftr num_c checkpoint_res
      = Raise AssertionError)
  /\ ((0 < num_z)%Z -> (num_c mod num_z)%Z = 0%Z ->
      CellAR.init rand_weight rand_bias num_z num_ftr num_c checkpoint_res
      = Raise (NameError "Cin")
      /\ PairedCellAR.init rand_weight rand_bias num_z num_ftr num_c checkpoint_res
         = Raise (NameError "Cin")).
Proof.
  assert (Hcell : raises (CellAR.init rand_weight rand_bias num_z num_ftr num_c
                            checkpoint_res)).
  { unfold CellAR.init.
    destruct (pymod num_c num_z) as [r|e]; [|exists e; reflexivity]. cbn [bind].
    destruct (py_assert (r =? 0)%Z) as [u|e]; [|exists e; reflexivity]. cbn [bind].
    change (Py.bind_call ARInvertedResidual.init_params 2 ["ex"; "checkpoint_res"])
      with (Ok (A:=unit) tt). cbn [bind].
    apply bind_raises.
    unfold ARInvertedResidual.init. apply bind_raises, ARConv1d_init_raises. }
  split; [exact Hcell|]. split.
  { unfold PairedCellAR.init.
    change (Py.bind_call CellAR.init_params 5 []) with (Ok (A:=unit) tt). cbn [bind].
    now apply bind_raises. }
  split; [|split].
  - intros ->. reflexivity.
  - intros Hnz Hmod. unfold CellAR.init, pymod.
    destruct (Z.eqb_spec num_z 0); [contradiction|]. cbn [bind].
    destruct (Z.eqb_spec (num_c mod num_z) 0); [contradiction|]. reflexivity.
  - intros Hpos Hmod.
    assert (E : CellAR.init rand_weight rand_bias num_z num_ftr num_c checkpoint_res
                = Raise (NameError "Cin")).
    { unfold CellAR.init, pymod.
      destruct (Z.eqb_spec num_z 0); [lia|]. cbn [bind].
      rewrite Hmod. cbn [Z.eqb py_assert bind].
      change (Py.bind_call ARInvertedResidual.init_params 2 ["ex"; "checkpoint_res"])
        with (Ok (A:=unit) tt). cbn [bind].
      rewrite ARInvertedResidual_init_NameError by lia. reflexivity. }
    split; [exact E|]. unfold PairedCellAR.init.
    change (Py.bind_call CellAR.init_params 5 []) with (Ok (A:=unit) tt). cbn [bind].
    now rewrite E.
Qed.

(** X14: the mixture branch of the flow cell cannot return.
    [MixLogCDFParam.forward] unpacks the size of a convolution output, which
    has three axes, into four names: whenever its convolution returns it
    raises [ValueError], so it raises on every input; and
    [CellAR.forward] with [use_mix_log_cdf] set raises on every input. *)
Theorem mixture_branch_raises (z ftr : tensor3 F) :
  (forall p : MixLogCDFParam.t F,
      raises (MixLogCDFParam.forward p ftr)
      /\ (forall out, ELUConv.forward (MixLogCDFParam.conv p) ftr = Ok out ->
                      MixLogCDFParam.forward p ftr = Raise ValueError))
  /\ (forall cell : CellAR.t F,
         CellAR.use_mix_log_cdf cell = true -> raises (CellAR.forward cell z ftr)).
Proof.
  assert (Hp : forall (p : MixLogCDFParam.t F) (x : tensor3 F),
             raises (MixLogCDFParam.forward p x)
             /\ (forall out, ELUConv.forward (MixLogCDFParam.conv p) x = Ok out ->
                             MixLogCDFParam.forward p x = Raise ValueError)).
  { intros p x. unfold MixLogCDFParam.forward.
    destruct (ELUConv.forward (MixLogCDFParam.conv p) x) as [out|e].
    - split; [exists ValueError; reflexivity | reflexivity].
    - split; [exists e; reflexivity | discriminate]. }
  split; [intros p; apply Hp|].
  intros cell Hmix. unfold CellAR.forward.
  destruct (ARInvertedResidual.forward (CellAR.conv cell) z ftr) as [[s z']|e];
    [|exists e; reflexivity].
  cbn [bind]. rewrite Hmix.
  destruct (CellAR.param cell) as [p|]; [|exists (AttributeError "param"); reflexivity].
  cbn [Py.call_method bind]. apply bind_raises, Hp.
Qed.

End DeadConstructors.

(** ** [channel_mask]: what it rejects, and the depthwise case *)

Section ChannelMaskEdges.
Context {F : Type} `{Scalar F}.

(** X15: [channel_mask] rejects its arguments as the two assertions say:
    [c_out = 0] is a [ZeroDivisionError]; channel counts neither of which
    divides the other are an [AssertionError]; so is a group count other
    than 1 and [c_in]. *)
Theorem channel_mask_rejects (c_in g_in c_out : Z) (zero_diag : bool) :
  (c_out = 0%Z ->
   channel_mask (F:=F) c_in g_in c_out zero_diag = Raise ZeroDivisionError)
  /\ (c_out <> 0%Z -> (c_in mod c_out)%Z <> 0%Z -> (c_out mod c_in)%Z <> 0%Z ->
      channel_mask (F:=F) c_in g_in c_out zero_diag = Raise AssertionError)
  /\ (c_out <> 0%Z -> ((c_in mod c_out)%Z = 0%Z \/ (c_out mod c_in)%Z = 0%Z) ->
      g_in <> 1%Z -> g_in <> c_in ->
      channel_mask (F:=F) c_in g_in c_out zero_diag = Raise AssertionError).
Proof.
  unfold channel_mask, pymod. repeat split.
  - intros ->. reflexivity.
  - intros Hc H1 H2. destruct (Z.eqb_spec c_out 0); [contradiction|]. cbn [bind].
    destruct (Z.eqb_spec (c_in mod c_out) 0); [contradiction|].
    destruct (Z.eqb_spec c_in 0) as [->|_].
    + exfalso. apply H1. apply Z.mod_0_l. assumption.
    + cbn [bind]. destruct (Z.eqb_spec (c_out mod c_in) 0); [contradiction|].
      reflexivity.
  - intros Hc Hdiv Hg1 Hg2. destruct (Z.eqb_spec c_out 0); [contradiction|].
    cbn [bind].
    assert (Hd : (if (c_in mod c_out =? 0)%Z then Ok true
                  else r2 <- (if (c_in =? 0)%Z then Raise ZeroDivisionError
                              else Ok (c_out mod c_in)%Z) ;; Ok (r2 =? 0)%Z)
                 = Ok true).
    { destruct (Z.eqb_spec (c_in mod c_out) 0) as [|Hn]; [reflexivity|].
      destruct Hdiv as [|Hdiv]; [contradiction|].
      destruct (Z.eqb_spec c_in 0) as [->|_].
      - exfalso. apply Hn. apply Z.mod_0_l. assumption.
      - cbn [bind]. now rewrite Hdiv. }
    rewrite Hd. cbn [bind py_assert].
    destruct (Z.eqb_spec g_in 1); [contradiction|].
    destruct (Z.eqb_spec g_in c_in); [contradiction|]. reflexivity.
Qed.

(** X16: the depthwise case.  With [g_in = c_in > 1] and [c_out] a positive
    multiple of [c_in], [channel_mask] returns an array of shape
    (c_out, 1): every output channel sees its one input channel, and with
    [zero_diag] every entry is [0. * 1]. *)
Theorem channel_mask_depthwise (c_in ratio : nat) (zero_diag : bool) :
  (1 < c_in)%nat -> (0 < ratio)%nat ->
  channel_mask (F:=F) (Z.of_nat c_in) (Z.of_nat c_in) (Z.of_nat (ratio * c_in))
    zero_diag
  = Ok (mk_ndarray [(ratio * c_in)%nat; 1%nat]
          (repeat (if zero_diag then fmul fzero fone else fone) (ratio * c_in))).
Proof.
  intros Hc Hr. unfold channel_mask, pymod, floordiv.
  destruct (Z.eqb_spec (Z.of_nat (ratio * c_in)) 0) as [|_]; [nia|]. cbn [bind].
  destruct (Z.eqb_spec (Z.of_nat c_in) 0) as [|_]; [lia|].
  assert (Hdiv : (Z.of_nat (ratio * c_in) mod Z.of_nat c_in = 0)%Z)
    by (rewrite Nat2Z.inj_mul; apply Z_mod_mult).
  assert (Hd : (if (Z.of_nat c_in mod Z.of_nat (ratio * c_in) =? 0)%Z
                then Ok true
                else r2 <- Ok (Z.of_nat (ratio * c_in) mod Z.of_nat c_in)%Z ;;
                     Ok (r2 =? 0)%Z) = Ok true).
  { destruct (_ =? 0)%Z; [reflexivity|]. cbn [bind]. now rewrite Hdiv. }
  rewrite Hd. cbn [bind py_assert].
  destruct (Z.eqb_spec (Z.of_nat c_in) 1); [lia|].
  rewrite Z.eqb_refl. cbn [orb bind].
  rewrite Z.div_same by lia.
  change 1%Z with (Z.of_nat 1). rewrite ones_2d. cbn [bind].
  rewrite Nat.mul_1_r.
  destruct zero_diag; [|reflexivity].
  unfold scale. cbn [shape data]. now rewrite map_repeat.
Qed.

End ChannelMaskEdges.

Lemma channel_mask_depthwise_witness :
  channel_mask (F:=R) (Z.of_nat 6) (Z.of_nat 6) (Z.of_nat (1 * 6)) false
  = Ok (mk_ndarray [(1 * 6)%nat; 1%nat] (repeat 1%R (1 * 6))).
Proof.
  exact (channel_mask_depthwise (F:=R) 6 1 false ltac:(lia) ltac:(lia)).
Defined.

(** ** The mixture flow is increasing and its log-determinant is the
       logarithm of its derivative *)

Section MixtureFlowJacobian.

Local Open Scope R_scope.

(** The closed form of what [mix_log_cdf_flow] returns at one position. *)
Lemma mix_log_cdf_flow_closed_form (z1 log_a b : R) (logit_pi mu log_s : list R) :
  logit_pi <> [] -> length mu = length logit_pi -> length log_s = length logit_pi ->
  let pi := softmax logit_pi in
  let s := clamped_scale log_s in
  let CDF := mix_cdf pi mu s z1 in
  let PDF := mix_pdf pi mu s z1 in
  0 < CDF < 1 /\ 0 < PDF
  /\ mix_log_cdf_flow (F:=R) z1 logit_pi mu log_s [log_a] [b]
     = Ok (exp log_a * (ln CDF - ln (1 - CDF)) + b,
           log_a - ln CDF - ln (1 - CDF) + ln PDF).
Proof.
  intros Hne Hm Hs. cbv zeta.
  set (S := fsum (map exp logit_pi)).
  assert (HS : 0 < S) by now apply fsum_exp_pos.
  destruct (flow_sums z1 (ln S) logit_pi mu log_s Hm Hs) as (E1 & E2 & E3).
  assert (Hcdf : mix_cdf (softmax logit_pi) mu (clamped_scale log_s) z1
                 = sum3 (fun l m ls =>
                           exp (l - ln S) * sigmoid ((z1 - m) / exp (Rmax ls (-7))))
                        logit_pi mu log_s).
  { unfold mix_cdf, softmax, clamped_scale. rewrite sum3_map. apply sum3_ext.
    intros l m ls. fold S. now rewrite exp_minus_ln. }
  assert (Hpdf : mix_pdf (softmax logit_pi) mu (clamped_scale log_s) z1
                 = sum3 (fun l m ls =>
                           exp (l - ln S)
                           * (sigmoid ((z1 - m) / exp (Rmax ls (-7)))
                              * (1 - sigmoid ((z1 - m) / exp (Rmax ls (-7))))
                              / exp (Rmax ls (-7))))
                        logit_pi mu log_s).
  { unfold mix_pdf, softmax, clamped_scale. rewrite sum3_map. apply sum3_ext.
    intros l m ls. fold S. now rewrite exp_minus_ln. }
  assert (Hone : sum3 (fun l _ _ => exp (l - ln S)) logit_pi mu log_s = 1).
  { rewrite sum3_first by assumption.
    rewrite (map_ext _ (fun l => exp l / S)) by (intros; now apply exp_minus_ln).
    rewrite fsum_div. fold S. field. lra. }
  assert (Hcompl : 1 - mix_cdf (softmax logit_pi) mu (clamped_scale log_s) z1
                   = sum3 (fun l m ls =>
                             exp (l - ln S)
                             * (1 - sigmoid ((z1 - m) / exp (Rmax ls (-7)))))
                          logit_pi mu log_s).
  { transitivity
      (sum3 (fun l _ _ => exp (l - ln S)) logit_pi mu log_s
       - sum3 (fun l m ls =>
                 exp (l - ln S) * sigmoid ((z1 - m) / exp (Rmax ls (-7))))
              logit_pi mu log_s).
    - now rewrite Hone, Hcdf.
    - rewrite <- sum3_minus. apply sum3_ext. intros; lra. }
  assert (Hpos1 : 0 < mix_cdf (softmax logit_pi) mu (clamped_scale log_s) z1).
  { rewrite Hcdf. apply sum3_pos; try assumption. intros l m ls.
    apply Rmult_lt_0_compat; [apply exp_pos | apply sigmoid_bounds]. }
  assert (Hpos2 : 0 < 1 - mix_cdf (softmax logit_pi) mu (clamped_scale log_s) z1).
  { rewrite Hcompl. apply sum3_pos; try assumption. intros l m ls.
    pose proof (sigmoid_bounds ((z1 - m) / exp (Rmax ls (-7)))).
    apply Rmult_lt_0_compat; [apply exp_pos | lra]. }
  assert (Hpos3 : 0 < mix_pdf (softmax logit_pi) mu (clamped_scale log_s) z1).
  { rewrite Hpdf. apply sum3_pos; try assumption. intros l m ls.
    pose proof (sigmoid_bounds ((z1 - m) / exp (Rmax ls (-7)))).
    pose proof (exp_pos (Rmax ls (-7))).
    apply Rmult_lt_0_compat; [apply exp_pos|].
    apply Rdiv_lt_0_compat; [|assumption].
    apply Rmult_lt_0_compat; lra. }
  split; [lra|]. split; [exact Hpos3|].
  rewrite (mix_log_cdf_flow_code z1 log_a b logit_pi mu log_s Hm Hs). cbv zeta.
  fold S. now rewrite E1, E2, E3, <- Hcdf, <- Hcompl, <- Hpdf.
Qed.

Lemma derivable_pt_lim_value (f : R -> R) (x l l' : R) :
  derivable_pt_lim f x l -> l = l' -> derivable_pt_lim f x l'.
Proof. intros Hf <-. exact Hf. Qed.

Lemma sigmoid_derivative (x : R) :
  derivable_pt_lim sigmoid x (sigmoid x * (1 - sigmoid x)).
Proof.
  pose proof (exp_pos (- x)) as Hp.
  assert (Hden : derivable_pt_lim (fun t => 1 + exp (- t)) x (- exp (- x))).
  { apply (derivable_pt_lim_value _ _ (0 + exp (- x) * -1)); [|lra].
    apply (derivable_pt_lim_plus (fct_cte 1) (fun t => exp (- t))).
    - apply derivable_pt_lim_const.
    - apply (derivable_pt_lim_comp (fun t => - t) exp).
      + apply (derivable_pt_lim_value _ _ (- 1)); [|lra].
        apply (derivable_pt_lim_opp id). apply derivable_pt_lim_id.
      + apply derivable_pt_lim_exp. }
  apply (derivable_pt_lim_value _ _
           ((0 * (1 + exp (- x)) - - exp (- x) * 1) / Rsqr (1 + exp (- x)))).
  - apply (derivable_pt_lim_div (fct_cte 1) (fun t => 1 + exp (- t))).
    + apply derivable_pt_lim_const.
    + exact Hden.
    + lra.
  - rewrite sigmoid_complement. unfold sigmoid, fct_cte, Rsqr. field. lra.
Qed.

Lemma sigmoid_scaled_derivative (m s z : R) :
  s <> 0 ->
  derivable_pt_lim (fun t => sigmoid ((t - m) / s)) z
    (sigmoid ((z - m) / s) * (1 - sigmoid ((z - m) / s)) / s).
Proof.
  intros Hs.
  apply (derivable_pt_lim_value _ _
           (sigmoid ((z - m) / s) * (1 - sigmoid ((z - m) / s)) * (/ s)));
    [|unfold Rdiv; reflexivity].
  apply (derivable_pt_lim_comp (fun t => (t - m) / s) sigmoid).
  - apply (derivable_pt_lim_value _ _ ((1 - 0) * / s + (z - m) * 0)); [|lra].
    apply (derivable_pt_lim_mult (fun t => t - m) (fct_cte (/ s))).
    + apply (derivable_pt_lim_minus id (fct_cte m)).
      * apply derivable_pt_lim_id.
      * apply derivable_pt_lim_const.
    + apply derivable_pt_lim_const.
  - apply sigmoid_derivative.
Qed.

(** The mixture density is the derivative of the mixture CDF. *)
Lemma mix_cdf_derivative (pi mu s : list R) (z : R) :
  Forall (fun sk => sk <> 0) s ->
  derivable_pt_lim (mix_cdf pi mu s) z (mix_pdf pi mu s z).
Proof.
  unfold mix_cdf, mix_pdf. intros Hs. revert pi mu.
  induction Hs as [|sk s Hsk _ IH]; intros pi mu.
  - destruct pi as [|p pi]; [|destruct mu as [|m mu]]; simpl;
      apply (derivable_pt_lim_const 0).
  - destruct pi as [|p pi]; [apply (derivable_pt_lim_const 0)|].
    destruct mu as [|m mu]; [apply (derivable_pt_lim_const 0)|].
    cbn [sum3].
    apply (derivable_pt_lim_plus
             (fun t => p * sigmoid ((t - m) / sk))
             (fun t => sum3 (fun p0 m0 sk0 => p0 * sigmoid ((t - m0) / sk0)) pi mu s)).
    + apply (derivable_pt_lim_scal (fun t => sigmoid ((t - m) / sk)) p).
      now apply sigmoid_scaled_derivative.
    + apply IH.
Qed.

Lemma sigmoid_increasing (x y : R) : x < y -> sigmoid x < sigmoid y.
Proof.
  intros Hxy. unfold sigmoid.
  pose proof (exp_pos (- x)). pose proof (exp_pos (- y)).
  assert (exp (- y) < exp (- x)) by (apply exp_increasing; lra).
  unfold Rdiv. rewrite !Rmult_1_l.
  apply Rinv_lt_contravar; [apply Rmult_lt_0_compat; lra | lra].
Qed.

Lemma sum3_lt (f g : R -> R -> R -> R) (l1 l2 l3 : list R) :
  (forall a b c, f a b c < g a b c) -> l1 <> [] ->
  length l2 = length l1 -> length l3 = length l1 ->
  sum3 f l1 l2 l3 < sum3 g l1 l2 l3.
Proof.
  intros Hfg.
  assert (Hle : forall l1 l2 l3, sum3 f l1 l2 l3 <= sum3 g l1 l2 l3).
  { induction l0 as [|a l0 IH]; intros [|b l4] [|c l5]; simpl; try lra.
    pose proof (Hfg a b c). pose proof (IH l4 l5). lra. }
  destruct l1 as [|a l1]; [congruence|]. destruct l2 as [|b l2], l3 as [|c l3];
    simpl; try discriminate. intros _ _ _.
  pose proof (Hfg a b c). pose proof (Hle l1 l2 l3). lra.
Qed.

Lemma mix_cdf_increasing (logit_pi mu log_s : list R) (z z' : R) :
  logit_pi <> [] -> length mu = length logit_pi -> length log_s = length logit_pi ->
  z < z' ->
  mix_cdf (softmax logit_pi) mu (clamped_scale log_s) z
  < mix_cdf (softmax logit_pi) mu (clamped_scale log_s) z'.
Proof.
  intros Hne Hm Hs Hz. unfold mix_cdf, softmax, clamped_scale.
  rewrite !sum3_map. apply sum3_lt; try assumption.
  intros l m ls.
  pose proof (exp_pos l) as Hl. pose proof (fsum_exp_pos logit_pi Hne) as HS.
  pose proof (exp_pos (Rmax ls (-7))) as Hsc.
  apply Rmult_lt_compat_l; [now apply Rdiv_lt_0_compat|].
  apply sigmoid_increasing. unfold Rdiv.
  apply Rmult_lt_compat_r; [now apply Rinv_0_lt_compat | lra].
Qed.

(** X17: at every position the mixture flow is a strictly increasing map of
    [z], so it can be inverted, and the log-determinant it returns is the
    logarithm of the derivative of that map: the code's analytic Jacobian is
    the true one.  (Real arithmetic; k >= 1 mixture components.) *)
Theorem mix_log_cdf_flow_jacobian (log_a b : R) (logit_pi mu log_s : list R) :
  logit_pi <> [] -> length mu = length logit_pi -> length log_s = length logit_pi ->
  exists new_z log_det : R -> R,
    (forall z, mix_log_cdf_flow (F:=R) z logit_pi mu log_s [log_a] [b]
               = Ok (new_z z, log_det z))
    /\ (forall z, derivable_pt_lim new_z z (exp (log_det z)))
    /\ (forall z z', z < z' -> new_z z < new_z z').
Proof.
  intros Hne Hm Hs.
  set (C := mix_cdf (softmax logit_pi) mu (clamped_scale log_s)).
  set (P := mix_pdf (softmax logit_pi) mu (clamped_scale log_s)).
  exists (fun z => exp log_a * (ln (C z) - ln (1 - C z)) + b),
         (fun z => log_a - ln (C z) - ln (1 - C z) + ln (P z)).
  assert (Hform : forall z,
            0 < C z < 1 /\ 0 < P z
            /\ mix_log_cdf_flow (F:=R) z logit_pi mu log_s [log_a] [b]
               = Ok (exp log_a * (ln (C z) - ln (1 - C z)) + b,
                     log_a - ln (C z) - ln (1 - C z) + ln (P z))).
  { intros z. exact (mix_log_cdf_flow_closed_form z log_a b logit_pi mu log_s Hne Hm Hs). }
  split; [intros z; apply Hform|]. split.
  - intros z. destruct (Hform z) as ([HC0 HC1] & HP & _).
    assert (HdC : derivable_pt_lim C z (P z)).
    { apply mix_cdf_derivative. unfold clamped_scale.
      rewrite Forall_forall. intros sk Hin. apply in_map_iff in Hin as (ls & <- & _).
      pose proof (exp_pos (Rmax ls (-7))). lra. }
    assert (HlnC : derivable_pt_lim (fun t => ln (C t)) z (/ C z * P z)).
    { apply (derivable_pt_lim_comp C ln); [exact HdC|].
      now apply derivable_pt_lim_ln. }
    assert (HlnC1 : derivable_pt_lim (fun t => ln (1 - C t)) z (/ (1 - C z) * (0 - P z))).
    { apply (derivable_pt_lim_comp (fun t => 1 - C t) ln).
      - apply (derivable_pt_lim_minus (fct_cte 1) C);
          [apply derivable_pt_lim_const | exact HdC].
      - apply derivable_pt_lim_ln. lra. }
    apply (derivable_pt_lim_value _ _
             (exp log_a * (/ C z * P z - / (1 - C z) * (0 - P z)) + 0)).
    + apply (derivable_pt_lim_plus
               (fun t => exp log_a * (ln (C t) - ln (1 - C t))) (fct_cte b));
        [|apply derivable_pt_lim_const].
      apply (derivable_pt_lim_scal (fun t => ln (C t) - ln (1 - C t)) (exp log_a)).
      apply (derivable_pt_lim_minus (fun t => ln (C t)) (fun t => ln (1 - C t)));
        assumption.
    + replace (log_a - ln (C z) - ln (1 - C z) + ln (P z))
        with (log_a + (ln (P z) + (- ln (C z) + - ln (1 - C z)))) by lra.
      rewrite !exp_plus, !exp_Ropp, !exp_ln by lra. field. lra.
  - intros z z' Hz.
    destruct (Hform z) as ([HC0 HC1] & _). destruct (Hform z') as ([HC0' HC1'] & _).
    pose proof (mix_cdf_increasing logit_pi mu log_s z z' Hne Hm Hs Hz) as Hinc.
    fold C in Hinc.
    assert (ln (C z) < ln (C z')) by (apply ln_increasing; lra).
    assert (ln (1 - C z') < ln (1 - C z)) by (apply ln_increasing; lra).
    pose proof (exp_pos log_a).
    apply Rplus_lt_compat_r. apply Rmult_lt_compat_l; lra.
Qed.

End MixtureFlowJacobian.

Lemma mix_log_cdf_flow_jacobian_witness :
  exists new_z log_det : R -> R,
    (forall z, mix_log_cdf_flow (F:=R) z [0; 0]%R [0; 1]%R [0; -9]%R [0%R] [1%R]
               = Ok (new_z z, log_det z))
    /\ (forall z, derivable_pt_lim new_z z (exp (log_det z)))
    /\ (forall z z', (z < z')%R -> (new_z z < new_z z')%R).
Proof.
  apply (mix_log_cdf_flow_jacobian 0 1 [0; 0]%R [0; 1]%R [0; -9]%R).
  - discriminate.
  - reflexivity.
  - reflexivity.
Defined.

(** ** [preprocess] and [postprocess] *)

Section Processing.
Context {F : Type} `{Scalar F}.

Lemma transpose_rect (T C : nat) (xb : tensor2 F) :
  rect2 T C xb -> (0 < T)%nat -> rect2 C T (transpose xb).
Proof.
  intros Hx HT. unfold transpose. rewrite (rect2_hd _ _ _ Hx HT).
  destruct Hx as [HTl _]. split; [now rewrite length_map, length_seq|].
  rewrite Forall_forall. intros r Hr. apply in_map_iff in Hr as (c & <- & _).
  now rewrite length_map.
Qed.

Lemma transpose_nth (T C : nat) (xb : tensor2 F) (c t : nat) :
  rect2 T C xb -> (0 < T)%nat -> (c < C)%nat -> (t < T)%nat ->
  nth t (nth c (transpose xb) []) fzero = nth c (nth t xb []) fzero.
Proof.
  intros Hx HT Hc Ht. unfold transpose. rewrite (rect2_hd _ _ _ Hx HT).
  rewrite (nth_map_seq _ [] C c Hc).
  destruct Hx as [HTl _].
  rewrite (nth_indep _ fzero ((fun row => nth c row fzero) []))
    by (rewrite length_map; lia).
  apply (map_nth (fun row => nth c row fzero)).
Qed.

Lemma transpose_involutive (T C : nat) (xb : tensor2 F) :
  rect2 T C xb -> (0 < T)%nat -> (0 < C)%nat -> transpose (transpose xb) = xb.
Proof.
  intros Hx HT HC.
  pose proof (transpose_rect T C xb Hx HT) as Hy.
  pose proof (transpose_rect C T _ Hy HC) as Hz.
  pose proof Hx as Hx0.
  destruct Hx as [HTl Hrows]. destruct Hz as [HTl' Hrows'].
  apply (nth_ext _ _ [] []); [exact (eq_trans HTl' (eq_sym HTl))|].
  intros t Ht. rewrite HTl' in Ht.
  rewrite Forall_forall in Hrows, Hrows'.
  assert (Hl : length (nth t xb []) = C) by (apply Hrows, nth_In; lia).
  assert (Hl' : length (nth t (transpose (transpose xb)) []) = C)
    by (apply Hrows', nth_In; lia).
  apply (nth_ext _ _ fzero fzero); [exact (eq_trans Hl' (eq_sym Hl))|].
  intros c Hc. rewrite Hl' in Hc.
  rewrite (transpose_nth C T (transpose xb) t c Hy HC Ht Hc).
  apply (transpose_nth T C xb c t); assumption.
Qed.

Lemma transpose_map (f : F -> F) (T C : nat) (xb : tensor2 F) :
  rect2 T C xb -> transpose (map (map f) xb) = map (map f) (transpose xb).
Proof.
  intros [HT Hrows]. unfold transpose.
  replace (length (hd [] (map (map f) xb))) with (length (hd [] xb))
    by (destruct xb; simpl; [reflexivity | now rewrite length_map]).
  rewrite map_map. apply map_ext_in. intros c Hc. apply in_seq in Hc.
  rewrite !map_map. apply map_ext_in. intros row Hrow.
  rewrite Forall_forall in Hrows.
  assert (Hlen : length (hd [] xb) = length row).
  { rewrite (Hrows row Hrow). destruct xb as [|r0 xb]; [contradiction|].
    simpl. apply Hrows. now left. }
  rewrite (nth_indep _ fzero (f fzero)) by (rewrite length_map; lia).
  apply map_nth.
Qed.

(** X18: [postprocess] undoes the transposition of [preprocess], and what
    is left is the conversion to single precision.  For a batch of shape
    (N, T, C) with T, C > 0, [preprocess] returns the tensor of shape
    (N, C, T) whose entry (n, c, t) is the input's entry (n, t, c)
    converted, and [postprocess] of it is the input with every entry
    converted: the input itself exactly when the conversion changes none
    of its entries (a float32 batch), and not for a float64 or integer
    batch that holds a value single precision rounds. *)
Theorem postprocess_preprocess (float32 : F -> F) (N T C : nat) (x : tensor3 F) :
  rect3 N T C x -> (0 < T)%nat -> (0 < C)%nat ->
  exists y,
    AutoEncoder.preprocess float32 x = Ok y
    /\ rect3 N C T y
    /\ (forall n c t, (n < N)%nat -> (c < C)%nat -> (t < T)%nat ->
                      entry y n c t = float32 (entry x n t c))
    /\ AutoEncoder.postprocess y = map3 float32 x
    /\ (AutoEncoder.postprocess y = x
        <-> forall n t c, (n < N)%nat -> (t < T)%nat -> (c < C)%nat ->
                          float32 (entry x n t c) = entry x n t c).
Proof.
  intros Hx HT HC. unfold AutoEncoder.preprocess, AutoEncoder.postprocess, float.
  cbn [size length Nat.eqb py_assert bind].
  exists (map3 float32 (permute_0_2_1 x)). split; [reflexivity|].
  pose proof Hx as Hx0.
  destruct Hx as [HN Hall]. rewrite Forall_forall in Hall.
  assert (Hperm : rect3 N C T (permute_0_2_1 x)).
  { split; [unfold permute_0_2_1; now rewrite length_map|].
    rewrite Forall_forall. intros yb Hy. apply in_map_iff in Hy as (xb & <- & Hin).
    apply transpose_rect; auto. }
  assert (Hback : permute_0_2_1 (map3 float32 (permute_0_2_1 x)) = map3 float32 x).
  { unfold permute_0_2_1, map3. rewrite !map_map. apply map_ext_in.
    intros xb Hin. rewrite (transpose_map float32 C T).
    - now rewrite (transpose_involutive T C) by auto.
    - apply transpose_rect; auto. }
  assert (Hentry : forall n t c, (n < N)%nat -> (t < T)%nat -> (c < C)%nat ->
            entry (map3 float32 x) n t c = float32 (entry x n t c)).
  { intros n t c Hn Ht Hc. rewrite entry_map3, (rect3_row_length _ _ _ _ _ _ Hx0).
    destruct (Nat.ltb_spec n N), (Nat.ltb_spec t T); try lia. cbn [andb].
    destruct (Nat.ltb_spec c C); [reflexivity | lia]. }
  split; [now apply map3_rect|]. split; [|split; [exact Hback|]].
  - intros n c t Hn Hc Ht. rewrite entry_map3, (rect3_row_length _ _ _ _ _ _ Hperm).
    destruct (Nat.ltb_spec n N), (Nat.ltb_spec c C); try lia. cbn [andb].
    destruct (Nat.ltb_spec t T); [|lia]. f_equal. unfold entry, permute_0_2_1.
    change (nth n (map transpose x) []) with (nth n (map transpose x) (transpose [])).
    rewrite (map_nth transpose).
    apply (transpose_nth T C); auto. apply Hall, nth_In. lia.
  - rewrite Hback. split.
    + intros E n t c Hn Ht Hc. rewrite <- Hentry by assumption. now rewrite E.
    + intros Hfix. pose proof (map3_rect float32 N T C x Hx0) as Hm.
      destruct Hm as [HNm Hallm]. rewrite Forall_forall in Hallm.
      apply (nth_ext _ _ [] []); [exact (eq_trans HNm (eq_sym HN))|].
      intros n Hn. rewrite HNm in Hn.
      destruct (Hallm (nth n (map3 float32 x) [])) as [HTm Hrm];
        [apply nth_In; lia|].
      destruct (Hall (nth n x [])) as [HTx Hrx]; [apply nth_In; lia|].
      rewrite Forall_forall in Hrm, Hrx.
      apply (nth_ext _ _ [] []); [exact (eq_trans HTm (eq_sym HTx))|].
      intros t Ht. rewrite HTm in Ht.
      assert (HCm : length (nth t (nth n (map3 float32 x) []) []) = C)
        by (apply Hrm, nth_In; lia).
      assert (HCx : length (nth t (nth n x []) []) = C)
        by (apply Hrx, nth_In; lia).
      apply (nth_ext _ _ fzero fzero); [exact (eq_trans HCm (eq_sym HCx))|].
      intros c Hc. rewrite HCm in Hc.
      change (entry (map3 float32 x) n t c = entry x n t c).
      rewrite Hentry by assumption. now apply Hfix.
Qed.

End Processing.

Lemma postprocess_preprocess_witness :
  exists y : tensor3 R,
    AutoEncoder.preprocess (fun v => v) [[[1; 2]; [3; 4]; [5; 6]]]%R = Ok y
    /\ rect3 1 2 3 y
    /\ AutoEncoder.postprocess y = [[[1; 2]; [3; 4]; [5; 6]]]%R.
Proof.
  destruct (postprocess_preprocess (fun v : R => v) 1 3 2 [[[1; 2]; [3; 4]; [5; 6]]]%R)
    as (y & E & Hrect & _ & Hback & _).
  - split; [reflexivity | repeat constructor].
  - lia.
  - lia.
  - exists y. split; [exact E|]. split; [exact Hrect|]. rewrite Hback. reflexivity.
Defined.

(** ** The channel plan of the encoder side

    [AutoEncoder.__init__] builds the pre-processing blocks and the encoder
    tower with a running channel multiplier [mult] (lines 161-166, 210-255).
    The cells are classes of [neural_operations]; each constructor call is
    kept here with its channel arguments and its [cell_type].  On this side
    [mult] stays a Python [int], so [int(...)] changes nothing. *)

Module ChannelPlan.

Inductive call : Type :=
| Cell (Cin Cout : Z) (cell_type : string)
| EncCombinerCell (Cin1 Cin2 Cout : Z) (cell_type : string).

(** Channels of the tensor a cell takes from its predecessor, and of the one
    it hands on. *)
Definition c_in (c : call) : Z :=
  match c with
  | Cell Cin _ _ => Cin
  | EncCombinerCell Cin1 _ _ _ => Cin1
  end.

Definition c_out (c : call) : Z :=
  match c with
  | Cell _ Cout _ => Cout
  | EncCombinerCell _ _ Cout _ => Cout
  end.

Definition cell_type (c : call) : string :=
  match c with
  | Cell _ _ ty => ty
  | EncCombinerCell _ _ _ ty => ty
  end.

Definition CHANNEL_MULT : Z := 2.

Section Init.
Variables num_channels_enc num_channels_dec : Z.
Variables num_preprocess_blocks num_preprocess_cells : Z.
Variables num_latent_scales num_groups_per_scale num_cell_per_cond_enc : Z.
Variable groups_per_scale : list Z.

(** Line 154; the exponent is not negative where it is used below. *)
Definition c_scaling : Z :=
  CHANNEL_MULT ^ (num_preprocess_blocks + num_latent_scales - 1).

Definition vanilla_vae : bool :=
  ((num_latent_scales =? 1) && (num_groups_per_scale =? 1))%Z.

(** The cells of one pre-processing block (lines 213-225). *)
Definition pre_process_cells (mult : Z) (pre_process : list call)
  : result (list call * Z) :=
  for_each (Py.range num_preprocess_cells)
    (fun '(pre_process, mult) c =>
       if (c =? num_preprocess_cells - 1)%Z
       then
         let num_ci := (num_channels_enc * mult)%Z in
         let num_co := (CHANNEL_MULT * num_ci)%Z in
         let cell := Cell num_ci num_co "down_pre" in
         let mult := (CHANNEL_MULT * mult)%Z in
         Ok (pre_process ++ [cell], mult)
       else
         let num_c := (num_channels_enc * mult)%Z in
         let cell := Cell num_c num_c "normal_pre" in
         Ok (pre_process ++ [cell], mult))
    (pre_process, mult).

Definition init_pre_process (mult : Z) : result (list call * Z) :=
  for_each (Py.range num_preprocess_blocks)
    (fun '(pre_process, mult) b => pre_process_cells mult pre_process)
    ([], mult).

Definition encoder_scale_cells (s n mult : Z) (enc_tower : list call)
  : result (list call) :=
  for_each (Py.range n)
    (fun enc_tower g =>
       let num_c := (num_channels_enc * mult)%Z in
       let enc_tower :=
         enc_tower ++ repeat (Cell num_c num_c "normal_enc")
                        (Z.to_nat num_cell_per_cond_enc) in
       (* add encoder combiner *)
       if negb ((s =? num_latent_scales - 1) && (g =? n - 1))%Z
       then
         let num_ce := (num_channels_enc * mult)%Z in
         let num_cd := (num_channels_dec * mult)%Z in
         Ok (enc_tower ++ [EncCombinerCell num_ce num_cd num_ce "combiner_enc"])
       else Ok enc_tower)
    enc_tower.

Definition init_encoder_tower (mult : Z) : result (list call * Z) :=
  for_each (Py.range num_latent_scales)
    (fun '(enc_tower, mult) s =>
       n <- Py.index groups_per_scale s ;;
       enc_tower <- encoder_scale_cells s n mult enc_tower ;;
       (* down cells after finishing a scale *)
       if (s <? num_latent_scales - 1)%Z
       then
         let num_ci := (num_channels_enc * mult)%Z in
         let num_co := (CHANNEL_MULT * num_ci)%Z in
         Ok (enc_tower ++ [Cell num_ci num_co "down_enc"], (CHANNEL_MULT * mult)%Z)
       else Ok (enc_tower, mult))
    ([], mult).

(** Lines 161-166 of [__init__]: the pre-processing blocks, then the encoder
    tower unless the model is a vanilla VAE; the last component is the
    [mult] handed to [init_encoder0] and [init_normal_sampler]. *)
Definition init_encoder_side : result (list call * list call * Z) :=
  '(pre_process, mult) <- init_pre_process 1 ;;
  if vanilla_vae
  then Ok (pre_process, [], mult)
  else
    '(enc_tower, mult) <- init_encoder_tower mult ;;
    Ok (pre_process, enc_tower, mult).

End Init.

End ChannelPlan.

(** A run of cells from [a] channels to [b] channels in which every cell
    takes what its predecessor hands on. *)
Fixpoint chained (a : Z) (l : list ChannelPlan.call) (b : Z) : Prop :=
  match l with
  | [] => a = b
  | c :: l' => ChannelPlan.c_in c = a /\ chained (ChannelPlan.c_out c) l' b
  end.

Lemma chained_app (a m b : Z) (l1 l2 : list ChannelPlan.call) :
  chained a l1 m -> chained m l2 b -> chained a (l1 ++ l2) b.
Proof.
  revert a. induction l1 as [|c l1 IH]; intros a H1 H2; simpl in *.
  - now subst.
  - destruct H1 as [Hc H1]. split; [exact Hc | now apply IH].
Qed.

Lemma chained_repeat (a : Z) (ty : string) (k : nat) :
  chained a (repeat (ChannelPlan.Cell a a ty) k) a.
Proof. induction k as [|k IH]; simpl; [reflexivity | now split]. Qed.

Lemma chained_snoc (a m b : Z) (l : list ChannelPlan.call) (c : ChannelPlan.call) :
  chained a l m -> ChannelPlan.c_in c = m -> ChannelPlan.c_out c = b ->
  chained a (l ++ [c]) b.
Proof.
  intros Hl Hin Hout. apply (chained_app a m b); [exact Hl|]. simpl. now split.
Qed.

(** Two loops over the same list whose bodies keep a relation between
    their states. *)
Definition result_rel {S1 S2 : Type} (R : S1 -> S2 -> Prop)
    (r1 : result S1) (r2 : result S2) : Prop :=
  match r1, r2 with
  | Ok x, Ok y => R x y
  | Raise e1, Raise e2 => e1 = e2
  | _, _ => False
  end.

Lemma for_each_rel {A S1 S2 : Type} (R : S1 -> S2 -> Prop)
    (b1 : S1 -> A -> result S1) (b2 : S2 -> A -> result S2) (l : list A) :
  (forall s1 s2 a, R s1 s2 -> result_rel R (b1 s1 a) (b2 s2 a)) ->
  forall s1 s2, R s1 s2 -> result_rel R (for_each l b1 s1) (for_each l b2 s2).
Proof.
  intros Hstep. induction l as [|a l IH]; intros s1 s2 HR; simpl; [exact HR|].
  specialize (Hstep s1 s2 a HR). unfold result_rel in Hstep.
  destruct (b1 s1 a) as [x|e1], (b2 s2 a) as [y|e2]; simpl; try contradiction.
  - now apply IH.
  - exact Hstep.
Qed.

Section EncoderChannels.
Variables num_channels_enc num_channels_dec : Z.
Variables num_preprocess_blocks num_preprocess_cells : Z.
Variables num_latent_scales num_groups_per_scale num_cell_per_cond_enc : Z.
Variable groups_per_scale : list Z.

Lemma pre_process_cells_channels (a m : Z) (acc : list ChannelPlan.call) :
  (1 <= num_preprocess_cells)%Z ->
  chained a acc (num_channels_enc * m) ->
  exists acc',
    ChannelPlan.pre_process_cells num_channels_enc num_preprocess_cells m acc
    = Ok (acc', (2 * m)%Z)
    /\ chained a acc' (num_channels_enc * (2 * m)).
Proof.
  intros Hcells Hacc. unfold ChannelPlan.pre_process_cells, Py.range.
  pose (Inv := fun (t : nat) (st : list ChannelPlan.call * Z) =>
    chained a (fst st) (num_channels_enc * snd st)
    /\ snd st = if (Z.of_nat t =? num_preprocess_cells)%Z then (2 * m)%Z else m).
  match goal with
  | |- exists acc', for_each _ ?body _ = _ /\ _ =>
      destruct (for_each_range_inv Inv body (Z.to_nat num_preprocess_cells)) with
        (k := Z.to_nat num_preprocess_cells) (t := 0%nat) (s := (acc, m))
        as ([acc' m'] & E & Hch & Hm)
  end.
  - intros t [l mult] Ht [Hch Hm]. cbn [fst snd] in *.
    destruct (Z.eqb_spec (Z.of_nat t) num_preprocess_cells) as [|_]; [lia|]. subst mult.
    destruct (Z.eqb_spec (Z.of_nat t) (num_preprocess_cells - 1)) as [Hlast|Hnot];
      (eexists; split; [reflexivity|]); unfold Inv; cbn [fst snd].
    + destruct (Z.eqb_spec (Z.of_nat (S t)) num_preprocess_cells); [|lia].
      split; [|reflexivity].
      apply (chained_snoc a (num_channels_enc * m)); [exact Hch | reflexivity |].
      unfold ChannelPlan.CHANNEL_MULT. cbn [ChannelPlan.c_out]. ring.
    + destruct (Z.eqb_spec (Z.of_nat (S t)) num_preprocess_cells); [lia|].
      split; [|reflexivity].
      now apply (chained_snoc a (num_channels_enc * m)).
  - lia.
  - unfold Inv. cbn [fst snd].
    destruct (Z.eqb_spec (Z.of_nat 0) num_preprocess_cells); [lia|]. now split.
  - cbn [fst snd] in *.
    destruct (Z.eqb_spec (Z.of_nat (Z.to_nat num_preprocess_cells)) num_preprocess_cells);
      [|lia].
    subst m'. exists acc'. split; [exact E | exact Hch].
Qed.

Lemma init_pre_process_channels (m : Z) :
  (1 <= num_preprocess_cells)%Z ->
  exists pre_process,
    ChannelPlan.init_pre_process num_channels_enc num_preprocess_blocks
      num_preprocess_cells m
    = Ok (pre_process, (m * 2 ^ Z.max 0 num_preprocess_blocks)%Z)
    /\ chained (num_channels_enc * m) pre_process
         (num_channels_enc * (m * 2 ^ Z.max 0 num_preprocess_blocks)).
Proof.
  intros Hcells. unfold ChannelPlan.init_pre_process, Py.range.
  pose (Inv := fun (t : nat) (st : list ChannelPlan.call * Z) =>
    chained (num_channels_enc * m) (fst st) (num_channels_enc * snd st)
    /\ snd st = (m * 2 ^ Z.of_nat t)%Z).
  match goal with
  | |- exists p, for_each _ ?body _ = _ /\ _ =>
      destruct (for_each_range_inv Inv body (Z.to_nat num_preprocess_blocks)) with
        (k := Z.to_nat num_preprocess_blocks) (t := 0%nat)
        (s := (@nil ChannelPlan.call, m))
        as ([acc' m'] & E & Hch & Hm)
  end.
  - intros t [l mult] Ht [Hch Hm]. cbn [fst snd] in *.
    destruct (pre_process_cells_channels (num_channels_enc * m) mult l Hcells Hch)
      as (l' & E & Hch').
    exists (l', (2 * mult)%Z). split; [exact E|]. split; [exact Hch'|].
    cbn [snd]. rewrite Hm, Nat2Z.inj_succ, Z.pow_succ_r by lia. lia.
  - lia.
  - unfold Inv. cbn [fst snd chained]. split; [reflexivity|]. simpl. lia.
  - cbn [fst snd] in *.
    replace (Z.of_nat (Z.to_nat num_preprocess_blocks))
      with (Z.max 0 num_preprocess_blocks) in Hm by lia.
    subst m'. exists acc'. split; [exact E | exact Hch].
Qed.

Lemma encoder_scale_cells_channels (a s n m : Z) (acc : list ChannelPlan.call) :
  chained a acc (num_channels_enc * m) ->
  exists acc',
    ChannelPlan.encoder_scale_cells num_channels_enc num_channels_dec num_latent_scales
      num_cell_per_cond_enc s n m acc = Ok acc'
    /\ chained a acc' (num_channels_enc * m).
Proof.
  intros Hacc. unfold ChannelPlan.encoder_scale_cells, Py.range.
  pose (Inv := fun (_ : nat) (l : list ChannelPlan.call) =>
    chained a l (num_channels_enc * m)).
  match goal with
  | |- exists acc', for_each _ ?body _ = _ /\ _ =>
      destruct (for_each_range_inv Inv body (Z.to_nat n)) with
        (k := Z.to_nat n) (t := 0%nat) (s := acc) as (acc' & E & Hch)
  end.
  - intros t l _ Hch. unfold Inv in *.
    assert (Hnorm : chained a
              (l ++ repeat (ChannelPlan.Cell (num_channels_enc * m)
                              (num_channels_enc * m) "normal_enc")
                      (Z.to_nat num_cell_per_cond_enc)) (num_channels_enc * m)).
    { apply (chained_app a (num_channels_enc * m)); [exact Hch|].
      apply chained_repeat. }
    destruct (negb _); (eexists; split; [reflexivity|]).
    + now apply (chained_snoc a (num_channels_enc * m)).
    + exact Hnorm.
  - lia.
  - exact Hacc.
  - exists acc'. split; [exact E | exact Hch].
Qed.

Lemma init_encoder_tower_channels (m : Z) :
  (1 <= num_latent_scales)%Z ->
  (num_latent_scales <= Z.of_nat (length groups_per_scale))%Z ->
  exists enc_tower,
    ChannelPlan.init_encoder_tower num_channels_enc num_channels_dec num_latent_scales
      num_cell_per_cond_enc groups_per_scale m
    = Ok (enc_tower, (m * 2 ^ (num_latent_scales - 1))%Z)
    /\ chained (num_channels_enc * m) enc_tower
         (num_channels_enc * (m * 2 ^ (num_latent_scales - 1))).
Proof.
  intros Hscales Hgroups. unfold ChannelPlan.init_encoder_tower, Py.range.
  pose (Inv := fun (t : nat) (st : list ChannelPlan.call * Z) =>
    chained (num_channels_enc * m) (fst st) (num_channels_enc * snd st)
    /\ snd st = (m * 2 ^ Z.min (Z.of_nat t) (num_latent_scales - 1))%Z).
  match goal with
  | |- exists p, for_each _ ?body _ = _ /\ _ =>
      destruct (for_each_range_inv Inv body (Z.to_nat num_latent_scales)) with
        (k := Z.to_nat num_latent_scales) (t := 0%nat)
        (s := (@nil ChannelPlan.call, m))
        as ([acc' m'] & E & Hch & Hm)
  end.
  - intros t [l mult] Ht [Hch Hm]. cbn [fst snd] in *.
    rewrite (index_nth groups_per_scale t) by lia. cbn [bind].
    destruct (encoder_scale_cells_channels (num_channels_enc * m) (Z.of_nat t)
                (nth t groups_per_scale 0%Z) mult l Hch) as (l' & E & Hch').
    rewrite E. cbn [bind].
    destruct (Z.ltb_spec (Z.of_nat t) (num_latent_scales - 1)) as [Hlt|Hge];
      (eexists; split; [reflexivity|]); unfold Inv; cbn [fst snd].
    + split.
      * apply (chained_snoc (num_channels_enc * m) (num_channels_enc * mult));
          [exact Hch' | reflexivity |].
        unfold ChannelPlan.CHANNEL_MULT. cbn [ChannelPlan.c_out]. ring.
      * rewrite Hm. unfold ChannelPlan.CHANNEL_MULT.
        replace (Z.min (Z.of_nat (S t)) (num_latent_scales - 1))
          with (Z.succ (Z.of_nat t)) by lia.
        replace (Z.min (Z.of_nat t) (num_latent_scales - 1)) with (Z.of_nat t) by lia.
        rewrite Z.pow_succ_r by lia. lia.
    + split; [exact Hch'|]. rewrite Hm.
      replace (Z.min (Z.of_nat (S t)) (num_latent_scales - 1))
        with (Z.min (Z.of_nat t) (num_latent_scales - 1)) by lia.
      reflexivity.
  - lia.
  - unfold Inv. cbn [fst snd chained]. split; [reflexivity|].
    replace (Z.min (Z.of_nat 0) (num_latent_scales - 1)) with 0%Z by lia. simpl. lia.
  - cbn [fst snd] in *.
    replace (Z.min (Z.of_nat (Z.to_nat num_latent_scales)) (num_latent_scales - 1))
      with (num_latent_scales - 1)%Z in Hm by lia.
    subst m'. exists acc'. split; [exact E | exact Hch].
Qed.

(** The cell types of the tower with channels are those of the tower of
    [AutoEncoder.init_encoder_tower]. *)
Lemma encoder_scale_cells_types (s n m : Z) (acc : list ChannelPlan.call) :
  result_rel (fun l tys => map ChannelPlan.cell_type l = tys)
    (ChannelPlan.encoder_scale_cells num_channels_enc num_channels_dec num_latent_scales
       num_cell_per_cond_enc s n m acc)
    (AutoEncoder.encoder_scale_cells num_latent_scales num_cell_per_cond_enc s n
       (map ChannelPlan.cell_type acc)).
Proof.
  unfold ChannelPlan.encoder_scale_cells, AutoEncoder.encoder_scale_cells.
  apply for_each_rel; [|reflexivity].
  intros l tys g <-. destruct (negb _); simpl;
    rewrite ?map_app, map_repeat; reflexivity.
Qed.

Lemma init_encoder_tower_types (m : Z) :
  result_rel (fun st tys => map ChannelPlan.cell_type (fst st) = tys)
    (ChannelPlan.init_encoder_tower num_channels_enc num_channels_dec num_latent_scales
       num_cell_per_cond_enc groups_per_scale m)
    (AutoEncoder.init_encoder_tower num_latent_scales groups_per_scale
       num_cell_per_cond_enc).
Proof.
  unfold ChannelPlan.init_encoder_tower, AutoEncoder.init_encoder_tower.
  apply for_each_rel; [|reflexivity].
  intros [l mult] tys s <-. cbn [fst].
  destruct (Py.index groups_per_scale s) as [n|e]; simpl; [|reflexivity].
  pose proof (encoder_scale_cells_types s n mult l) as Hrel.
  unfold result_rel in Hrel.
  destruct (ChannelPlan.encoder_scale_cells _ _ _ _ _ _ _ _) as [l'|e1],
           (AutoEncoder.encoder_scale_cells _ _ _ _ _) as [tys'|e2];
    simpl; try contradiction; [|exact Hrel].
  subst tys'. destruct (s <? num_latent_scales - 1)%Z; simpl;
    rewrite ?map_app; reflexivity.
Qed.

(** X19: with at least one cell per pre-processing block, at least one
    latent scale and a [groups_per_scale] entry for every scale, the encoder
    side of [__init__] returns; every cell of [pre_process] followed by
    [enc_tower] takes the channels its predecessor hands on, from the
    [num_channels_enc] of the stem to [num_channels_enc * mult]; the final
    [mult] is the [c_scaling] of line 154, the factor [prior_ftr0] is sized
    with; and, unless the model is a vanilla VAE, the cell types are those
    of the encoder tower counted above. *)
Theorem encoder_channel_chain :
  (0 <= num_preprocess_blocks)%Z -> (1 <= num_preprocess_cells)%Z ->
  (1 <= num_latent_scales)%Z ->
  (num_latent_scales <= Z.of_nat (length groups_per_scale))%Z ->
  let c_scaling := ChannelPlan.c_scaling num_preprocess_blocks num_latent_scales in
  exists pre_process enc_tower,
    ChannelPlan.init_encoder_side num_channels_enc num_channels_dec num_preprocess_blocks
      num_preprocess_cells num_latent_scales num_groups_per_scale
      num_cell_per_cond_enc groups_per_scale
    = Ok (pre_process, enc_tower, c_scaling)
    /\ chained num_channels_enc (pre_process ++ enc_tower) (num_channels_enc * c_scaling)
    /\ (ChannelPlan.vanilla_vae num_latent_scales num_groups_per_scale = false ->
        AutoEncoder.init_encoder_tower num_latent_scales groups_per_scale
          num_cell_per_cond_enc
        = Ok (map ChannelPlan.cell_type enc_tower)).
Proof.
  intros Hblocks Hcells Hscales Hgroups. cbv zeta.
  unfold ChannelPlan.init_encoder_side, ChannelPlan.c_scaling,
    ChannelPlan.CHANNEL_MULT.
  destruct (init_pre_process_channels 1 Hcells) as (pre & Epre & Hpre).
  rewrite Epre. cbn [bind].
  replace (Z.max 0 num_preprocess_blocks) with num_preprocess_blocks in * by lia.
  rewrite Z.mul_1_r in Hpre.
  set (m1 := (1 * 2 ^ num_preprocess_blocks)%Z) in *.
  destruct (ChannelPlan.vanilla_vae num_latent_scales num_groups_per_scale) eqn:Hv.
  - unfold ChannelPlan.vanilla_vae in Hv.
    apply andb_true_iff in Hv as [Hs _]. apply Z.eqb_eq in Hs.
    exists pre, []. rewrite app_nil_r.
    replace (num_preprocess_blocks + num_latent_scales - 1)%Z
      with num_preprocess_blocks by lia.
    replace m1 with (2 ^ num_preprocess_blocks)%Z in * by (unfold m1; lia).
    split; [reflexivity|]. split; [exact Hpre | discriminate].
  - destruct (init_encoder_tower_channels m1 Hscales Hgroups) as (enc & Eenc & Henc).
    pose proof (init_encoder_tower_types m1) as Htypes.
    rewrite Eenc in *. cbn [bind].
    assert (Hm : (m1 * 2 ^ (num_latent_scales - 1)
                  = 2 ^ (num_preprocess_blocks + num_latent_scales - 1))%Z).
    { unfold m1. rewrite Z.mul_1_l, <- Z.pow_add_r by lia. f_equal. lia. }
    rewrite Hm in *.
    exists pre, enc. split; [reflexivity|]. split.
    + apply (chained_app num_channels_enc (num_channels_enc * m1)); assumption.
    + intros _. unfold result_rel in Htypes.
      destruct (AutoEncoder.init_encoder_tower _ _ _) as [tys|e];
        [|contradiction].
      cbn [fst] in Htypes. now subst tys.
Qed.

End EncoderChannels.

Lemma encoder_channel_chain_witness :
  exists pre_process enc_tower,
    ChannelPlan.init_encoder_side 16 16 2 2 3 2 1 [2; 2; 1]%Z
    = Ok (pre_process, enc_tower, 16%Z)
    /\ chained 16 (pre_process ++ enc_tower) 256.
Proof.
  destruct (encoder_channel_chain 16 16 2 2 3 2 1 [2; 2; 1]%Z)
    as (pre & enc & E & Hch & _); [lia | lia | lia | simpl; lia |].
  exists pre, enc. split; [exact E | exact Hch].
Defined.
